(** * Nexus V2 audio core: PCM codec, live playback scheduler, narration loader

    A shallow embedding of the audio code of the repository
    ([src/utils/audioUtils.ts], the chat component with its live voice
    session, [src/components/AudioPlayer.tsx], and the service they call,
    [src/services/geminiService.ts]) and the proofs of the properties its
    specification states about it, followed by further properties read off
    the code.

    Conventions of the embedding.
    - A JavaScript number is [NaN], an infinity or a finite rational.  The
      arithmetic the code performs on samples is exact on the values it
      meets: a Float32Array element has a 24-bit significand, the scale
      factors 0x7FFF and 0x8000 have 15 and 16 bits, so the product fits the
      53-bit significand of a double; an Int16 divided by 32768 fits a float.
      Clock times are rationals too.
    - A JavaScript string is the list of its UTF-16 code units.
    - Exceptions are values: a fallible function returns [result].
    - A React component is a record of its state, refs and props; a closure
      (a run of an effect, a source node, a frame callback) is an entry of a
      list or a map and its index is its identity; an asynchronous function
      is cut at its [await]s, and what happens between two of them is an
      event.
    - The platform (typed arrays, [btoa]/[atob], [AudioContext],
      [requestAnimationFrame]) is modelled from its standards, as far as the
      code depends on it; the functions of the service are functions of the
      answers of the API.

    Left out: the opening of a voice session and its microphone pipeline
    ([connectVoiceSession], [startMicrophone], [toggleVoiceMode]), the
    [resume] awaited inside [loadAudio], and the rendering. *)

From Stdlib Require Import ZArith QArith Qabs Qminmax Lqa Lia List String Ascii Bool.
From stdpp Require Import base option list gmap.

Local Open Scope Z_scope.

(* ===================================================================== *)
(** * Part I: the platform (ECMAScript, WHATWG base64, Web Audio)         *)
(* ===================================================================== *)

Module Js.

(** Exceptions raised by the platform functions the code calls. *)
Inductive exn : Type :=
  | InvalidCharacterError   (* btoa / atob *)
  | RangeError              (* typed-array construction *)
  | NotSupportedError       (* AudioContext.createBuffer *)
  | Error (message : string).

Inductive result (A : Type) : Type :=
  | Ok (a : A)
  | Throw (e : exn).
Arguments Ok {A} a.
Arguments Throw {A} e.

Definition bind {A B : Type} (r : result A) (k : A -> result B) : result B :=
  match r with
  | Ok a => k a
  | Throw e => Throw e
  end.

Notation "x <- r ;; k" := (bind r (fun x => k))
  (at level 100, r at next level, right associativity).

(** ** Numbers *)

Inductive number : Type :=
  | NaN
  | PInf
  | NInf
  | Fin (q : Q).

(** [a < b] of two numbers: false as soon as one of them is [NaN]. *)
Definition lt (a b : number) : bool :=
  match a, b with
  | NaN, _ | _, NaN => false
  | PInf, _ => false
  | _, NInf => false
  | NInf, _ => true
  | _, PInf => true
  | Fin x, Fin y => if Qlt_le_dec x y then true else false
  end.

(** [Math.min] and [Math.max] of two arguments. *)
Definition Math_min (a b : number) : number :=
  match a, b with
  | NaN, _ | _, NaN => NaN
  | _, _ => if lt b a then b else a
  end.

Definition Math_max (a b : number) : number :=
  match a, b with
  | NaN, _ | _, NaN => NaN
  | _, _ => if lt a b then b else a
  end.

(** The sign of a number: [Lt], [Eq] (zero) or [Gt]; [None] for [NaN]. *)
Definition sign (a : number) : option comparison :=
  match a with
  | NaN => None
  | PInf => Some Gt
  | NInf => Some Lt
  | Fin q => Some (Qcompare q 0)
  end.

(** [a * b]. *)
Definition mul (a b : number) : number :=
  match a, b with
  | Fin x, Fin y => Fin (x * y)
  | _, _ =>
      match sign a, sign b with
      | Some Eq, _ | _, Some Eq => NaN          (* 0 * Infinity *)
      | Some Lt, Some Lt | Some Gt, Some Gt => PInf
      | Some Lt, Some Gt | Some Gt, Some Lt => NInf
      | _, _ => NaN
      end
  end.

(** [a / b] for a finite non-zero divisor, the only division of the code. *)
Definition div_by (a : number) (d : Q) : number :=
  match a with
  | Fin x => Fin (x / d)
  | other => mul other (Fin (/ d))
  end.

(** Truncation of a rational toward zero. *)
Definition truncate (q : Q) : Z := Z.quot (Qnum q) (Z.pos (Qden q)).

(** [ToInt16], the conversion a store into an [Int16Array] applies:
    [NaN] and the infinities become 0, a finite number is truncated and
    reduced modulo 2^16 into the signed range. *)
Definition wrap16 (i : Z) : Z :=
  let u := i mod 65536 in
  if 32768 <=? u then u - 65536 else u.

Definition ToInt16 (a : number) : Z :=
  match a with
  | Fin q => wrap16 (truncate q)
  | _ => 0
  end.

(** ** Typed arrays over one buffer *)

(** [ToUint8], the conversion a store into a [Uint8Array] applies to an
    integer. *)
Definition ToUint8 (c : Z) : Z := c mod 256.

(** The bytes of an [Int16Array]'s buffer, as a [Uint8Array] over it reads
    them (little-endian, as on every platform the code runs on). *)
Definition int16_bytes (v : Z) : list Z :=
  let u := v mod 65536 in [u mod 256; u / 256].

Definition Int16Array_buffer (a : list Z) : list Z := flat_map int16_bytes a.

Definition int16_of_bytes (lo hi : Z) : Z := wrap16 (lo + 256 * hi).

Fixpoint int16_view (bytes : list Z) : list Z :=
  match bytes with
  | lo :: hi :: rest => int16_of_bytes lo hi :: int16_view rest
  | _ => []
  end.

(** [new Int16Array(buffer)]: a [RangeError] when the byte length of the
    buffer is not a multiple of the element size. *)
Definition new_Int16Array (bytes : list Z) : result (list Z) :=
  if Z.of_nat (length bytes) mod 2 =? 0 then Ok (int16_view bytes)
  else Throw RangeError.

(** ** Strings and base64 *)

(** A string is the list of its code units. *)
Definition jsstring : Type := list Z.

Definition code_units (s : string) : jsstring :=
  map (fun c => Z.of_N (N_of_ascii c)) (list_ascii_of_string s).

(** The base64 alphabet: sextet to code unit, and back. *)
Definition b64_char (i : Z) : Z :=
  if i <? 26 then 65 + i
  else if i <? 52 then 97 + (i - 26)
  else if i <? 62 then 48 + (i - 52)
  else if i =? 62 then 43
  else 47.

Definition b64_value (c : Z) : option Z :=
  if (65 <=? c) && (c <=? 90) then Some (c - 65)
  else if (97 <=? c) && (c <=? 122) then Some (c - 97 + 26)
  else if (48 <=? c) && (c <=? 57) then Some (c - 48 + 52)
  else if c =? 43 then Some 62
  else if c =? 47 then Some 63
  else None.

Definition pad : Z := 61.    (* '=' *)

(** The sextets of a byte sequence, three bytes at a time; the last group
    of one or two bytes gives two or three sextets. *)
Fixpoint sextets (bytes : list Z) : list Z :=
  match bytes with
  | [] => []
  | [a] => [a / 4; (a mod 4) * 16]
  | [a; b] => [a / 4; (a mod 4) * 16 + b / 16; (b mod 16) * 4]
  | a :: b :: c :: rest =>
      a / 4 :: (a mod 4) * 16 + b / 16 :: (b mod 16) * 4 + c / 64 :: c mod 64
        :: sextets rest
  end.

Definition padding (n : nat) : list Z :=
  match (n mod 3)%nat with
  | 1%nat => [pad; pad]
  | 2%nat => [pad]
  | _ => []
  end.

(** [btoa]: an [InvalidCharacterError] when a code unit is above 255. *)
Definition btoa (binary : jsstring) : result jsstring :=
  if forallb (fun c => (0 <=? c) && (c <=? 255)) binary
  then Ok (map b64_char (sextets binary) ++ padding (length binary))
  else Throw InvalidCharacterError.

(** The bytes of a sextet sequence: four sextets give three bytes, a last
    group of three gives two, of two gives one (surplus bits dropped). *)
Fixpoint unsextets (s : list Z) : list Z :=
  match s with
  | [a; b] => [a * 4 + b / 16]
  | [a; b; c] => [a * 4 + b / 16; (b mod 16) * 16 + c / 4]
  | a :: b :: c :: d :: rest =>
      a * 4 + b / 16 :: (b mod 16) * 16 + c / 4 :: (c mod 4) * 64 + d
        :: unsextets rest
  | _ => []
  end.

Definition is_ascii_whitespace (c : Z) : bool :=
  (c =? 9) || (c =? 10) || (c =? 12) || (c =? 13) || (c =? 32).

(** Removal of one or two trailing '=' (given the reversed string). *)
Definition strip_padding_rev (r : jsstring) : jsstring :=
  match r with
  | p1 :: p2 :: rest =>
      if p1 =? pad then (if p2 =? pad then rest else p2 :: rest) else r
  | [p1] => if p1 =? pad then [] else r
  | [] => []
  end.

Definition strip_padding (data : jsstring) : jsstring :=
  rev (strip_padding_rev (rev data)).

Fixpoint b64_values (data : jsstring) : option (list Z) :=
  match data with
  | [] => Some []
  | c :: rest =>
      match b64_value c, b64_values rest with
      | Some v, Some vs => Some (v :: vs)
      | _, _ => None
      end
  end.

(** [atob] (the forgiving-base64 decode of the WHATWG Infra standard):
    ASCII whitespace is removed; when the length is a multiple of 4 one or
    two trailing '=' are removed; a length of 1 modulo 4, or a code unit
    outside the alphabet, is an [InvalidCharacterError]. *)
Definition atob (data : jsstring) : result jsstring :=
  let d1 := List.filter (fun c => negb (is_ascii_whitespace c)) data in
  let d2 := if Z.of_nat (length d1) mod 4 =? 0 then strip_padding d1 else d1 in
  if Z.of_nat (length d2) mod 4 =? 1 then Throw InvalidCharacterError
  else match b64_values d2 with
       | Some s => Ok (unsextets s)
       | None => Throw InvalidCharacterError
       end.

(** ** Web Audio *)

(** An [AudioBuffer] with one channel. *)
Record AudioBuffer : Type := mkAudioBuffer {
  sampleRate : Q;
  channelData : list number
}.

Definition frames (b : AudioBuffer) : Z := Z.of_nat (length (channelData b)).

(** [buffer.duration], in seconds. *)
Definition duration (b : AudioBuffer) : Q := inject_Z (frames b) / sampleRate b.

(** An [AudioContext]: its clock, in seconds, and the range of sample
    rates its [createBuffer] accepts (at least 8000 to 96000 on every
    implementation). *)
Record AudioContext : Type := mkAudioContext {
  currentTime : Q;
  minSampleRate : Q;
  maxSampleRate : Q
}.

Definition rate_supported (ctx : AudioContext) (rate : Q) : bool :=
  (if Qlt_le_dec rate (minSampleRate ctx) then false else true)
  && (if Qlt_le_dec (maxSampleRate ctx) rate then false else true).

(** [ctx.createBuffer(1, length, sampleRate)]: a zero-filled mono buffer;
    a [NotSupportedError] when the length is zero or the rate is outside
    the supported range. *)
Definition createBuffer (ctx : AudioContext) (len : nat) (rate : Q)
  : result AudioBuffer :=
  if (0 <? Z.of_nat len) && rate_supported ctx rate
  then Ok (mkAudioBuffer rate (repeat (Fin 0) len))
  else Throw NotSupportedError.

End Js.

(* ===================================================================== *)
(** * Part II: src/utils/audioUtils.ts                                    *)
(* ===================================================================== *)

Module AudioUtils.
Import Js.

(** The body of the first loop of [float32ToBase64]: clamp, scale, store
    into the [Int16Array]. *)
Definition clamp (x : number) : number :=
  Math_max (Fin (-1)) (Math_min (Fin 1) x).

Definition scale (s : number) : number :=
  if lt s (Fin 0) then mul s (Fin 32768) else mul s (Fin 32767).

Definition sample_to_int16 (x : number) : Z := ToInt16 (scale (clamp x)).

(** The [Int16Array] the first loop fills. *)
Definition int16_of_samples (data : list number) : list Z :=
  map sample_to_int16 data.

Definition float32ToBase64 (data : list number) : result jsstring :=
  let int16 := int16_of_samples data in
  let bytes := Int16Array_buffer int16 in
  (* binary += String.fromCharCode(bytes[i]) *)
  let binary : jsstring := fold_left (fun acc b => acc ++ [b]) bytes [] in
  btoa binary.

(** [channelData[i] = int16[i] / 32768.0] for every frame [i]. *)
Definition fill_channel (int16 : list Z) (b : AudioBuffer) : AudioBuffer :=
  mkAudioBuffer (sampleRate b)
    (fold_left
       (fun ch i => <[ i := div_by (Fin (inject_Z (nth i int16 0))) 32768 ]> ch)
       (seq 0 (length int16)) (channelData b)).

Definition base64ToAudioBuffer (base64 : jsstring) (ctx : AudioContext)
    (sampleRate : Q) : result AudioBuffer :=
  binaryString <- atob base64 ;;
  (* bytes[i] = binaryString.charCodeAt(i) *)
  let bytes := map ToUint8 binaryString in
  int16 <- new_Int16Array bytes ;;
  let frameCount := length int16 in
  buffer <- createBuffer ctx frameCount sampleRate ;;
  Ok (fill_channel int16 buffer).

Definition defaultSampleRate : Q := 24000.

(** ** Vocabulary of the statements about the codec *)

Definition is_byte (b : Z) : Prop := 0 <= b <= 255.
Definition is_sextet (x : Z) : Prop := 0 <= x <= 63.
Definition is_int16 (v : Z) : Prop := -32768 <= v <= 32767.

(** The value the decoder gives an Int16. *)
Definition decode_sample (v : Z) : Q := inject_Z v / 32768.

Definition unit_sample (x : number) : Prop :=
  exists q, x = Fin q /\ (-1 <= q)%Q /\ (q <= 1)%Q.

(** [y] is the finite sample [x] up to less than two steps of the 16-bit
    grid, and up to less than one step when [x] is not positive. *)
Definition recovers (x y : number) : Prop :=
  exists q d, x = Fin q /\ y = Fin d
    /\ (Qabs (d - q) < 2 # 32768)%Q
    /\ ((q <= 0)%Q -> (Qabs (d - q) < 1 # 32768)%Q).


End AudioUtils.

(* ===================================================================== *)
(** * Part III: the chat component and its live voice session             *)
(**   (src/unnamed/part_001, the ChatInterface component)                 *)
(* ===================================================================== *)

Module Chat.
Import Js AudioUtils.

Inductive MessageRole : Type := USER | MODEL | SYSTEM.

Record ChatMessage : Type := mkChatMessage {
  msg_id : Z;                       (* the decimal text of this number *)
  role : MessageRole;
  text : jsstring;
  image : option jsstring;
  timestamp : Z
}.

(** What the handler reads of a [LiveServerMessage]:
    [serverContent?.interrupted], [serverContent?.turnComplete] and
    [serverContent?.modelTurn?.parts?.[0]?.inlineData?.data]. *)
Record LiveServerMessage : Type := mkLiveMessage {
  interrupted : bool;
  turnComplete : bool;
  audioData : option jsstring
}.

(** An [AudioBufferSourceNode] that [start(when)] was called on, and the
    time at which [stop()] was called on it, if it was. *)
Record SourceNode : Type := mkSource {
  buffer : AudioBuffer;
  startAt : Q;
  stoppedAt : option Q
}.

(** The source is heard at time [t]. *)
Definition audible (n : SourceNode) (t : Q) : Prop :=
  (startAt n <= t)%Q /\ (t < startAt n + duration (buffer n))%Q
  /\ match stoppedAt n with
     | Some stop => (t < stop)%Q
     | None => True
     end.

(** The source has ended at time [now]: played to its end, or stopped. *)
Definition ended (now : Q) (n : SourceNode) : bool :=
  match stoppedAt n with
  | Some _ => true
  | None => if Qlt_le_dec now (startAt n + duration (buffer n)) then false else true
  end.

(** The callbacks the component passes to [setTimeout]. *)
Inductive TimerAction : Type :=
  | AiSpeakingOff.     (* () => { if (mountedRef.current) setAiSpeaking(false) } *)

Record State : Type := mkState {
  messages : list ChatMessage;   (* useState: the conversation *)
  input : jsstring;   (* useState: the text field *)
  isTextLoading : bool;
  isVoiceMode : bool;
  aiSpeaking : bool;
  outputAudioContextRef : option AudioContext;   (* useRef *)
  nextStartTimeRef : Q;   (* useRef, seconds of the output clock *)
  activeSourcesRef : gset nat;   (* useRef: Set of source nodes, by identity *)
  mountedRef : bool;
  isInterruptedRef : bool;
  sources : list SourceNode;   (* every source node created; its index is its identity *)
  timers : list (Z * TimerAction);   (* pending setTimeout: due time (ms) and callback *)
  clock : Z   (* Date.now(), milliseconds *)
}.

Definition set_messages (v : list ChatMessage) (s : State) : State :=
  mkState v (input s) (isTextLoading s) (isVoiceMode s) (aiSpeaking s)
    (outputAudioContextRef s) (nextStartTimeRef s) (activeSourcesRef s)
    (mountedRef s) (isInterruptedRef s) (sources s) (timers s) (clock s).

Definition set_input (v : jsstring) (s : State) : State :=
  mkState (messages s) v (isTextLoading s) (isVoiceMode s) (aiSpeaking s)
    (outputAudioContextRef s) (nextStartTimeRef s) (activeSourcesRef s)
    (mountedRef s) (isInterruptedRef s) (sources s) (timers s) (clock s).

Definition set_isTextLoading (v : bool) (s : State) : State :=
  mkState (messages s) (input s) v (isVoiceMode s) (aiSpeaking s)
    (outputAudioContextRef s) (nextStartTimeRef s) (activeSourcesRef s)
    (mountedRef s) (isInterruptedRef s) (sources s) (timers s) (clock s).

Definition set_aiSpeaking (v : bool) (s : State) : State :=
  mkState (messages s) (input s) (isTextLoading s) (isVoiceMode s) v
    (outputAudioContextRef s) (nextStartTimeRef s) (activeSourcesRef s)
    (mountedRef s) (isInterruptedRef s) (sources s) (timers s) (clock s).

Definition set_outputAudioContextRef (v : option AudioContext) (s : State) : State :=
  mkState (messages s) (input s) (isTextLoading s) (isVoiceMode s)
    (aiSpeaking s) v (nextStartTimeRef s) (activeSourcesRef s) (mountedRef
    s) (isInterruptedRef s) (sources s) (timers s) (clock s).

Definition set_nextStartTimeRef (v : Q) (s : State) : State :=
  mkState (messages s) (input s) (isTextLoading s) (isVoiceMode s)
    (aiSpeaking s) (outputAudioContextRef s) v (activeSourcesRef s)
    (mountedRef s) (isInterruptedRef s) (sources s) (timers s) (clock s).

Definition set_activeSourcesRef (v : gset nat) (s : State) : State :=
  mkState (messages s) (input s) (isTextLoading s) (isVoiceMode s)
    (aiSpeaking s) (outputAudioContextRef s) (nextStartTimeRef s) v
    (mountedRef s) (isInterruptedRef s) (sources s) (timers s) (clock s).

Definition set_isInterruptedRef (v : bool) (s : State) : State :=
  mkState (messages s) (input s) (isTextLoading s) (isVoiceMode s)
    (aiSpeaking s) (outputAudioContextRef s) (nextStartTimeRef s)
    (activeSourcesRef s) (mountedRef s) v (sources s) (timers s) (clock s).

Definition set_sources (v : list SourceNode) (s : State) : State :=
  mkState (messages s) (input s) (isTextLoading s) (isVoiceMode s)
    (aiSpeaking s) (outputAudioContextRef s) (nextStartTimeRef s)
    (activeSourcesRef s) (mountedRef s) (isInterruptedRef s) v (timers s)
    (clock s).

Definition set_timers (v : list (Z * TimerAction)) (s : State) : State :=
  mkState (messages s) (input s) (isTextLoading s) (isVoiceMode s)
    (aiSpeaking s) (outputAudioContextRef s) (nextStartTimeRef s)
    (activeSourcesRef s) (mountedRef s) (isInterruptedRef s) (sources s) v
    (clock s).

Definition set_clock (v : Z) (s : State) : State :=
  mkState (messages s) (input s) (isTextLoading s) (isVoiceMode s)
    (aiSpeaking s) (outputAudioContextRef s) (nextStartTimeRef s)
    (activeSourcesRef s) (mountedRef s) (isInterruptedRef s) (sources s)
    (timers s) v.

(** [setTimeout(callback, delay)]. *)
Definition setTimeout (callback : TimerAction) (delay : Z) (s : State) : State :=
  set_timers (timers s ++ [(clock s + delay, callback)]) s.

(** [source.stop()]: a source already stopped keeps its stop time. *)
Definition stop (now : Q) (n : SourceNode) : SourceNode :=
  match stoppedAt n with
  | Some _ => n
  | None => mkSource (buffer n) (startAt n) (Some now)
  end.

Definition playAudioResponse (buffer : AudioBuffer) (s : State) : State :=
  match outputAudioContextRef s with
  | None => s
  | Some ctx =>
      let source := length (sources s) in        (* ctx.createBufferSource() *)
      let now := currentTime ctx in
      let next :=
        if Qlt_le_dec (nextStartTimeRef s) now then now
        else if (if Qlt_le_dec (now + (1 # 2)) (nextStartTimeRef s)
                 then true else false)
                && bool_decide (size (activeSourcesRef s) = 0%nat)
        then now
        else nextStartTimeRef s in
      (* source.start(nextStartTimeRef.current) *)
      let s1 := set_sources (sources s ++ [mkSource buffer next None]) s in
      let s2 := set_nextStartTimeRef (next + duration buffer) s1 in
      set_activeSourcesRef ({[ source ]} ∪ activeSourcesRef s2) s2
  end.

(** [source.onended]: the source leaves the active set. *)
Definition onended (source : nat) (s : State) : State :=
  set_activeSourcesRef (activeSourcesRef s ∖ {[ source ]}) s.

Definition stopAudioOutput (s : State) : State :=
  (* activeSourcesRef.current.forEach(source => source.stop() ...) *)
  let s1 :=
    match outputAudioContextRef s with
    | Some ctx =>
        set_sources
          (imap (fun i n => if bool_decide (i ∈ activeSourcesRef s)
                            then stop (currentTime ctx) n else n)
                (sources s)) s
    | None => s
    end in
  let s2 := set_activeSourcesRef ∅ s1 in
  let s3 :=
    match outputAudioContextRef s2 with
    | Some ctx => set_nextStartTimeRef (currentTime ctx) s2
    | None => s2
    end in
  if mountedRef s3 then set_aiSpeaking false s3 else s3.

(** [handleLiveMessage], with the value of [aiSpeaking] its closure saw.
    The handler is asynchronous: what [base64ToAudioBuffer] raises rejects
    its promise, after the updates made before. *)
Definition handleLiveMessage (aiSpeaking_seen : bool)
    (message : LiveServerMessage) (s : State) : State * result unit :=
  if interrupted message then
    (set_isInterruptedRef true (stopAudioOutput s), Ok tt)
  else
    let s1 :=
      if turnComplete message
      then setTimeout AiSpeakingOff 500 (set_isInterruptedRef false s)
      else s in
    match audioData message, outputAudioContextRef s1 with
    | Some data, Some ctx =>
        if negb (length data =? 0)%nat && negb (isInterruptedRef s1) then
          let s2 := if aiSpeaking_seen then s1 else set_aiSpeaking true s1 in
          match base64ToAudioBuffer data ctx 24000 with
          | Ok audioBuffer => (playAudioResponse audioBuffer s2, Ok tt)
          | Throw e => (s2, Throw e)
          end
        else (s1, Ok tt)
    | _, _ => (s1, Ok tt)
    end.

(** A timer callback runs. *)
Definition run_timer (callback : TimerAction) (s : State) : State :=
  match callback with
  | AiSpeakingOff => if mountedRef s then set_aiSpeaking false s else s
  end.

(** ** The text path: [handleSendText] *)

(** White space and line terminators, as [String.prototype.trim] sees them. *)
Definition is_js_whitespace (c : Z) : bool :=
  ((9 <=? c) && (c <=? 13)) || (c =? 32) || (c =? 160) || (c =? 5760)
  || ((8192 <=? c) && (c <=? 8202)) || (c =? 8232) || (c =? 8233)
  || (c =? 8239) || (c =? 8287) || (c =? 12288) || (c =? 65279).

(** [!input.trim()]. *)
Definition blank (input : jsstring) : bool := forallb is_js_whitespace input.

Record TextResponse : Type := mkTextResponse {
  response_text : jsstring;
  response_image : option jsstring
}.

(** An asynchronous function between two of its suspension points: it has
    returned, or it awaits an external promise and goes on, from the state
    it finds then, with the outcome of that promise. *)
#[warnings="-register-all"]
Inductive task : Type :=
  | Return
  | AwaitSendMessage (history : list ChatMessage) (newMessage : jsstring)
      (k : result TextResponse -> State -> State * task)
  | AwaitGenerateSpeech (txt : jsstring)
      (k : result jsstring -> State -> State * task).

(** The [finally] block. *)
Definition finally (s : State) : State :=
  set_isInterruptedRef false (set_isTextLoading false s).

Definition handleSendText (s : State) : State * task :=
  if blank (input s) || isTextLoading s then (s, Return)
  else
    let isVoiceMode := isVoiceMode s in
    let s1 :=
      if isVoiceMode then set_isInterruptedRef true (stopAudioOutput s) else s in
    let userMsg := mkChatMessage (clock s) USER (input s) None (clock s) in
    let s2 := set_messages (messages s1 ++ [userMsg]) s1 in
    let textToSend := input s in
    let s3 := set_isTextLoading true (set_input [] s2) in
    (s3, AwaitSendMessage (messages s) textToSend (fun outcome s4 =>
      match outcome with
      | Ok response =>
          let botMsg :=
            mkChatMessage (clock s4 + 1) MODEL (response_text response)
                          (response_image response) (clock s4) in
          let s5 := set_messages (messages s4 ++ [botMsg]) s4 in
          if isVoiceMode && mountedRef s5 then
            (s5, AwaitGenerateSpeech (response_text response) (fun speech s6 =>
              let s7 :=
                match speech with
                | Ok base64Audio =>
                    match outputAudioContextRef s6 with
                    | Some ctx =>
                        match base64ToAudioBuffer base64Audio ctx
                                                  defaultSampleRate with
                        | Ok buffer => playAudioResponse buffer s6
                        | Throw _ => s6        (* caught, console.error *)
                        end
                    | None => s6
                    end
                | Throw _ => s6                (* caught, console.error *)
                end in
              (finally s7, Return)))
          else (finally s5, Return)
      | Throw _ => (finally s4, Return)        (* caught, console.error *)
      end)).


(** The run in which the two requests settle with the given outcomes and
    nothing else happens in between. *)
Fixpoint finish (reply : result TextResponse) (speech : result jsstring)
    (s : State) (t : task) : State :=
  match t with
  | Return => s
  | AwaitSendMessage _ _ k =>
      let (s', t') := k reply s in finish reply speech s' t'
  | AwaitGenerateSpeech _ k =>
      let (s', t') := k speech s in finish reply speech s' t'
  end.

(** ** The scheduler as a transition system *)

Inductive event : Type :=
  | AudioTick (d : Q)                (* the output clock advances by [d] *)
  | Enqueue (b : AudioBuffer)        (* playAudioResponse(b) *)
  | Interrupt                        (* stopAudioOutput() *)
  | Ended (source : nat).            (* the onended event of a source *)

Definition audio_tick (d : Q) (s : State) : State :=
  match outputAudioContextRef s with
  | Some ctx =>
      set_outputAudioContextRef
        (Some (mkAudioContext (currentTime ctx + d)
                              (minSampleRate ctx) (maxSampleRate ctx))) s
  | None => s
  end.

(** The events the environment may raise in a state: the clock does not run
    backwards, and [onended] fires for a source that has ended. *)
Definition enabled (e : event) (s : State) : bool :=
  match e with
  | AudioTick d => if Qlt_le_dec d 0 then false else true
  | Ended source =>
      match outputAudioContextRef s, sources s !! source with
      | Some ctx, Some n => ended (currentTime ctx) n
      | _, _ => false
      end
  | Enqueue _ => true
  | Interrupt => true
  end.

Definition step (e : event) (s : State) : State :=
  match e with
  | AudioTick d => audio_tick d s
  | Enqueue b => playAudioResponse b s
  | Interrupt => stopAudioOutput s
  | Ended source => onended source s
  end.

Fixpoint run (events : list event) (s : State) : option State :=
  match events with
  | [] => Some s
  | e :: rest => if enabled e s then run rest (step e s) else None
  end.

(** The session just connected: a running output context, nothing
    scheduled. *)
Definition connected (ctx : AudioContext) : State :=
  mkState [] [] false true false (Some ctx) 0 ∅ true false [] [] 0.

Definition reachable (s : State) : Prop :=
  exists ctx events, run events (connected ctx) = Some s.

Definition is_enqueue (e : event) : bool :=
  match e with Enqueue _ => true | _ => false end.

(** The invariant of the scheduler: a stop lies in the past, and a source
    outside the active set has ended. *)
Definition scheduler_invariant (s : State) : Prop :=
  exists ctx, outputAudioContextRef s = Some ctx /\
    forall i n, sources s !! i = Some n ->
      match stoppedAt n with
      | Some stop => (stop <= currentTime ctx)%Q
      | None => True
      end
      /\ (i ∉ activeSourcesRef s -> ended (currentTime ctx) n = true).

(** After an interruption at time [t], and until the next enqueue, the
    clock and the next start time stay at or after [t]. *)
Definition not_before (t : Q) (s : State) : Prop :=
  exists ctx, outputAudioContextRef s = Some ctx
    /\ (t <= currentTime ctx)%Q /\ (t <= nextStartTimeRef s)%Q.


End Chat.

(* ===================================================================== *)
(** * Part IV: src/components/AudioPlayer.tsx                             *)
(* ===================================================================== *)

Module Player.
Import Js.

Record TextChunk : Type := mkChunk {
  chunk_id : Z;
  title : jsstring;
  content : jsstring
}.

(** One run of the load effect: the props its closure captured and its
    local variable [active]. *)
Record Effect : Type := mkEffect {
  chunk : TextChunk;
  playing : bool;
  active : bool
}.

Record State : Type := mkState {
  audioCache : gmap Z AudioBuffer;   (* the module-level Map<number, AudioBuffer> *)
  mounted : bool;
  currentChunk : TextChunk;   (* props *)
  isPlaying : bool;
  progress : Q;   (* useState *)
  isLoading : bool;
  error : option string;
  retryTrigger : Z;
  audioContextRef : option AudioContext;   (* useRef *)
  sourceRef : option AudioBuffer;   (* the buffer of the playing source *)
  loadingTimeoutRef : option nat;   (* a timer handle *)
  effects : list Effect;   (* the runs of the load effect so far *)
  cleanup : option nat;   (* the run whose cleanup React holds *)
  timers : gmap nat (Z * nat);   (* pending setTimeout(loadAudio): due, run *)
  nextTimer : nat;   (* the handle setTimeout returns next *)
  fetches : list nat;   (* calls of generateSpeech: the run of each *)
  pending : gset nat;   (* the calls that have not settled *)
  clock : Z   (* milliseconds *)
}.

Definition set_audioCache (v : gmap Z AudioBuffer) (s : State) : State :=
  mkState v (mounted s) (currentChunk s) (isPlaying s) (progress s)
    (isLoading s) (error s) (retryTrigger s) (audioContextRef s) (sourceRef
    s) (loadingTimeoutRef s) (effects s) (cleanup s) (timers s) (nextTimer
    s) (fetches s) (pending s) (clock s).

Definition set_mounted (v : bool) (s : State) : State :=
  mkState (audioCache s) v (currentChunk s) (isPlaying s) (progress s)
    (isLoading s) (error s) (retryTrigger s) (audioContextRef s) (sourceRef
    s) (loadingTimeoutRef s) (effects s) (cleanup s) (timers s) (nextTimer
    s) (fetches s) (pending s) (clock s).

Definition set_currentChunk (v : TextChunk) (s : State) : State :=
  mkState (audioCache s) (mounted s) v (isPlaying s) (progress s) (isLoading
    s) (error s) (retryTrigger s) (audioContextRef s) (sourceRef s)
    (loadingTimeoutRef s) (effects s) (cleanup s) (timers s) (nextTimer s)
    (fetches s) (pending s) (clock s).

Definition set_isPlaying (v : bool) (s : State) : State :=
  mkState (audioCache s) (mounted s) (currentChunk s) v (progress s)
    (isLoading s) (error s) (retryTrigger s) (audioContextRef s) (sourceRef
    s) (loadingTimeoutRef s) (effects s) (cleanup s) (timers s) (nextTimer
    s) (fetches s) (pending s) (clock s).

Definition set_progress (v : Q) (s : State) : State :=
  mkState (audioCache s) (mounted s) (currentChunk s) (isPlaying s) v
    (isLoading s) (error s) (retryTrigger s) (audioContextRef s) (sourceRef
    s) (loadingTimeoutRef s) (effects s) (cleanup s) (timers s) (nextTimer
    s) (fetches s) (pending s) (clock s).

Definition set_isLoading (v : bool) (s : State) : State :=
  mkState (audioCache s) (mounted s) (currentChunk s) (isPlaying s)
    (progress s) v (error s) (retryTrigger s) (audioContextRef s) (sourceRef
    s) (loadingTimeoutRef s) (effects s) (cleanup s) (timers s) (nextTimer
    s) (fetches s) (pending s) (clock s).

Definition set_error (v : option string) (s : State) : State :=
  mkState (audioCache s) (mounted s) (currentChunk s) (isPlaying s)
    (progress s) (isLoading s) v (retryTrigger s) (audioContextRef s)
    (sourceRef s) (loadingTimeoutRef s) (effects s) (cleanup s) (timers s)
    (nextTimer s) (fetches s) (pending s) (clock s).

Definition set_retryTrigger (v : Z) (s : State) : State :=
  mkState (audioCache s) (mounted s) (currentChunk s) (isPlaying s)
    (progress s) (isLoading s) (error s) v (audioContextRef s) (sourceRef s)
    (loadingTimeoutRef s) (effects s) (cleanup s) (timers s) (nextTimer s)
    (fetches s) (pending s) (clock s).

Definition set_audioContextRef (v : option AudioContext) (s : State) : State :=
  mkState (audioCache s) (mounted s) (currentChunk s) (isPlaying s)
    (progress s) (isLoading s) (error s) (retryTrigger s) v (sourceRef s)
    (loadingTimeoutRef s) (effects s) (cleanup s) (timers s) (nextTimer s)
    (fetches s) (pending s) (clock s).

Definition set_sourceRef (v : option AudioBuffer) (s : State) : State :=
  mkState (audioCache s) (mounted s) (currentChunk s) (isPlaying s)
    (progress s) (isLoading s) (error s) (retryTrigger s) (audioContextRef
    s) v (loadingTimeoutRef s) (effects s) (cleanup s) (timers s) (nextTimer
    s) (fetches s) (pending s) (clock s).

Definition set_loadingTimeoutRef (v : option nat) (s : State) : State :=
  mkState (audioCache s) (mounted s) (currentChunk s) (isPlaying s)
    (progress s) (isLoading s) (error s) (retryTrigger s) (audioContextRef
    s) (sourceRef s) v (effects s) (cleanup s) (timers s) (nextTimer s)
    (fetches s) (pending s) (clock s).

Definition set_effects (v : list Effect) (s : State) : State :=
  mkState (audioCache s) (mounted s) (currentChunk s) (isPlaying s)
    (progress s) (isLoading s) (error s) (retryTrigger s) (audioContextRef
    s) (sourceRef s) (loadingTimeoutRef s) v (cleanup s) (timers s)
    (nextTimer s) (fetches s) (pending s) (clock s).

Definition set_cleanup (v : option nat) (s : State) : State :=
  mkState (audioCache s) (mounted s) (currentChunk s) (isPlaying s)
    (progress s) (isLoading s) (error s) (retryTrigger s) (audioContextRef
    s) (sourceRef s) (loadingTimeoutRef s) (effects s) v (timers s)
    (nextTimer s) (fetches s) (pending s) (clock s).

Definition set_timers (v : gmap nat (Z * nat)) (s : State) : State :=
  mkState (audioCache s) (mounted s) (currentChunk s) (isPlaying s)
    (progress s) (isLoading s) (error s) (retryTrigger s) (audioContextRef
    s) (sourceRef s) (loadingTimeoutRef s) (effects s) (cleanup s) v
    (nextTimer s) (fetches s) (pending s) (clock s).

Definition set_nextTimer (v : nat) (s : State) : State :=
  mkState (audioCache s) (mounted s) (currentChunk s) (isPlaying s)
    (progress s) (isLoading s) (error s) (retryTrigger s) (audioContextRef
    s) (sourceRef s) (loadingTimeoutRef s) (effects s) (cleanup s) (timers
    s) v (fetches s) (pending s) (clock s).

Definition set_fetches (v : list nat) (s : State) : State :=
  mkState (audioCache s) (mounted s) (currentChunk s) (isPlaying s)
    (progress s) (isLoading s) (error s) (retryTrigger s) (audioContextRef
    s) (sourceRef s) (loadingTimeoutRef s) (effects s) (cleanup s) (timers
    s) (nextTimer s) v (pending s) (clock s).

Definition set_pending (v : gset nat) (s : State) : State :=
  mkState (audioCache s) (mounted s) (currentChunk s) (isPlaying s)
    (progress s) (isLoading s) (error s) (retryTrigger s) (audioContextRef
    s) (sourceRef s) (loadingTimeoutRef s) (effects s) (cleanup s) (timers
    s) (nextTimer s) (fetches s) v (clock s).

Definition set_clock (v : Z) (s : State) : State :=
  mkState (audioCache s) (mounted s) (currentChunk s) (isPlaying s)
    (progress s) (isLoading s) (error s) (retryTrigger s) (audioContextRef
    s) (sourceRef s) (loadingTimeoutRef s) (effects s) (cleanup s) (timers
    s) (nextTimer s) (fetches s) (pending s) v.

(** The process before the player is mounted for the first time. *)
Definition boot : State :=
  mkState ∅ false (mkChunk 0 [] []) false 0 false None 0 None None None
          [] None ∅ 1 [] ∅ 0.

Definition stopPlayback (s : State) : State := set_sourceRef None s.

(** [decodeAudio], the component's own copy of the decoder, at 24 kHz. *)
Definition decodeAudio (base64 : jsstring) (ctx : AudioContext) : result AudioBuffer :=
  binaryString <- atob base64 ;;
  let bytes := map ToUint8 binaryString in
  pcm16 <- new_Int16Array bytes ;;
  let frameCount := length pcm16 in
  audioBuffer <- createBuffer ctx frameCount 24000 ;;
  Ok (mkAudioBuffer (sampleRate audioBuffer)
        (fold_left
           (fun ch i => <[ i := div_by (Fin (inject_Z (nth i pcm16 0))) 32768 ]> ch)
           (seq 0 frameCount) (channelData audioBuffer))).

(** [playBuffer]: the playing source is replaced.  (The progress loop it
    starts reads the state and writes [progress] only; it is left out.) *)
Definition playBuffer (buffer : AudioBuffer) (s : State) : State :=
  match audioContextRef s with
  | None => s
  | Some _ => set_sourceRef (Some buffer) (stopPlayback s)
  end.

Definition is_active (e : nat) (s : State) : bool :=
  match effects s !! e with
  | Some eff => active eff
  | None => false
  end.

Definition clearTimeout (h : nat) (s : State) : State :=
  set_timers (delete h (timers s)) s.

(** [if (active) { setIsLoading(false); if (isPlaying) playBuffer(buffer) }],
    the end of [loadAudio]. *)
Definition present (e : nat) (buffer : AudioBuffer) (s : State) : State :=
  match effects s !! e with
  | Some eff =>
      if active eff then
        let s1 := set_isLoading false s in
        if playing eff then playBuffer buffer s1 else s1
      else s
  | None => s
  end.

(** The [catch] block of [loadAudio]. *)
Definition network_error : string := "Cota excedida ou erro de rede.".

Definition catch (e : nat) (s : State) : State :=
  if is_active e s
  then set_isLoading false (set_error (Some network_error) s)
  else s.

(** [loadAudio] of the run [e], up to its first suspension: a cache hit
    goes on to [present]; a miss calls [generateSpeech] and awaits it. *)
Definition loadAudio (e : nat) (s : State) : State :=
  match effects s !! e, audioContextRef s with
  | Some eff, Some _ =>
      let s1 := set_isLoading true
                  (set_error None (set_progress 0 (stopPlayback s))) in
      match audioCache s1 !! chunk_id (chunk eff) with
      | Some buffer => present e buffer s1
      | None =>
          let call := length (fetches s1) in
          set_pending ({[ call ]} ∪ pending s1)
            (set_fetches (fetches s1 ++ [e]) s1)
      end
  | _, _ => s
  end.

(** [loadAudio] resumes with the text [generateSpeech] resolved to. *)
Definition resolve (call : nat) (base64 : jsstring) (s : State) : State :=
  let s0 := set_pending (pending s ∖ {[ call ]}) s in
  match fetches s0 !! call with
  | Some e =>
      match effects s0 !! e with
      | Some eff =>
          if negb (active eff) then s0                 (* if (!active) return *)
          else
            match
              match audioContextRef s0 with
              | Some ctx => decodeAudio base64 ctx
              | None => Throw (Error "TypeError")
              end
            with
            | Ok buffer =>
                present e buffer
                  (set_audioCache
                     (<[ chunk_id (chunk eff) := buffer ]> (audioCache s0)) s0)
            | Throw _ => catch e s0
            end
      | None => s0
      end
  | None => s0
  end.

(** [loadAudio] resumes with the rejection of [generateSpeech]. *)
Definition reject (call : nat) (s : State) : State :=
  let s0 := set_pending (pending s ∖ {[ call ]}) s in
  match fetches s0 !! call with
  | Some e => catch e s0
  | None => s0
  end.

(** The cleanup of the load effect:
    [active = false; if (loadingTimeoutRef.current) clearTimeout(...)]. *)
Definition deactivate (eff : Effect) : Effect :=
  mkEffect (chunk eff) (playing eff) false.

Definition run_cleanup (s : State) : State :=
  match cleanup s with
  | Some e =>
      let s1 := set_effects (alter deactivate e (effects s)) s in
      let s2 := match loadingTimeoutRef s1 with
                | Some h => clearTimeout h s1
                | None => s1
                end in
      set_cleanup None s2
  | None => s
  end.

(** The body of the load effect: with the audio in the cache it loads at
    once, otherwise it arms the one-second timer. *)
Definition run_effect (s : State) : State :=
  let e := length (effects s) in
  let s1 := set_cleanup (Some e)
              (set_effects
                 (effects s ++ [mkEffect (currentChunk s) (isPlaying s) true]) s) in
  if bool_decide (is_Some (audioCache s1 !! chunk_id (currentChunk s1)))
  then loadAudio e s1
  else
    let s2 := match loadingTimeoutRef s1 with
              | Some h => clearTimeout h s1
              | None => s1
              end in
    let h := nextTimer s2 in
    set_loadingTimeoutRef (Some h)
      (set_nextTimer (S h)
         (set_timers (<[ h := (clock s2 + 1000, e) ]> (timers s2)) s2)).

(** The play/pause effect, when [isPlaying] changes. *)
Definition toggle (s : State) : State :=
  let s1 := set_isPlaying (negb (isPlaying s)) s in
  match audioContextRef s1 with
  | None => s1
  | Some _ =>
      if isPlaying s1 then
        match audioCache s1 !! chunk_id (currentChunk s1) with
        | Some buffer =>
            if bool_decide (sourceRef s1 = None) && negb (isLoading s1)
               && bool_decide (error s1 = None)
            then playBuffer buffer s1 else s1
        | None => s1
        end
      else s1
  end.

(** ** The player as a transition system *)

Inductive event : Type :=
  | Mount (c : TextChunk) (play : bool) (ctx : AudioContext)
  | ChunkChange (c : TextChunk)       (* a render with another currentChunk *)
  | PlayPause                         (* a render with isPlaying toggled *)
  | Retry                             (* a click on the retry button *)
  | Elapse (ms : Z)
  | TimerFires (h : nat)
  | SpeechResolves (call : nat) (base64 : jsstring)
  | SpeechRejects (call : nat)
  | Unmount.

Definition enabled (ev : event) (s : State) : bool :=
  match ev with
  | Mount _ _ _ => negb (mounted s)
  | ChunkChange _ | PlayPause | Unmount => mounted s
  | Retry => mounted s && negb (bool_decide (error s = None))
  | Elapse ms => 0 <=? ms
  | TimerFires h =>
      match timers s !! h with
      | Some (due, _) => due <=? clock s
      | None => false
      end
  | SpeechResolves call _ | SpeechRejects call => bool_decide (call ∈ pending s)
  end.

Definition step (ev : event) (s : State) : State :=
  match ev with
  | Mount c play ctx =>
      (* a new instance: fresh state and refs, the process-wide cache *)
      let fresh :=
        mkState (audioCache s) true c play 0 false None 0 (Some ctx) None None
                (effects s) None (timers s) (nextTimer s)
                (fetches s) (pending s) (clock s) in
      run_effect fresh
  | ChunkChange c => run_effect (run_cleanup (set_currentChunk c s))
  | PlayPause => toggle s
  | Retry => run_effect (run_cleanup (set_retryTrigger (retryTrigger s + 1) s))
  | Elapse ms => set_clock (clock s + ms) s
  | TimerFires h =>
      match timers s !! h with
      | Some (_, e) => loadAudio e (set_timers (delete h (timers s)) s)
      | None => s
      end
  | SpeechResolves call base64 => resolve call base64 s
  | SpeechRejects call => reject call s
  | Unmount => set_mounted false (stopPlayback (run_cleanup s))
  end.

Fixpoint run (events : list event) (s : State) : option State :=
  match events with
  | [] => Some s
  | ev :: rest => if enabled ev s then run rest (step ev s) else None
  end.

Definition reachable (s : State) : Prop :=
  exists events, run events boot = Some s.

(** The invariant of the loader.  Only the run whose cleanup React holds
    can be active; a pending timer is the one [loadingTimeoutRef] names, and
    belongs to that run, which has not fetched yet; no run fetches twice; an
    active run that awaits its fetch has no cache entry for its chunk. *)
Record invariant (s : State) : Prop := mkInvariant {
  inv_active : forall e eff,
    effects s !! e = Some eff -> active eff = true -> cleanup s = Some e;
  inv_timer : forall h due e,
    timers s !! h = Some (due, e) ->
    loadingTimeoutRef s = Some h /\ cleanup s = Some e
    /\ (e ∉ fetches s) /\ (h < nextTimer s)%nat;
  inv_calls : NoDup (fetches s);
  inv_miss : forall call e eff,
    call ∈ pending s -> fetches s !! call = Some e ->
    effects s !! e = Some eff -> active eff = true ->
    audioCache s !! chunk_id (chunk eff) = None;
  inv_bound : forall e, e ∈ fetches s -> (e < length (effects s))%nat;
  inv_pending : forall call, call ∈ pending s -> (call < length (fetches s))%nat;
  inv_current : forall e,
    cleanup s = Some e ->
    mounted s = true
    /\ exists eff, effects s !! e = Some eff /\ chunk eff = currentChunk s;
  inv_mounted :
    mounted s = true -> is_Some (audioContextRef s) /\ is_Some (cleanup s)
}.

(** Between the cleanup of one run of the effect and the next run: no run
    is active and no timer is pending. *)
Record quiescent (s : State) : Prop := mkQuiescent {
  q_inactive : forall e eff, effects s !! e = Some eff -> active eff = false;
  q_timers : timers s = ∅;
  q_cleanup : cleanup s = None;
  q_calls : NoDup (fetches s);
  q_bound : forall e, e ∈ fetches s -> (e < length (effects s))%nat;
  q_pending : forall call, call ∈ pending s -> (call < length (fetches s))%nat
}.

(** What the invariant reads of two states is the same. *)
Definition same_core (s s' : State) : Prop :=
  audioCache s' = audioCache s /\ mounted s' = mounted s
  /\ currentChunk s' = currentChunk s
  /\ audioContextRef s' = audioContextRef s
  /\ loadingTimeoutRef s' = loadingTimeoutRef s
  /\ effects s' = effects s /\ cleanup s' = cleanup s
  /\ timers s' = timers s /\ nextTimer s' = nextTimer s
  /\ fetches s' = fetches s /\ pending s' = pending s.

(** The load behind a call fails on the event [ev]: the fetch is rejected,
    or the text it resolves to does not decode. *)
Definition fails (s : State) (call : nat) (ev : event) : Prop :=
  ev = SpeechRejects call
  \/ exists base64 ctx err,
       ev = SpeechResolves call base64
       /\ audioContextRef s = Some ctx
       /\ decodeAudio base64 ctx = Throw err.

(** The states a sequence of events goes through. *)
Fixpoint trace (events : list event) (s : State) : list State :=
  match events with
  | [] => []
  | ev :: rest => step ev s :: trace rest (step ev s)
  end.

(** A burst of chunk changes: after each chunk but the last, the time that
    passes before the next one. *)
Fixpoint burst (changes : list (TextChunk * Z)) (last : TextChunk) : list event :=
  match changes with
  | [] => [ChunkChange last]
  | (c, gap) :: rest => ChunkChange c :: Elapse gap :: burst rest last
  end.

End Player.

(* ===================================================================== *)
(** * Part V: src/services/geminiService.ts                              *)
(* ===================================================================== *)

(** The three asynchronous functions of the service keep no state: each is
    a function of the answers the API gives to the requests it awaits.  The
    requests made and the pauses taken are returned as a log. *)

Module Service.
Import Js.

(** A value the code catches, as the [catch] block of [sendMessageToNexus]
    reads it: [error.toString()] and [error.status]. *)
Record Thrown : Type := mkThrown {
  toString : jsstring;
  status : option Z
}.

(** [new Error(message)]. *)
Definition new_Error (message : string) : Thrown :=
  mkThrown (code_units "Error: " ++ code_units message) None.

(** The [TypeError] of reading a property of [undefined]. *)
Definition TypeError_prompt : Thrown :=
  mkThrown
    (code_units "TypeError: Cannot read properties of undefined (reading 'prompt')")
    None.

(** A promise that has settled. *)
Inductive settled (A : Type) : Type :=
  | Fulfilled (a : A)
  | Rejected (error : Thrown).
Arguments Fulfilled {A} a.
Arguments Rejected {A} error.

(** What the code reads of a [GenerateContentResponse]: the candidates down
    to the inline data of their parts, and the two getters [functionCalls]
    and [text] of the SDK.  A [None] is an [undefined]. *)
Record InlineData : Type := mkInlineData {
  data : option jsstring
}.

Record Part : Type := mkPart {
  inlineData : option InlineData
}.

Record Content : Type := mkContent {
  parts : option (list Part)
}.

Record Candidate : Type := mkCandidate {
  content : option Content
}.

(** A function call: its name, and of its arguments the value under
    ['prompt'] (a string, or [undefined]); [args] itself may be
    [undefined]. *)
Record FunctionCall : Type := mkFunctionCall {
  name : option jsstring;
  args : option (option jsstring)
}.

Record GenerateContentResponse : Type := mkResponse {
  candidates : option (list Candidate);
  functionCalls : option (list FunctionCall);
  text : option jsstring
}.

(** One entry of the [contents] of a request: [{ role, parts: [{ text }] }]. *)
Inductive ApiRole : Type := user | model.

Record Entry : Type := mkEntry {
  entry_role : ApiRole;
  entry_text : jsstring
}.

(** The requests the service makes, by model. *)
Inductive Request : Type :=
  | TextRequest (contents : list Entry)       (* gemini-3-flash-preview *)
  | ImageRequest (prompt : option jsstring)   (* gemini-2.5-flash-image *)
  | SpeechRequest (txt : jsstring).           (* gemini-2.5-flash-preview-tts *)

Inductive Action : Type :=
  | Requested (request : Request)     (* ai.models.generateContent(...) *)
  | Slept (ms : Z).                   (* await sleep(ms) *)

(** A truthy string: neither [undefined] nor empty. *)
Definition truthy (s : option jsstring) : option jsstring :=
  match s with
  | Some (c :: rest) => Some (c :: rest)
  | _ => None
  end.

(** [response.candidates?.[0]?.content?.parts]. *)
Definition first_parts (response : GenerateContentResponse) : option (list Part) :=
  match candidates response with
  | Some (candidate :: _) =>
      match content candidate with
      | Some c => parts c
      | None => None
      end
  | _ => None
  end.

(** ** [generateImageFromPrompt] *)

(** The loop over the parts: the first part that has inline data. *)
Fixpoint first_inlineData (ps : list Part) : option InlineData :=
  match ps with
  | [] => None
  | part :: rest =>
      match inlineData part with
      | Some d => Some d
      | None => first_inlineData rest
      end
  end.

(** What the function resolves to is [part.inlineData.data], which may be
    [undefined]; its [catch] block logs and throws again. *)
Definition generateImageFromPrompt (prompt : option jsstring)
    (answer : settled GenerateContentResponse)
    : settled (option jsstring) * list Action :=
  (match answer with
   | Fulfilled response =>
       match first_inlineData (default [] (first_parts response)) with
       | Some d => Fulfilled (data d)
       | None => Rejected (new_Error "No image data found in response")
       end
   | Rejected error => Rejected error
   end,
   [Requested (ImageRequest prompt)]).

(** ** [generateSpeech] *)

Definition generateSpeech (txt : jsstring)
    (answer : settled GenerateContentResponse)
    : settled jsstring * list Action :=
  (match answer with
   | Fulfilled response =>
       let base64Audio :=
         match first_parts response with
         | Some (part :: _) =>
             match inlineData part with
             | Some d => data d
             | None => None
             end
         | _ => None
         end in
       match truthy base64Audio with
       | Some audio => Fulfilled audio
       | None => Rejected (new_Error "No audio data generated.")
       end
   | Rejected error => Rejected error
   end,
   [Requested (SpeechRequest txt)]).

(** ** [sendMessageToNexus] *)

Definition maxRetries : Z := 3.

(** [history.filter(...).map(...)], then [contents.push(...)]. *)
Definition contents (history : list Chat.ChatMessage) (newMessage : jsstring)
    : list Entry :=
  map (fun msg =>
         mkEntry (match Chat.role msg with Chat.MODEL => model | _ => user end)
                 (Chat.text msg))
      (List.filter
         (fun msg => match Chat.role msg with Chat.SYSTEM => false | _ => true end)
         history)
  ++ [mkEntry user newMessage].

(** [String.prototype.includes]. *)
Fixpoint starts_with (s sub : jsstring) : bool :=
  match sub, s with
  | [], _ => true
  | _ :: _, [] => false
  | c :: sub', d :: s' => (c =? d) && starts_with s' sub'
  end.

Fixpoint includes (s sub : jsstring) : bool :=
  starts_with s sub
  || match s with
     | [] => false
     | _ :: s' => includes s' sub
     end.

Definition isQuotaError (error : Thrown) : bool :=
  includes (toString error) (code_units "429")
  || includes (toString error) (code_units "RESOURCE_EXHAUSTED")
  || bool_decide (status error = Some 429).

(** The three texts the function builds itself. *)
Definition image_caption (prompt : option jsstring) : jsstring :=
  code_units "Aqui est" ++ [225] ++ code_units " uma imagem gerada para: "
  ++ [34] ++ default (code_units "undefined") prompt ++ [34].

Definition quota_notice : jsstring :=
  [9888; 65039] ++ code_units " O sistema est" ++ [225]
  ++ code_units " com alto tr" ++ [225]
  ++ code_units "fego (Erro 429). Aguarde um momento.".

Definition apology : jsstring :=
  code_units "Desculpe, encontrei um erro ao processar sua solicita"
  ++ [231; 227] ++ code_units "o.".

(** The answers of the API to one pass through the loop: to the text
    request, and to the image request if the pass makes one. *)
Record Round : Type := mkRound {
  text_answer : settled GenerateContentResponse;
  image_answer : settled GenerateContentResponse
}.

(** The [try] block: what it returns or throws, and the requests it made. *)
Definition try_block (history : list Chat.ChatMessage) (newMessage : jsstring)
    (round : Round) : settled Chat.TextResponse * list Action :=
  let request := [Requested (TextRequest (contents history newMessage))] in
  match text_answer round with
  | Rejected error => (Rejected error, request)
  | Fulfilled response =>
      let standard :=
        match truthy (text response) with
        | Some txt => Fulfilled (Chat.mkTextResponse txt None)
        | None => Rejected (new_Error "No response text generated.")
        end in
      match functionCalls response with
      | Some (call :: _) =>
          if bool_decide (name call = Some (code_units "generate_image")) then
            match args call with
            | None => (Rejected TypeError_prompt, request)
            | Some prompt =>
                let (image, made) :=
                  generateImageFromPrompt prompt (image_answer round) in
                (match image with
                 | Fulfilled base64Image =>
                     Fulfilled (Chat.mkTextResponse (image_caption prompt)
                                                    base64Image)
                 | Rejected error => Rejected error
                 end,
                 request ++ made)
            end
          else (standard, request)
      | _ => (standard, request)
      end
  end.

(** The loop.  It goes round once for every element of [rounds] at most;
    [None] is a request the API never answers. *)
Fixpoint retry_loop (history : list Chat.ChatMessage) (newMessage : jsstring)
    (attempt : Z) (rounds : list Round)
    : option (Chat.TextResponse * list Action) :=
  match rounds with
  | [] => None
  | round :: rest =>
      let (outcome, made) := try_block history newMessage round in
      match outcome with
      | Fulfilled response => Some (response, made)
      | Rejected error =>
          if isQuotaError error && (attempt <? maxRetries) then
            let attempt := attempt + 1 in
            let delay := 2 ^ attempt * 2000 in
            match retry_loop history newMessage attempt rest with
            | Some (response, later) =>
                Some (response, made ++ Slept delay :: later)
            | None => None
            end
          else if (maxRetries <=? attempt) && isQuotaError error then
            Some (Chat.mkTextResponse quota_notice None, made)
          else
            Some (Chat.mkTextResponse apology None, made)
      end
  end.

Definition sendMessageToNexus (history : list Chat.ChatMessage)
    (newMessage : jsstring) (rounds : list Round)
    : option (Chat.TextResponse * list Action) :=
  retry_loop history newMessage 0 rounds.

End Service.

(* ===================================================================== *)
(** * Part VI: the progress loop of src/components/AudioPlayer.tsx       *)
(* ===================================================================== *)

(** [playBuffer] with the loop it starts, [stopPlayback] with the frame it
    cancels, and [updateProgress]: the playback side of one mounted player,
    on the refs and the state the loop uses.  A pending callback of
    [requestAnimationFrame] is an entry of a map from its handle to the
    buffer its closure holds; a handle is a positive number, so a handle in
    [animationFrameRef] is truthy.  Times are exact, as elsewhere. *)

Module Progress.
Import Js.

Inductive ContextState : Type := suspended | running | closed.

(** What the loop reads of the [AudioContext]. *)
Record Context : Type := mkContext {
  state : ContextState;
  currentTime : Q
}.

Record State : Type := mkState {
  audioContextRef : option Context;   (* useRef *)
  sourceRef : option AudioBuffer;   (* the buffer of the source in the ref *)
  startTimeRef : Q;
  animationFrameRef : option nat;
  callbacks : gmap nat AudioBuffer;   (* requestAnimationFrame(updateProgress), not yet run *)
  nextHandle : nat;   (* the handle requestAnimationFrame returns next *)
  progress : Q;   (* useState *)
  finished : nat   (* the calls of onFinish so far *)
}.

Definition set_audioContextRef (v : option Context) (s : State) : State :=
  mkState v (sourceRef s) (startTimeRef s) (animationFrameRef s) (callbacks s)
    (nextHandle s) (progress s) (finished s).

Definition set_sourceRef (v : option AudioBuffer) (s : State) : State :=
  mkState (audioContextRef s) v (startTimeRef s) (animationFrameRef s)
    (callbacks s) (nextHandle s) (progress s) (finished s).

Definition set_startTimeRef (v : Q) (s : State) : State :=
  mkState (audioContextRef s) (sourceRef s) v (animationFrameRef s)
    (callbacks s) (nextHandle s) (progress s) (finished s).

Definition set_animationFrameRef (v : option nat) (s : State) : State :=
  mkState (audioContextRef s) (sourceRef s) (startTimeRef s) v (callbacks s)
    (nextHandle s) (progress s) (finished s).

Definition set_callbacks (v : gmap nat AudioBuffer) (s : State) : State :=
  mkState (audioContextRef s) (sourceRef s) (startTimeRef s)
    (animationFrameRef s) v (nextHandle s) (progress s) (finished s).

Definition set_nextHandle (v : nat) (s : State) : State :=
  mkState (audioContextRef s) (sourceRef s) (startTimeRef s)
    (animationFrameRef s) (callbacks s) v (progress s) (finished s).

Definition set_progress (v : Q) (s : State) : State :=
  mkState (audioContextRef s) (sourceRef s) (startTimeRef s)
    (animationFrameRef s) (callbacks s) (nextHandle s) v (finished s).

Definition set_finished (v : nat) (s : State) : State :=
  mkState (audioContextRef s) (sourceRef s) (startTimeRef s)
    (animationFrameRef s) (callbacks s) (nextHandle s) (progress s) v.

(** The player after its first effect has created the context. *)
Definition mounted (ctx : Context) : State :=
  mkState (Some ctx) None 0 None ∅ 1 0 0.

Definition cancelAnimationFrame (h : nat) (s : State) : State :=
  set_callbacks (delete h (callbacks s)) s.

Definition stopPlayback (s : State) : State :=
  let s1 := match sourceRef s with
            | Some _ => set_sourceRef None s   (* stop(), disconnect() *)
            | None => s
            end in
  match animationFrameRef s1 with
  | Some h => cancelAnimationFrame h s1
  | None => s1
  end.

(** [animationFrameRef.current = requestAnimationFrame(updateProgress)],
    for the [updateProgress] of the call of [playBuffer] on [buffer]. *)
Definition request_frame (buffer : AudioBuffer) (s : State) : State :=
  let h := nextHandle s in
  set_animationFrameRef (Some h)
    (set_nextHandle (S h) (set_callbacks (<[ h := buffer ]> (callbacks s)) s)).

Definition playBuffer (buffer : AudioBuffer) (s : State) : State :=
  match audioContextRef s with
  | None => s
  | Some ctx =>
      let s1 := stopPlayback s in
      let s2 := set_sourceRef (Some buffer) s1 in     (* source.start(0) *)
      let s3 := set_startTimeRef (currentTime ctx) s2 in
      request_frame buffer s3
  end.

(** [updateProgress], the closure of [playBuffer(buffer)]; its [ctx] is the
    context of the ref, the only one the player has. *)
Definition updateProgress (buffer : AudioBuffer) (s : State) : State :=
  match audioContextRef s with
  | None => s
  | Some ctx =>
      match state ctx with
      | running =>
          let elapsed := (currentTime ctx - startTimeRef s)%Q in
          let duration := duration buffer in
          if Qle_bool duration elapsed then
            (* setProgress(100); onFinish(); stopPlayback(); return *)
            stopPlayback (set_finished (S (finished s)) (set_progress 100 s))
          else
            let p := Qmin (elapsed / duration * 100)%Q 100%Q in
            request_frame buffer (set_progress p s)
      | _ => request_frame buffer s
      end
  end.

(** ** The playback as a transition system *)

Inductive event : Type :=
  | PlayBuffer (buffer : AudioBuffer)   (* playBuffer(buffer) *)
  | LoadAudio                 (* loadAudio starts: stopPlayback(); setProgress(0) *)
  | Frame (h : nat)           (* the browser runs the callback of handle h *)
  | Advance (d : Q)           (* the clock of the running context moves on *)
  | Resume                    (* ctx.resume() *)
  | Suspend                   (* ctx.suspend() *)
  | Unmount.                  (* stopPlayback(); ctx.close() *)

Definition set_state (v : ContextState) (s : State) : State :=
  match audioContextRef s with
  | Some ctx => set_audioContextRef (Some (mkContext v (currentTime ctx))) s
  | None => s
  end.

Definition is_closed (s : State) : bool :=
  match audioContextRef s with
  | Some ctx => match state ctx with closed => true | _ => false end
  | None => false
  end.

Definition is_running (s : State) : bool :=
  match audioContextRef s with
  | Some ctx => match state ctx with running => true | _ => false end
  | None => false
  end.

(** The component acts while its context is open; the clock moves, and not
    backwards, while the context runs; a callback runs when it is
    pending. *)
Definition enabled (ev : event) (s : State) : bool :=
  match ev with
  | PlayBuffer _ | LoadAudio | Resume | Suspend | Unmount => negb (is_closed s)
  | Frame h => bool_decide (is_Some (callbacks s !! h))
  | Advance d => is_running s && Qle_bool 0 d
  end.

Definition step (ev : event) (s : State) : State :=
  match ev with
  | PlayBuffer buffer => playBuffer buffer s
  | LoadAudio => set_progress 0 (stopPlayback s)
  | Frame h =>
      match callbacks s !! h with
      | Some buffer => updateProgress buffer (set_callbacks (delete h (callbacks s)) s)
      | None => s
      end
  | Advance d =>
      match audioContextRef s with
      | Some ctx =>
          set_audioContextRef
            (Some (mkContext (state ctx) (currentTime ctx + d)%Q)) s
      | None => s
      end
  | Resume => set_state running s
  | Suspend => set_state suspended s
  | Unmount => set_state closed (stopPlayback s)
  end.

Fixpoint run (events : list event) (s : State) : option State :=
  match events with
  | [] => Some s
  | ev :: rest => if enabled ev s then run rest (step ev s) else None
  end.

Definition reachable (s : State) : Prop :=
  exists ctx events, state ctx <> closed /\ (0 <= currentTime ctx)%Q
                     /\ run events (mounted ctx) = Some s.

End Progress.

(* ===================================================================== *)
(** * Part VII: the end of a voice session                               *)
(* ===================================================================== *)

(** The chat component with the state and the refs of its voice session
    that [disconnectVoiceSession] touches besides those of the scheduler.
    A platform object (a media stream, a script processor, the input
    context, the session promise) is a number, its identity; the calls that
    release one ([stop] on the tracks of the stream, [disconnect], [close])
    are recorded in a log. *)

Module Voice.
Import Js Chat.

Inductive Released : Type :=
  | TracksStopped (stream : nat)           (* getTracks().forEach(t => t.stop()) *)
  | ProcessorDisconnected (processor : nat)
  | InputContextClosed (context : nat)
  | OutputContextClosed (context : AudioContext).

Record State : Type := mkState {
  chat : Chat.State;
  isConnecting : bool;   (* useState *)
  isConnected : bool;
  voiceVolume : Q;
  liveSessionRef : option nat;   (* useRef *)
  inputAudioContextRef : option nat;
  scriptProcessorRef : option nat;
  mediaStreamRef : option nat;
  released : list Released
}.











End Voice.

(* ===================================================================== *)
(** * Part VIII: states and values the statements are tried on           *)
(* ===================================================================== *)

Module Examples.
Import Js.

Definition ctx24k : AudioContext := mkAudioContext 0 8000 96000.

(** Two frames, 32767 and -32768, as base64 text. *)
Definition two_frames : jsstring := code_units "/38AgA==".

(** Silent buffers of 1.0 s and 0.5 s.  The scheduler reads nothing of a
    buffer but its duration; a rate of 8 frames per second keeps them small. *)
Definition one_second : AudioBuffer := mkAudioBuffer 8 (repeat (Fin 0) 8).
Definition half_second : AudioBuffer := mkAudioBuffer 8 (repeat (Fin 0) 4).

(** A scheduler with one buffer playing and a second one queued behind it. *)
Definition two_queued : Chat.State :=
  Chat.playAudioResponse half_second
    (Chat.audio_tick (1 # 4) (Chat.playAudioResponse one_second (Chat.connected ctx24k))).

(** The component right after an "interrupted" message. *)
Definition interrupted_state : Chat.State :=
  fst (Chat.handleLiveMessage false (Chat.mkLiveMessage true false None) (Chat.connected ctx24k)).

(** The user has typed "oi" while in voice mode. *)
Definition typing : Chat.State := Chat.set_input (code_units "oi") (Chat.connected ctx24k).

Definition chunk1 : Player.TextChunk := Player.mkChunk 1 (code_units "I") (code_units "um").
Definition chunk2 : Player.TextChunk := Player.mkChunk 2 (code_units "II") (code_units "dois").

(** The player mounted on chunk 1, a second later. *)
Definition waiting : Player.State :=
  Player.step (Player.Elapse 1000) (Player.step (Player.Mount chunk1 true ctx24k) Player.boot).

(** The player awaiting the speech of chunk 1. *)
Definition fetching : Player.State := Player.step (Player.TimerFires 1) waiting.

(** The player with the audio of chunk 1 in the cache. *)
Definition cached : Player.State := Player.step (Player.SpeechResolves 0 two_frames) fetching.

End Examples.

(* ===================================================================== *)
(** * Part IX: vocabulary and cases of the further statements            *)
(* ===================================================================== *)

Module CodecTerms.
Import Js AudioUtils.

(** A character of a base64 text: of the alphabet, or the padding. *)
Definition b64_text_char (c : Z) : bool :=
  match b64_value c with
  | Some _ => true
  | None => c =? pad
  end.

(** The length of the base64 text of [n] samples: four characters for every
    three bytes, the last group padded. *)
Definition encoded_length (n : nat) : nat := (4 * ((2 * n + 2) / 3))%nat.

(** A sample as the decoder writes them: a signed 16-bit integer over
    32768, so a number of [-1, 1). *)
Definition grid_sample (x : number) : Prop :=
  exists v, is_int16 v /\ x = Fin (decode_sample v)
            /\ (-1 <= decode_sample v)%Q /\ (decode_sample v < 1)%Q.

(** What the encoder stores for the decoded value of the integer [v]. *)
Definition reencoded (v : Z) : Z := if 0 <? v then v - 1 else v.

End CodecTerms.

Module SchedulerTerms.
Import Js AudioUtils Chat.





(** The handler runs on a live message, with the value of [aiSpeaking] its
    closure saw; what it raises rejects a promise nobody awaits. *)
Definition deliver (s : State) (m : bool * LiveServerMessage) : State :=
  fst (handleLiveMessage (fst m) (snd m) s).

End SchedulerTerms.

Module LoaderTerms.
Import Js AudioUtils Player CodecTerms.

(** An event that ends the current run of the load effect: React runs its
    cleanup. *)
Definition supersedes (ev : event) : bool :=
  match ev with
  | ChunkChange _ | Retry | Unmount => true
  | _ => false
  end.

(** The event is the outcome of the call [call] of [generateSpeech]. *)
Definition settles (call : nat) (ev : event) : bool :=
  match ev with
  | SpeechResolves c _ | SpeechRejects c => bool_decide (c = call)
  | _ => false
  end.

(** A buffer as [decodeAudio] returns them: 24 kHz, at least one frame,
    every sample on the 16-bit grid of [-1, 1). *)
Definition narration_buffer (b : AudioBuffer) : Prop :=
  sampleRate b = 24000%Q /\ 0 < frames b /\ Forall grid_sample (channelData b).

(** The loading indicator and the error state exclude each other. *)
Definition ui_ok (s : State) : Prop := error s <> None -> isLoading s = false.

End LoaderTerms.

Module Cases.
Import Js Examples.

(** The player after the speech of chunk 1 was refused. *)
Definition failed : Player.State :=
  Player.step (Player.SpeechRejects 0) fetching.

(** The player on chunk 2, the speech of chunk 1 still awaited. *)
Definition skipped : Player.State :=
  Player.step (Player.ChunkChange chunk2) fetching.

End Cases.

Module ServiceTerms.
Import Js Service.

(** The pauses of a log, and the contents of its text requests, in order. *)
Definition sleeps (actions : list Action) : list Z :=
  flat_map (fun a => match a with Slept ms => [ms] | _ => [] end) actions.

Definition text_requests (actions : list Action) : list (list Entry) :=
  flat_map (fun a => match a with
                     | Requested (TextRequest c) => [c]
                     | _ => []
                     end) actions.

(** The pauses before the second, third and fourth attempt, in
    milliseconds. *)
Definition backoff : list Z := [4000; 8000; 16000].

(** A round whose [try] block fails on a quota error. *)
Definition quota_failure (history : list Chat.ChatMessage)
    (newMessage : jsstring) (round : Round) : Prop :=
  exists error, fst (try_block history newMessage round) = Rejected error
                /\ isQuotaError error = true.

(** What [handleSendText] gets from its call of [generateSpeech]; of an
    exception it reads nothing. *)
Definition spoken (txt : jsstring) (answer : settled GenerateContentResponse)
    : result jsstring :=
  match fst (generateSpeech txt answer) with
  | Fulfilled base64Audio => Ok base64Audio
  | Rejected _ => Throw (Error "generateSpeech")
  end.

(** A text exchange of the chat component against the service: the
    submission, the reply [sendMessageToNexus] computes from the answers of
    the API, and the speech [generateSpeech] computes from the answer to its
    request, if the component makes one; nothing else happens in between.
    [None]: the API has not answered. *)
Definition exchange (s : Chat.State) (rounds : list Round)
    (speech_answer : settled GenerateContentResponse) : option Chat.State :=
  match Chat.handleSendText s with
  | (s1, Chat.AwaitSendMessage history newMessage k) =>
      match sendMessageToNexus history newMessage rounds with
      | Some (response, _) =>
          Some (Chat.finish (Ok response)
                  (spoken (Chat.response_text response) speech_answer) s1
                  (Chat.AwaitSendMessage history newMessage k))
      | None => None
      end
  | (s1, _) => Some s1        (* the submission was ignored *)
  end.

End ServiceTerms.

Module Answers.
Import Js Service.

(** The API refuses with a quota error. *)
Definition busy : Round :=
  let refusal := Rejected (mkThrown (code_units "ApiError: quota") (Some 429)) in
  mkRound refusal refusal.

(** The API answers with the text "oi". *)
Definition greeting : Round :=
  let nothing := Fulfilled (mkResponse None None None) in
  mkRound (Fulfilled (mkResponse None None (Some (code_units "oi")))) nothing.

(** The API answers a speech request with the two frames 32767, -32768. *)
Definition speech : settled GenerateContentResponse :=
  Fulfilled
    (mkResponse
       (Some [mkCandidate
                (Some (mkContent
                         (Some [mkPart (Some (mkInlineData
                                                (Some (code_units "/38AgA=="))))])))])
       None None).

End Answers.

Module ProgressTerms.
Import Js Progress.

(** The calls of [playBuffer] among the events. *)
Definition plays (events : list event) : nat :=
  length (List.filter (fun ev => match ev with PlayBuffer _ => true | _ => false end)
                      events).

(** 1 while a source is in [sourceRef], 0 otherwise. *)
Definition playing (s : State) : nat :=
  match sourceRef s with
  | Some _ => 1
  | None => 0
  end.

(** The invariant of the loop: the clock is not before the start time; a
    pending callback is the one [animationFrameRef] names and belongs to the
    source of [sourceRef]; while there is a source its callback is pending;
    the progress is a percentage; a closed context has no callback left. *)
Record loop_invariant (s : State) : Prop := mkLoopInvariant {
  li_ctx : exists ctx, audioContextRef s = Some ctx
                       /\ (startTimeRef s <= currentTime ctx)%Q;
  li_frame : forall h b, callbacks s !! h = Some b ->
    animationFrameRef s = Some h /\ sourceRef s = Some b;
  li_alive : forall b, sourceRef s = Some b ->
    exists h, callbacks s !! h = Some b;
  li_progress : (0 <= progress s)%Q /\ (progress s <= 100)%Q;
  li_closed : is_closed s = true -> callbacks s = ∅
}.

(** A context that plays a sound of one second, at 8 frames a second. *)
Definition live : Context := mkContext running 0.

End ProgressTerms.

Module VoiceTerms.
Import Js Examples Voice.



End VoiceTerms.

(* ===================================================================== *)
(** * Part X: the PCM codec                                              *)
(* ===================================================================== *)

Module CodecFacts.
Import Js AudioUtils.

(** ** Truncation *)

Lemma truncate_nonneg (q : Q) :
  (0 <= q)%Q -> (inject_Z (truncate q) <= q)%Q /\ (q < inject_Z (truncate q) + 1)%Q.
Proof.
  destruct q as [n d]. unfold truncate, Qle, Qlt. simpl. intros Hn.
  assert (H0 : 0 <= n) by lia.
  pose proof (Z.quot_rem' n (Z.pos d)) as Hqr.
  pose proof (Z.rem_bound_pos n (Z.pos d) H0 ltac:(lia)) as Hb.
  split; nia.
Qed.

Lemma truncate_nonpos (q : Q) :
  (q <= 0)%Q -> (q <= inject_Z (truncate q))%Q /\ (inject_Z (truncate q) - 1 < q)%Q.
Proof.
  destruct q as [n d]. unfold truncate, Qle, Qlt. simpl. intros Hn.
  assert (H0 : n <= 0) by lia.
  pose proof (Z.quot_rem' n (Z.pos d)) as Hqr.
  pose proof (Z.rem_bound_pos (- n) (Z.pos d) ltac:(lia) ltac:(lia)) as Hb.
  rewrite Z.rem_opp_l' in Hb.
  split; nia.
Qed.

Lemma wrap16_id (i : Z) : -32768 <= i <= 32767 -> wrap16 i = i.
Proof.
  intros Hi. unfold wrap16. cbv zeta.
  destruct (32768 <=? i mod 65536) eqn:E;
    [apply Z.leb_le in E | apply Z.leb_gt in E];
    Z.div_mod_to_equations; lia.
Qed.

Lemma wrap16_range (i : Z) : -32768 <= wrap16 i <= 32767.
Proof.
  unfold wrap16. cbv zeta.
  destruct (32768 <=? i mod 65536) eqn:E;
    [apply Z.leb_le in E | apply Z.leb_gt in E];
    Z.div_mod_to_equations; lia.
Qed.

Lemma truncate_range (y : Q) :
  (-32768 <= y)%Q -> (y <= 32767)%Q -> -32768 <= truncate y <= 32767.
Proof.
  intros Hlo Hhi.
  destruct (Qlt_le_dec y 0) as [Hneg | Hpos].
  - destruct (truncate_nonpos y) as [H1 H2]; [lra |].
    assert (Ha : (inject_Z (-32768) <= inject_Z (truncate y))%Q)
      by (change (inject_Z (-32768)) with (-32768)%Q; lra).
    assert (Hb : (inject_Z (truncate y) < inject_Z 1)%Q)
      by (change (inject_Z 1) with 1%Q; lra).
    rewrite <- Zle_Qle in Ha. rewrite <- Zlt_Qlt in Hb. lia.
  - destruct (truncate_nonneg y Hpos) as [H1 H2].
    assert (Ha : (inject_Z (truncate y) <= inject_Z 32767)%Q)
      by (change (inject_Z 32767) with 32767%Q; lra).
    assert (Hb : (inject_Z (-1) < inject_Z (truncate y))%Q)
      by (change (inject_Z (-1)) with (-1)%Q; lra).
    rewrite <- Zle_Qle in Ha. rewrite <- Zlt_Qlt in Hb. lia.
Qed.

(** ** Clamping and scaling of one sample *)

Lemma clamp_finite (q : Q) :
  exists s, clamp (Fin q) = Fin s /\ (-1 <= s)%Q /\ (s <= 1)%Q
            /\ ((-1 <= q)%Q -> (q <= 1)%Q -> (s == q)%Q).
Proof.
  unfold clamp, Math_min, Math_max, lt.
  destruct (Qlt_le_dec q 1) as [H1 | H1]; simpl;
    [destruct (Qlt_le_dec (-1) q) as [H2 | H2] |
     destruct (Qlt_le_dec (-1) 1) as [H2 | H2]];
    eexists; (split; [reflexivity |]); repeat split; intros; lra.
Qed.

Lemma scale_finite (s : Q) :
  (-1 <= s)%Q -> (s <= 1)%Q ->
  exists y, scale (Fin s) = Fin y /\ (-32768 <= y)%Q /\ (y <= 32767)%Q
            /\ ((s < 0)%Q -> (y == s * 32768)%Q)
            /\ ((0 <= s)%Q -> (y == s * 32767)%Q).
Proof.
  intros Hlo Hhi. unfold scale, lt, mul.
  destruct (Qlt_le_dec s 0) as [H | H];
    eexists; (split; [reflexivity |]); repeat split; intros; lra.
Qed.

(** The value stored for a sample is in range and was not wrapped. *)
Lemma sample_to_int16_finite (q : Q) :
  exists y, scale (clamp (Fin q)) = Fin y /\ (-32768 <= y)%Q /\ (y <= 32767)%Q
            /\ sample_to_int16 (Fin q) = truncate y.
Proof.
  destruct (clamp_finite q) as (s & Hs & Hlo & Hhi & _).
  destruct (scale_finite s Hlo Hhi) as (y & Hy & Hylo & Hyhi & _).
  exists y. unfold sample_to_int16. rewrite Hs, Hy. repeat split; try assumption.
  simpl. apply wrap16_id. now apply truncate_range.
Qed.

Lemma sample_roundtrip (q : Q) :
  (-1 <= q)%Q -> (q <= 1)%Q ->
  (Qabs (decode_sample (sample_to_int16 (Fin q)) - q) < 2 # 32768)%Q
  /\ ((q <= 0)%Q ->
      (Qabs (decode_sample (sample_to_int16 (Fin q)) - q) < 1 # 32768)%Q).
Proof.
  intros Hlo Hhi.
  destruct (clamp_finite q) as (s & Hs & Hslo & Hshi & Hsq).
  specialize (Hsq Hlo Hhi).
  destruct (scale_finite s Hslo Hshi) as (y & Hy & Hylo & Hyhi & Hneg & Hpos).
  assert (Hv : sample_to_int16 (Fin q) = truncate y).
  { unfold sample_to_int16. rewrite Hs, Hy. simpl.
    apply wrap16_id. now apply truncate_range. }
  rewrite Hv. unfold decode_sample.
  set (t := inject_Z (truncate y)).
  assert (Hdiv : (t / 32768 == t * (1 # 32768))%Q) by (unfold Qdiv; reflexivity).
  destruct (Qlt_le_dec s 0) as [Hs0 | Hs0].
  - specialize (Hneg Hs0).
    destruct (truncate_nonpos y) as [H1 H2]; [lra |]. fold t in H1, H2.
    clearbody t.
    split; [| intros _]; apply Qabs_Qlt_condition; rewrite Hdiv; split; lra.
  - specialize (Hpos Hs0).
    destruct (truncate_nonneg y) as [H1 H2]; [lra |]. fold t in H1, H2.
    clearbody t.
    split; [| intros Hq0]; apply Qabs_Qlt_condition; rewrite Hdiv; split; lra.
Qed.

(** ** Bytes, sextets and the base64 alphabet *)

Lemma list_ind3 {A : Type} (P : list A -> Prop) :
  P [] -> (forall a, P [a]) -> (forall a b, P [a; b]) ->
  (forall a b c l, P l -> P (a :: b :: c :: l)) ->
  forall l, P l.
Proof.
  intros H0 H1 H2 H3. fix IH 1.
  intros [| a [| b [| c l]]];
    [apply H0 | apply H1 | apply H2 | apply H3, IH].
Qed.

Ltac cases_Z :=
  repeat match goal with
    | |- context [?a <=? ?b] => destruct (Z.leb_spec a b)
    | |- context [?a <? ?b] => destruct (Z.ltb_spec a b)
    | |- context [?a =? ?b] => destruct (Z.eqb_spec a b)
    end.

Lemma b64_value_char (i : Z) : is_sextet i -> b64_value (b64_char i) = Some i.
Proof.
  unfold is_sextet, b64_char, b64_value. intros Hi.
  cases_Z; simpl; try lia; f_equal; lia.
Qed.

Lemma b64_char_plain (i : Z) :
  is_sextet i -> is_ascii_whitespace (b64_char i) = false /\ b64_char i <> pad.
Proof.
  unfold is_sextet, b64_char, is_ascii_whitespace, pad. intros Hi.
  cases_Z; simpl; split; try reflexivity; lia.
Qed.

Lemma sextets_range (l : list Z) :
  Forall is_byte l -> Forall is_sextet (sextets l).
Proof.
  unfold is_byte, is_sextet.
  induction l as [| a | a b | a b c l IH] using list_ind3; intros H; simpl.
  - constructor.
  - inversion_clear H as [| ? ? Ha _].
    repeat constructor; Z.div_mod_to_equations; lia.
  - inversion_clear H as [| ? ? Ha H']. inversion_clear H' as [| ? ? Hb _].
    repeat constructor; Z.div_mod_to_equations; lia.
  - inversion_clear H as [| ? ? Ha H']. inversion_clear H' as [| ? ? Hb H''].
    inversion_clear H'' as [| ? ? Hc Hl].
    repeat (constructor; [Z.div_mod_to_equations; lia |]). now apply IH.
Qed.

Lemma unsextets_sextets (l : list Z) :
  Forall is_byte l -> unsextets (sextets l) = l.
Proof.
  unfold is_byte.
  induction l as [| a | a b | a b c l IH] using list_ind3; intros H.
  - reflexivity.
  - inversion_clear H as [| ? ? Ha _]. simpl.
    f_equal. Z.div_mod_to_equations; lia.
  - inversion_clear H as [| ? ? Ha H']. inversion_clear H' as [| ? ? Hb _].
    simpl. repeat f_equal; Z.div_mod_to_equations; lia.
  - inversion_clear H as [| ? ? Ha H']. inversion_clear H' as [| ? ? Hb H''].
    inversion_clear H'' as [| ? ? Hc Hl].
    cbn [sextets unsextets]. rewrite (IH Hl).
    repeat f_equal; Z.div_mod_to_equations; lia.
Qed.

Lemma b64_values_chars (s : list Z) :
  Forall is_sextet s -> b64_values (map b64_char s) = Some s.
Proof.
  induction 1 as [| x s Hx _ IH]; simpl; [reflexivity |].
  now rewrite (b64_value_char x Hx), IH.
Qed.

Lemma filter_whitespace_chars (s : list Z) (tail : list Z) :
  Forall is_sextet s -> Forall (fun c => c = pad) tail ->
  List.filter (fun c => negb (is_ascii_whitespace c)) (map b64_char s ++ tail)
  = map b64_char s ++ tail.
Proof.
  intros Hs Ht. induction Hs as [| x s Hx _ IH]; simpl.
  - induction Ht as [| c tail Hc _ IH]; simpl; [reflexivity |].
    subst c. simpl. now rewrite IH.
  - destruct (b64_char_plain x Hx) as [-> _]. simpl. now rewrite IH.
Qed.

(** Shape of the output of [btoa]: [4k + r] characters and the padding
    that completes the last group. *)
Lemma sextets_shape (l : list Z) :
  exists k r : nat,
    length (sextets l) = (4 * k + r)%nat /\
    ((r = 0%nat /\ padding (length l) = [])
     \/ (r = 2%nat /\ padding (length l) = [pad; pad])
     \/ (r = 3%nat /\ padding (length l) = [pad])).
Proof.
  induction l as [| a | a b | a b c l IH] using list_ind3.
  - exists 0%nat, 0%nat. split; [reflexivity | left; split; reflexivity].
  - exists 0%nat, 2%nat. split; [reflexivity | right; left; split; reflexivity].
  - exists 0%nat, 3%nat. split; [reflexivity | right; right; split; reflexivity].
  - destruct IH as (k & r & Hlen & Hpad).
    exists (S k), r. split; [simpl; lia |].
    assert (Hp : padding (length (a :: b :: c :: l)) = padding (length l)).
    { unfold padding. simpl length.
      replace (S (S (S (length l)))) with (length l + 1 * 3)%nat by lia.
      now rewrite Nat.Div0.mod_add. }
    now rewrite Hp.
Qed.

Lemma strip_padding_chars (s : list Z) (tail : list Z) :
  Forall is_sextet s -> tail = [] \/ tail = [pad] \/ tail = [pad; pad] ->
  strip_padding (map b64_char s ++ tail) = map b64_char s.
Proof.
  intros Hs Ht. unfold strip_padding. rewrite rev_app_distr.
  assert (Hplain : strip_padding_rev (rev (map b64_char s)) = rev (map b64_char s)
                   /\ strip_padding_rev (pad :: rev (map b64_char s))
                      = rev (map b64_char s)).
  { assert (Hne : Forall (fun c => c <> pad) (rev (map b64_char s))).
    { apply List.Forall_forall. intros c Hc. apply in_rev in Hc.
      apply in_map_iff in Hc. destruct Hc as (x & <- & Hx).
      rewrite List.Forall_forall in Hs. apply b64_char_plain, Hs, Hx. }
    destruct (rev (map b64_char s)) as [| c1 r]; [split; reflexivity |].
    inversion_clear Hne as [| ? ? Hc1 Hr].
    assert (E : (c1 =? pad) = false) by now apply Z.eqb_neq.
    split.
    - destruct r; simpl; now rewrite E.
    - simpl. now rewrite E. }
  destruct Hplain as [H0 H1].
  destruct Ht as [-> | [-> | ->]]; cbn [rev app].
  - rewrite H0. apply rev_involutive.
  - rewrite H1. apply rev_involutive.
  - cbn [strip_padding_rev]. rewrite Z.eqb_refl. apply rev_involutive.
Qed.

Lemma b64_value_range (c v : Z) : b64_value c = Some v -> is_sextet v.
Proof.
  unfold b64_value, is_sextet.
  repeat match goal with
    | |- context [if ?b then _ else _] => destruct b eqn:?
    end; intros H; try discriminate; injection H as <-;
    repeat match goal with
      | E : (_ && _) = true |- _ => apply andb_true_iff in E; destruct E
      | E : (_ <=? _) = true |- _ => apply Z.leb_le in E
      | E : (_ =? _) = true |- _ => apply Z.eqb_eq in E
      end; lia.
Qed.

Lemma b64_values_range (data s : list Z) :
  b64_values data = Some s -> Forall is_sextet s.
Proof.
  revert s. induction data as [| c data IH]; intros s H; simpl in H.
  - injection H as <-. constructor.
  - destruct (b64_value c) as [v |] eqn:Hv; [| discriminate].
    destruct (b64_values data) as [vs |]; [| discriminate].
    injection H as <-. constructor; [exact (b64_value_range c v Hv) | now apply IH].
Qed.

Lemma unsextets_range (s : list Z) : Forall is_sextet s -> Forall is_byte (unsextets s).
Proof.
  unfold is_sextet, is_byte. revert s. fix IH 1.
  intros [| a [| b [| c [| d rest]]]] H; cbn [unsextets].
  - constructor.
  - constructor.
  - inversion_clear H as [| ? ? Ha H']. inversion_clear H' as [| ? ? Hb _].
    repeat constructor; Z.div_mod_to_equations; lia.
  - inversion_clear H as [| ? ? Ha H']. inversion_clear H' as [| ? ? Hb H''].
    inversion_clear H'' as [| ? ? Hc _].
    repeat constructor; Z.div_mod_to_equations; lia.
  - inversion_clear H as [| ? ? Ha H']. inversion_clear H' as [| ? ? Hb H''].
    inversion_clear H'' as [| ? ? Hc H3]. inversion_clear H3 as [| ? ? Hd Hrest].
    repeat (constructor; [Z.div_mod_to_equations; lia |]). now apply IH.
Qed.

(** What [atob] returns is a binary string. *)
Lemma atob_bytes (data bytes : list Z) : atob data = Ok bytes -> Forall is_byte bytes.
Proof.
  unfold atob. cbv zeta.
  destruct (_ =? 1); [discriminate |].
  destruct (b64_values _) as [s |] eqn:Hs; [| discriminate].
  intros H. injection H as <-. eapply unsextets_range, b64_values_range, Hs.
Qed.

Lemma ToUint8_bytes (bytes : list Z) : Forall is_byte bytes -> map ToUint8 bytes = bytes.
Proof.
  induction 1 as [| b bytes Hb _ IH]; simpl; [reflexivity |].
  rewrite IH. f_equal. unfold ToUint8, is_byte in *. apply Z.mod_small. lia.
Qed.

(** [atob] undoes [btoa] on every binary string. *)
Lemma atob_btoa (bytes : list Z) :
  Forall is_byte bytes ->
  exists b64, btoa bytes = Ok b64 /\ atob b64 = Ok bytes.
Proof.
  intros Hb. unfold btoa.
  assert (Hall : forallb (fun c => (0 <=? c) && (c <=? 255)) bytes = true).
  { apply forallb_forall. intros c Hc. rewrite List.Forall_forall in Hb.
    specialize (Hb c Hc). unfold is_byte in Hb.
    apply andb_true_iff. split; apply Z.leb_le; lia. }
  rewrite Hall. eexists. split; [reflexivity |].
  pose proof (sextets_range bytes Hb) as Hs.
  destruct (sextets_shape bytes) as (k & r & Hlen & Hpad).
  assert (Htail : Forall (fun c => c = pad) (padding (length bytes))
                  /\ (padding (length bytes) = [] \/ padding (length bytes) = [pad]
                      \/ padding (length bytes) = [pad; pad])
                  /\ Z.of_nat (length (map b64_char (sextets bytes)
                                      ++ padding (length bytes))) mod 4 = 0
                  /\ Z.of_nat (length (map b64_char (sextets bytes))) mod 4 <> 1).
  { rewrite length_app, length_map, Hlen.
    destruct Hpad as [[-> ->] | [[-> ->] | [-> ->]]]; simpl length;
      (split; [repeat constructor |]); (split; [tauto |]);
      split; Z.div_mod_to_equations; lia. }
  destruct Htail as (Hpads & Hcases & Hmod & Hne1).
  unfold atob. cbv zeta.
  rewrite (filter_whitespace_chars _ _ Hs Hpads).
  rewrite Hmod. simpl (0 =? 0).  cbv iota.
  rewrite (strip_padding_chars _ _ Hs Hcases).
  destruct (Z.eqb_spec (Z.of_nat (length (map b64_char (sextets bytes))) mod 4) 1)
    as [E | _]; [contradiction |].
  rewrite (b64_values_chars _ Hs). now rewrite (unsextets_sextets _ Hb).
Qed.

(** ** The typed-array views *)

Lemma int16_bytes_range (v : Z) : Forall is_byte (int16_bytes v).
Proof.
  unfold int16_bytes, is_byte. cbv zeta.
  repeat constructor; Z.div_mod_to_equations; lia.
Qed.

Lemma Int16Array_buffer_range (a : list Z) : Forall is_byte (Int16Array_buffer a).
Proof.
  unfold Int16Array_buffer. induction a as [| v a IH]; cbn [flat_map].
  - constructor.
  - apply Forall_app. split; [apply int16_bytes_range | exact IH].
Qed.

Lemma Int16Array_buffer_length (a : list Z) :
  length (Int16Array_buffer a) = (2 * length a)%nat.
Proof.
  unfold Int16Array_buffer. induction a as [| v a IH]; simpl; [reflexivity |].
  rewrite IH. lia.
Qed.

Lemma int16_view_buffer (a : list Z) :
  Forall is_int16 a -> int16_view (Int16Array_buffer a) = a.
Proof.
  unfold Int16Array_buffer. induction 1 as [| v a Hv _ IH]; simpl; [reflexivity |].
  rewrite IH. f_equal.
  unfold int16_of_bytes, wrap16, is_int16 in *.
  replace (v mod 65536 mod 256 + 256 * (v mod 65536 / 256)) with (v mod 65536)
    by (Z.div_mod_to_equations; lia).
  cbv zeta. rewrite Z.mod_mod by lia.
  destruct (Z.leb_spec 32768 (v mod 65536)); Z.div_mod_to_equations; lia.
Qed.

Lemma new_Int16Array_buffer (a : list Z) :
  Forall is_int16 a -> new_Int16Array (Int16Array_buffer a) = Ok a.
Proof.
  intros Ha. unfold new_Int16Array.
  rewrite Int16Array_buffer_length, (int16_view_buffer a Ha).
  replace (Z.of_nat (2 * length a) mod 2) with 0
    by (Z.div_mod_to_equations; lia).
  reflexivity.
Qed.

Lemma binary_string_of_bytes (bytes acc : list Z) :
  fold_left (fun acc b => acc ++ [b]) bytes acc = acc ++ bytes.
Proof.
  revert acc. induction bytes as [| b bytes IH]; intros acc; simpl.
  - now rewrite app_nil_r.
  - rewrite IH, <- app_assoc. reflexivity.
Qed.

Lemma sample_to_int16_range (x : number) : is_int16 (sample_to_int16 x).
Proof.
  unfold is_int16, sample_to_int16, ToInt16.
  destruct (scale (clamp x)); try lia. apply wrap16_range.
Qed.

Lemma int16_of_samples_range (data : list number) :
  Forall is_int16 (int16_of_samples data).
Proof.
  unfold int16_of_samples. apply List.Forall_forall. intros v Hv.
  apply in_map_iff in Hv. destruct Hv as (x & <- & _).
  apply sample_to_int16_range.
Qed.

(** ** The loop that fills the channel *)

Lemma fill_channel_prefix (f : Z -> number) (int16 : list Z) (z : number) (k : nat) :
  (k <= length int16)%nat ->
  fold_left (fun ch i => <[ i := f (nth i int16 0) ]> ch) (seq 0 k)
            (repeat z (length int16))
  = map f (firstn k int16) ++ repeat z (length int16 - k).
Proof.
  induction k as [| k IH]; intros Hk.
  - simpl. now rewrite Nat.sub_0_r.
  - rewrite seq_S, fold_left_app, IH by lia. cbn [fold_left Nat.add].
    assert (Hlen : length (map f (firstn k int16)) = k).
    { rewrite length_map, length_firstn. lia. }
    rewrite insert_app_r_alt by lia.
    rewrite Hlen, Nat.sub_diag.
    replace (length int16 - k)%nat with (S (length int16 - S k)) by lia.
    cbn [repeat]. change (<[0%nat:=?x]> (?y :: ?r)) with (x :: r).
    destruct (lookup_lt_is_Some_2 int16 k ltac:(lia)) as [v Hv].
    rewrite (nth_lookup_Some _ _ 0 _ Hv), (take_S_r _ _ _ Hv).
    rewrite map_app, <- app_assoc. reflexivity.
Qed.

Lemma fill_channel_created (int16 : list Z) (rate : Q) :
  fill_channel int16 (mkAudioBuffer rate (repeat (Fin 0) (length int16)))
  = mkAudioBuffer rate (map (fun v => Fin (decode_sample v)) int16).
Proof.
  unfold fill_channel. cbn [channelData sampleRate]. f_equal.
  rewrite (fill_channel_prefix (fun v => div_by (Fin (inject_Z v)) 32768)
             int16 (Fin 0) (length int16)) by lia.
  rewrite firstn_all, Nat.sub_diag, app_nil_r. reflexivity.
Qed.

(** The whole decoder on the output of the encoder. *)
Lemma decode_encode (data : list number) (ctx : AudioContext) (rate : Q) :
  exists b64,
    float32ToBase64 data = Ok b64 /\
    base64ToAudioBuffer b64 ctx rate =
      (buffer <- createBuffer ctx (length data) rate ;;
       Ok (mkAudioBuffer rate
             (map (fun v => Fin (decode_sample v)) (int16_of_samples data)))).
Proof.
  unfold float32ToBase64. cbv zeta.
  rewrite binary_string_of_bytes. simpl app.
  destruct (atob_btoa _ (Int16Array_buffer_range (int16_of_samples data)))
    as (b64 & Henc & Hdec).
  exists b64. split; [exact Henc |].
  unfold base64ToAudioBuffer. rewrite Hdec. simpl bind.
  rewrite (ToUint8_bytes _ (Int16Array_buffer_range _)).
  rewrite (new_Int16Array_buffer _ (int16_of_samples_range data)). simpl bind.
  replace (length (int16_of_samples data)) with (length data)
    by (unfold int16_of_samples; now rewrite length_map).
  unfold createBuffer.
  destruct ((0 <? Z.of_nat (length data)) && rate_supported ctx rate); simpl;
    [| reflexivity].
  f_equal.
  replace (length data) with (length (int16_of_samples data))
    by (unfold int16_of_samples; now rewrite length_map).
  apply fill_channel_created.
Qed.

Lemma int16_view_length (bytes : list Z) :
  Z.of_nat (length bytes) mod 2 = 0 ->
  (2 * length (int16_view bytes))%nat = length bytes.
Proof.
  revert bytes. fix IH 1. intros [| lo [| hi rest]] H.
  - reflexivity.
  - simpl in H. discriminate H.
  - cbn [int16_view length]. rewrite <- (IH rest); [lia |].
    cbn [length] in H. Z.div_mod_to_equations; lia.
Qed.

End CodecFacts.

Module CodecSpec.
Import Js AudioUtils CodecFacts Examples.

(** C1 (as amended): for every non-empty sequence of samples in [-1,1],
    decoding the encoding yields a buffer of the same length in which every
    sample differs from the original by less than 2/32768, and by less than
    1/32768 when the original is zero or negative. *)
Theorem codec_roundtrip (data : list number) (ctx : AudioContext) (rate : Q) :
  data <> [] ->
  rate_supported ctx rate = true ->
  Forall unit_sample data ->
  exists b64 buffer,
    float32ToBase64 data = Ok b64 /\
    base64ToAudioBuffer b64 ctx rate = Ok buffer /\
    length (channelData buffer) = length data /\
    Forall2 recovers data (channelData buffer).
Proof.
  intros Hne Hrate Hdata.
  destruct (decode_encode data ctx rate) as (b64 & Henc & Hdec).
  exists b64. eexists. split; [exact Henc |].
  rewrite Hdec. unfold createBuffer. rewrite Hrate.
  assert (Hpos : (0 <? Z.of_nat (length data)) = true).
  { apply Z.ltb_lt. destruct data; [contradiction | simpl; lia]. }
  rewrite Hpos. cbn [andb bind]. split; [reflexivity |].
  cbn [channelData]. unfold int16_of_samples. split.
  - now rewrite !length_map.
  - clear Hne Hpos Henc Hdec. induction Hdata as [| x data Hx _ IH]; simpl.
    + constructor.
    + constructor; [| exact IH].
      destruct Hx as (q & -> & Hlo & Hhi).
      destruct (sample_roundtrip q Hlo Hhi) as [H2 H1].
      exists q, (decode_sample (sample_to_int16 (Fin q))). auto.
Qed.

Lemma codec_roundtrip_witness :
  exists b64 buffer,
    float32ToBase64 [Fin 1; Fin (-1 # 2)] = Ok b64 /\
    base64ToAudioBuffer b64 ctx24k 24000 = Ok buffer /\
    length (channelData buffer) = 2%nat /\
    Forall2 recovers [Fin 1; Fin (-1 # 2)] (channelData buffer).
Proof.
  apply (codec_roundtrip [Fin 1; Fin (-1 # 2)] ctx24k 24000).
  - discriminate.
  - reflexivity.
  - repeat constructor; eexists; (split; [reflexivity |]); split;
      unfold Qle; simpl; lia.
Defined.

(** C1 as stated fails: the sample 65535/65536 comes back as 32766/32768,
    3/65536 away from it, more than 1/32768; and the empty sequence does not
    decode at all, [createBuffer] refusing a buffer of no frames. *)
Lemma codec_roundtrip_exceeds_one_step :
  (exists b64,
     float32ToBase64 [Fin (65535 # 65536)] = Ok b64 /\
     base64ToAudioBuffer b64 ctx24k 24000
       = Ok (mkAudioBuffer 24000 [Fin (32766 # 32768)]) /\
     ~ (Qabs ((32766 # 32768) - (65535 # 65536)) <= 1 # 32768)%Q)
  /\ (exists b64,
        float32ToBase64 [] = Ok b64 /\
        base64ToAudioBuffer b64 ctx24k 24000 = Throw NotSupportedError).
Proof.
  split.
  - eexists. split; [vm_compute; reflexivity |]. split; [vm_compute; reflexivity |].
    intros H. vm_compute in H. apply H. reflexivity.
  - exists []. split; vm_compute; reflexivity.
Qed.


(** C4 as stated fails: a base64 text of one byte makes the decoder raise
    the [RangeError] of the [Int16Array] constructor, and a text that is not
    base64 makes it raise the [InvalidCharacterError] of [atob]. *)
Lemma decode_raises_on_odd_length :
  base64ToAudioBuffer (code_units "AA==") ctx24k 24000 = Throw RangeError
  /\ atob (code_units "AA==") = Ok [0]
  /\ base64ToAudioBuffer (code_units "AAAA") ctx24k 24000 = Throw RangeError
  /\ base64ToAudioBuffer (code_units "A") ctx24k 24000
     = Throw InvalidCharacterError.
Proof. repeat split; vm_compute; reflexivity. Qed.

(** C4 (as amended): the decoder returns a buffer exactly on a base64 text
    of a positive, even number of bytes (at a supported sample rate), one
    frame for every two bytes, each frame the little-endian signed 16-bit
    value divided by 32768; on every other input it raises: what [atob]
    raises on text that is not base64, a [RangeError] on an odd number of
    bytes, a [NotSupportedError] on no bytes or an unsupported rate. *)
Theorem base64ToAudioBuffer_outcome
    (base64 : jsstring) (ctx : AudioContext) (rate : Q) :
  match atob base64 with
  | Throw e => base64ToAudioBuffer base64 ctx rate = Throw e
  | Ok bytes =>
      if negb (Z.of_nat (length bytes) mod 2 =? 0)
      then base64ToAudioBuffer base64 ctx rate = Throw RangeError
      else if (length bytes =? 0)%nat || negb (rate_supported ctx rate)
      then base64ToAudioBuffer base64 ctx rate = Throw NotSupportedError
      else base64ToAudioBuffer base64 ctx rate
           = Ok (mkAudioBuffer rate
                   (map (fun v => Fin (decode_sample v)) (int16_view bytes)))
           /\ (2 * length (int16_view bytes))%nat = length bytes
  end.
Proof.
  unfold base64ToAudioBuffer.
  destruct (atob base64) as [bytes | e] eqn:Hatob; simpl bind; [| reflexivity].
  rewrite (ToUint8_bytes bytes (atob_bytes base64 bytes Hatob)).
  unfold new_Int16Array.
  destruct (Z.eqb_spec (Z.of_nat (length bytes) mod 2) 0) as [Heven | Hodd];
    simpl negb; cbv iota; [| reflexivity].
  simpl bind. pose proof (int16_view_length bytes Heven) as Hlen.
  unfold createBuffer.
  destruct (Nat.eqb_spec (length bytes) 0) as [H0 | H0].
  - assert (E : length (int16_view bytes) = 0%nat) by lia.
    rewrite E. reflexivity.
  - assert (Hpos : (0 <? Z.of_nat (length (int16_view bytes))) = true)
      by (apply Z.ltb_lt; lia).
    rewrite Hpos. destruct (rate_supported ctx rate); simpl; [| reflexivity].
    split; [| exact Hlen]. f_equal. apply fill_channel_created.
Qed.

End CodecSpec.

(* ===================================================================== *)
(** * Part XI: the live playback scheduler and the handlers              *)
(* ===================================================================== *)

Module SchedulerFacts.
Import Js AudioUtils Chat.

Lemma ended_later (now later : Q) (n : SourceNode) :
  (now <= later)%Q -> ended now n = true -> ended later n = true.
Proof.
  intros Hle. unfold ended. destruct (stoppedAt n); [reflexivity |].
  destruct (Qlt_le_dec now _), (Qlt_le_dec later _); intros H;
    try reflexivity; try discriminate; lra.
Qed.

Lemma stop_stopped (now : Q) (n : SourceNode) : is_Some (stoppedAt (stop now n)).
Proof. unfold stop. destruct (stoppedAt n) eqn:E; [rewrite E | simpl]; eauto. Qed.

Lemma stopAudioOutput_sources (s : State) (ctx : AudioContext) :
  outputAudioContextRef s = Some ctx ->
  sources (stopAudioOutput s)
  = imap (fun i n => if bool_decide (i ∈ activeSourcesRef s)
                     then stop (currentTime ctx) n else n) (sources s).
Proof.
  intros H. unfold stopAudioOutput. rewrite H. simpl. rewrite H.
  destruct (mountedRef _); reflexivity.
Qed.

Lemma stopAudioOutput_scheduler (s : State) (ctx : AudioContext) :
  outputAudioContextRef s = Some ctx ->
  outputAudioContextRef (stopAudioOutput s) = Some ctx
  /\ activeSourcesRef (stopAudioOutput s) = ∅
  /\ nextStartTimeRef (stopAudioOutput s) = currentTime ctx.
Proof.
  intros H. unfold stopAudioOutput. rewrite H. simpl. rewrite H.
  destruct (mountedRef _); simpl; auto.
Qed.

Lemma playAudioResponse_scheduler (b : AudioBuffer) (s : State) (ctx : AudioContext) :
  outputAudioContextRef s = Some ctx ->
  exists start,
    sources (playAudioResponse b s) = sources s ++ [mkSource b start None]
    /\ (start = currentTime ctx \/ start = nextStartTimeRef s)
    /\ (currentTime ctx <= start)%Q
    /\ nextStartTimeRef (playAudioResponse b s) = (start + duration b)%Q
    /\ activeSourcesRef (playAudioResponse b s)
       = {[ length (sources s) ]} ∪ activeSourcesRef s
    /\ outputAudioContextRef (playAudioResponse b s) = Some ctx.
Proof.
  intros H. unfold playAudioResponse. rewrite H. cbv zeta.
  eexists. split; [reflexivity |]. simpl.
  repeat split; try assumption; try reflexivity.
  - destruct (Qlt_le_dec _ _); [now left |].
    destruct (_ && _); [now left | now right].
  - destruct (Qlt_le_dec _ _) as [Hlt | Hle]; [lra |].
    destruct (_ && _); [lra | exact Hle].
Qed.

Lemma scheduler_step (e : event) (s : State) :
  scheduler_invariant s -> enabled e s = true -> scheduler_invariant (step e s).
Proof.
  intros (ctx & Hctx & Hsrc) Hen. destruct e as [d | b | | src]; simpl in *.
  - (* AudioTick *)
    unfold audio_tick. rewrite Hctx. eexists. split; [reflexivity |].
    simpl. destruct (Qlt_le_dec d 0) as [? | Hd]; [discriminate |].
    intros i n Hi. destruct (Hsrc i n Hi) as [Hstop Hend]. split.
    + destruct (stoppedAt n); [lra | exact I].
    + intros Hni. apply (ended_later (currentTime ctx)); [lra | auto].
  - (* Enqueue *)
    destruct (playAudioResponse_scheduler b s ctx Hctx)
      as (start & Hs & _ & _ & _ & Hact & Hctx').
    exists ctx. split; [exact Hctx' |]. rewrite Hs, Hact.
    intros i n Hi. apply lookup_app_Some in Hi.
    destruct Hi as [Hi | [Hlen Hi]].
    + destruct (Hsrc i n Hi) as [Hstop Hend]. split; [exact Hstop |].
      intros Hni. apply Hend. intros Hin. apply Hni, elem_of_union. now right.
    + destruct (i - length (sources s))%nat eqn:E; [| discriminate].
      simpl in Hi. injection Hi as <-. simpl. split; [exact I |].
      intros Hni. exfalso. apply Hni, elem_of_union. left.
      apply elem_of_singleton. lia.
  - (* Interrupt *)
    destruct (stopAudioOutput_scheduler s ctx Hctx) as (Hctx' & Hact & _).
    exists ctx. split; [exact Hctx' |].
    rewrite (stopAudioOutput_sources s ctx Hctx), Hact.
    intros i n' Hi. rewrite list_lookup_imap in Hi.
    destruct (sources s !! i) as [n |] eqn:En; [| discriminate].
    simpl in Hi. injection Hi as <-.
    destruct (Hsrc i n En) as [Hstop Hend].
    destruct (bool_decide (i ∈ activeSourcesRef s)) eqn:Hin.
    + unfold stop, ended. destruct (stoppedAt n) eqn:Est.
      * rewrite Est. split; [exact Hstop | reflexivity].
      * simpl. split; [lra | reflexivity].
    + apply bool_decide_eq_false in Hin. split; [exact Hstop |].
      intros _. now apply Hend.
  - (* Ended *)
    unfold onended. exists ctx. simpl. split; [exact Hctx |].
    rewrite Hctx in Hen. rename Hen into Hended.
    intros i n Hi. destruct (Hsrc i n Hi) as [Hstop Hend]. split; [exact Hstop |].
    intros Hni. destruct (decide (i = src)) as [-> | Hne].
    + rewrite Hi in Hended. exact Hended.
    + apply Hend. intros Hin. apply Hni, elem_of_difference.
      split; [exact Hin |]. now rewrite elem_of_singleton.
Qed.

Lemma scheduler_run (events : list event) (s s' : State) :
  scheduler_invariant s -> run events s = Some s' -> scheduler_invariant s'.
Proof.
  revert s. induction events as [| e events IH]; intros s Hwf Hrun; simpl in Hrun.
  - now injection Hrun as <-.
  - destruct (enabled e s) eqn:Hen; [| discriminate].
    apply (IH (step e s)); [now apply scheduler_step | exact Hrun].
Qed.

Lemma scheduler_connected (ctx : AudioContext) : scheduler_invariant (connected ctx).
Proof.
  exists ctx. split; [reflexivity |]. intros i n Hi. simpl in Hi.
  rewrite lookup_nil in Hi. discriminate.
Qed.

Lemma scheduler_reachable (s : State) : reachable s -> scheduler_invariant s.
Proof.
  intros (ctx & events & Hrun). exact (scheduler_run events _ s (scheduler_connected ctx) Hrun).
Qed.

(** The invariant reads the context, the sources and the active set. *)
Lemma scheduler_invariant_same (s s' : State) :
  outputAudioContextRef s' = outputAudioContextRef s ->
  sources s' = sources s -> activeSourcesRef s' = activeSourcesRef s ->
  scheduler_invariant s -> scheduler_invariant s'.
Proof.
  intros Hc Hs Ha (ctx & Hctx & H). exists ctx. rewrite Hc, Hs, Ha. auto.
Qed.

(** The handler of live messages keeps the invariant: it touches the
    scheduler through [stopAudioOutput] and [playAudioResponse] only. *)
Lemma scheduler_handleLiveMessage (seen : bool) (m : LiveServerMessage) (s : State) :
  scheduler_invariant s -> scheduler_invariant (fst (handleLiveMessage seen m s)).
Proof.
  intros Hwf. unfold handleLiveMessage.
  destruct (interrupted m).
  - apply (scheduler_invariant_same (step Interrupt s)); try reflexivity.
    now apply scheduler_step.
  - cbv zeta.
    set (s1 := if turnComplete m
               then setTimeout AiSpeakingOff 500 (set_isInterruptedRef false s)
               else s).
    assert (Hwf1 : scheduler_invariant s1).
    { subst s1. destruct (turnComplete m); [| exact Hwf].
      apply (scheduler_invariant_same s); try reflexivity. exact Hwf. }
    destruct (audioData m) as [data |]; [| exact Hwf1].
    destruct (outputAudioContextRef s1) as [ctx |]; [| exact Hwf1].
    destruct (_ && _); [| exact Hwf1].
    set (s2 := if seen then s1 else set_aiSpeaking true s1).
    assert (Hwf2 : scheduler_invariant s2).
    { subst s2. destruct seen; [exact Hwf1 |].
      apply (scheduler_invariant_same s1); try reflexivity. exact Hwf1. }
    destruct (base64ToAudioBuffer data ctx 24000) as [b | e]; [| exact Hwf2].
    exact (scheduler_step (Enqueue b) s2 Hwf2 eq_refl).
Qed.

(** A step leaves every source in place and can only silence it. *)
Lemma step_sources (e : event) (s : State) (i : nat) (n : SourceNode) :
  sources s !! i = Some n ->
  exists n', sources (step e s) !! i = Some n'
    /\ buffer n' = buffer n /\ startAt n' = startAt n
    /\ forall t, audible n' t -> audible n t.
Proof.
  intros Hi.
  assert (Hsame : exists n', sources s !! i = Some n'
            /\ buffer n' = buffer n /\ startAt n' = startAt n
            /\ forall t, audible n' t -> audible n t) by (exists n; auto).
  destruct e as [d | b | | src]; simpl.
  - unfold audio_tick. destruct (outputAudioContextRef s); exact Hsame.
  - unfold playAudioResponse. destruct (outputAudioContextRef s); [| exact Hsame].
    simpl. exists n. rewrite lookup_app_l by (eapply lookup_lt_Some; eauto).
    auto.
  - destruct (outputAudioContextRef s) as [ctx |] eqn:Hctx.
    + rewrite (stopAudioOutput_sources s ctx Hctx), list_lookup_imap, Hi. simpl.
      destruct (bool_decide _); [| exists n; auto].
      exists (stop (currentTime ctx) n). split; [reflexivity |].
      unfold stop. destruct (stoppedAt n) eqn:Est; [auto |]. simpl.
      split; [reflexivity |]. split; [reflexivity |].
      intros t (H1 & H2 & _). unfold audible. rewrite Est. auto.
    + unfold stopAudioOutput. rewrite Hctx. simpl. rewrite Hctx.
      destruct (mountedRef _); exact Hsame.
  - exact Hsame.
Qed.

Lemma run_sources (events : list event) (s s' : State) (i : nat) (n : SourceNode) :
  run events s = Some s' -> sources s !! i = Some n ->
  exists n', sources s' !! i = Some n'
    /\ buffer n' = buffer n /\ startAt n' = startAt n
    /\ forall t, audible n' t -> audible n t.
Proof.
  revert s n. induction events as [| e events IH]; intros s n Hrun Hi; simpl in Hrun.
  - injection Hrun as <-. exists n. auto.
  - destruct (enabled e s); [| discriminate].
    destruct (step_sources e s i n Hi) as (n1 & Hi1 & Hb1 & Hs1 & Ha1).
    destruct (IH _ n1 Hrun Hi1) as (n2 & Hi2 & Hb2 & Hs2 & Ha2).
    exists n2. split; [exact Hi2 |]. split; [congruence |].
    split; [congruence |]. intros t Ht. apply Ha1, Ha2, Ht.
Qed.

Lemma run_not_before (t : Q) (events : list event) (s s' : State) :
  not_before t s -> forallb (fun e => negb (is_enqueue e)) events = true ->
  run events s = Some s' -> not_before t s'.
Proof.
  revert s. induction events as [| e events IH]; intros s Hnb Hall Hrun;
    simpl in Hrun, Hall.
  - now injection Hrun as <-.
  - apply andb_true_iff in Hall. destruct Hall as [He Hall].
    destruct (enabled e s) eqn:Hen; [| discriminate].
    apply (IH (step e s)); [| exact Hall | exact Hrun].
    destruct Hnb as (ctx & Hctx & Hnow & Hnext).
    destruct e as [d | b | | src]; simpl in *; try discriminate.
    + unfold audio_tick. rewrite Hctx. eexists. split; [reflexivity |]. simpl.
      destruct (Qlt_le_dec d 0); [discriminate |]. split; [lra | exact Hnext].
    + destruct (stopAudioOutput_scheduler s ctx Hctx) as (Hctx' & _ & Hnext').
      exists ctx. rewrite Hnext'. auto.
    + exists ctx. auto.
Qed.

End SchedulerFacts.

Module SchedulerSpec.
Import Js AudioUtils Chat SchedulerFacts Examples.







(** C3: an interruption stops and removes every active source and resets
    the next start time to the clock; a source scheduled before it that had
    not yet started is never heard, whatever happens later; and the first
    buffer enqueued after it starts at or after the time of the
    interruption. *)
Theorem interrupt_semantics (s : State) (ctx : AudioContext) :
  scheduler_invariant s ->
  outputAudioContextRef s = Some ctx ->
  let t := currentTime ctx in
  let s1 := stopAudioOutput s in
  activeSourcesRef s1 = ∅
  /\ nextStartTimeRef s1 = t
  /\ (forall i n, sources s !! i = Some n -> i ∈ activeSourcesRef s ->
        exists n', sources s1 !! i = Some n' /\ is_Some (stoppedAt n'))
  /\ (forall events s2 i n,
        run events s1 = Some s2 ->
        sources s !! i = Some n -> (t <= startAt n)%Q ->
        exists n', sources s2 !! i = Some n' /\ buffer n' = buffer n
                   /\ forall time, ~ audible n' time)
  /\ (forall events s2 b,
        forallb (fun e => negb (is_enqueue e)) events = true ->
        run events s1 = Some s2 ->
        exists start,
          sources (playAudioResponse b s2) = sources s2 ++ [mkSource b start None]
          /\ (t <= start)%Q).
Proof.
  intros Hinv Hctx t s1.
  destruct (stopAudioOutput_scheduler s ctx Hctx) as (Hctx1 & Hact1 & Hnext1).
  pose proof (stopAudioOutput_sources s ctx Hctx) as Hsrc1.
  fold s1 in Hctx1, Hact1, Hnext1, Hsrc1. fold t in Hnext1, Hsrc1.
  split; [exact Hact1 |]. split; [exact Hnext1 |]. split; [| split].
  - intros i n Hi Hin. rewrite Hsrc1, list_lookup_imap, Hi. simpl.
    rewrite bool_decide_eq_true_2 by exact Hin.
    eexists. split; [reflexivity | apply stop_stopped].
  - intros events s2 i n Hrun Hi Hlate.
    destruct Hinv as (ctx' & Hctx' & Hwf).
    rewrite Hctx in Hctx'. injection Hctx' as <-.
    destruct (Hwf i n Hi) as [Hstop Hended]. fold t in Hstop, Hended.
    assert (Hi1 : exists n1, sources s1 !! i = Some n1 /\ buffer n1 = buffer n
                  /\ forall time, ~ audible n1 time).
    { rewrite Hsrc1, list_lookup_imap, Hi. simpl.
      destruct (bool_decide (i ∈ activeSourcesRef s)) eqn:Hin.
      - exists (stop t n). split; [reflexivity |].
        unfold stop, audible. destruct (stoppedAt n) eqn:Est.
        + split; [reflexivity |]. rewrite Est. intros time (H1 & _ & H3). lra.
        + simpl. split; [reflexivity |]. intros time (H1 & _ & H3). lra.
      - apply bool_decide_eq_false in Hin. specialize (Hended Hin).
        exists n. split; [reflexivity |]. split; [reflexivity |].
        unfold ended in Hended. unfold audible.
        destruct (stoppedAt n).
        + intros time (H1 & _ & H3). lra.
        + destruct (Qlt_le_dec t (startAt n + duration (buffer n)));
            [discriminate |].
          intros time (H1 & H2 & _). lra. }
    destruct Hi1 as (n1 & Hi1 & Hb1 & Hsilent).
    destruct (run_sources events s1 s2 i n1 Hrun Hi1) as (n2 & Hi2 & Hb2 & _ & Ha2).
    exists n2. split; [exact Hi2 |]. split; [congruence |].
    intros time Haud. exact (Hsilent time (Ha2 time Haud)).
  - intros events s2 b Hall Hrun.
    assert (Hnb : not_before t s1).
    { exists ctx. rewrite Hnext1. repeat split; [exact Hctx1 | | ]; apply Qle_refl. }
    destruct (run_not_before t events s1 s2 Hnb Hall Hrun) as (ctx2 & Hctx2 & Hnow2 & _).
    destruct (playAudioResponse_scheduler b s2 ctx2 Hctx2)
      as (start & Hsrc & _ & Hstart & _).
    exists start. split; [exact Hsrc | lra].
Qed.

Lemma interrupt_semantics_witness :
  activeSourcesRef (stopAudioOutput two_queued) = ∅
  /\ nextStartTimeRef (stopAudioOutput two_queued) = (0 + (1 # 4))%Q
  /\ exists n', sources (stopAudioOutput two_queued) !! 1%nat = Some n'
               /\ buffer n' = half_second
               /\ forall time, ~ audible n' time.
Proof.
  assert (Hinv : scheduler_invariant two_queued).
  { apply scheduler_reachable. exists ctx24k,
      [Enqueue one_second; AudioTick (1 # 4); Enqueue half_second].
    vm_compute. reflexivity. }
  assert (Hctx : outputAudioContextRef two_queued
                 = Some (mkAudioContext (0 + (1 # 4)) 8000 96000))
    by (vm_compute; reflexivity).
  destruct (interrupt_semantics two_queued _ Hinv Hctx) as (H1 & H2 & _ & H4 & _).
  split; [exact H1 |]. split; [exact H2 |].
  apply (H4 [] (stopAudioOutput two_queued) 1%nat
            (mkSource half_second (0 + duration one_second) None)).
  - reflexivity.
  - vm_compute. reflexivity.
  - vm_compute. discriminate.
Defined.

End SchedulerSpec.

Module LiveSpec.
Import Js AudioUtils Chat SchedulerFacts Examples.

(** C5 as stated fails: a turn-complete message clears the interruption
    flag at once, with the clock where it was; the 500 ms timer it starts is
    the one that turns the speaking indicator off, and the audio the same
    message carries is scheduled, not suppressed. *)
Lemma turn_complete_clears_flag_at_once :
  let s := interrupted_state in
  let s' := fst (handleLiveMessage false (mkLiveMessage false true (Some two_frames)) s) in
  isInterruptedRef s = true
  /\ isInterruptedRef s' = false
  /\ clock s' = clock s
  /\ timers s' = [(clock s + 500, AiSpeakingOff)]
  /\ length (sources s') = 1%nat.
Proof. vm_compute. repeat split; reflexivity. Qed.

(** C5 (as amended): a message that carries the turn-complete signal, and
    not the interrupted one, clears the interruption flag at once and starts
    one timer of 500 ms; when that timer fires it sets the speaking
    indicator to false if the component is still mounted, and leaves the
    interruption flag as it finds it. *)
Theorem turn_complete_handling
    (aiSpeaking_seen : bool) (m : LiveServerMessage) (s : State) :
  turnComplete m = true ->
  interrupted m = false ->
  let s' := fst (handleLiveMessage aiSpeaking_seen m s) in
  isInterruptedRef s' = false
  /\ clock s' = clock s
  /\ timers s' = timers s ++ [(clock s + 500, AiSpeakingOff)]
  /\ forall later : State,
       isInterruptedRef (run_timer AiSpeakingOff later) = isInterruptedRef later
       /\ aiSpeaking (run_timer AiSpeakingOff later)
          = (if mountedRef later then false else aiSpeaking later).
Proof.
  intros Htc Hint s'.
  assert (Hplay : forall b st,
            isInterruptedRef (playAudioResponse b st) = isInterruptedRef st
            /\ clock (playAudioResponse b st) = clock st
            /\ timers (playAudioResponse b st) = timers st).
  { intros b st. unfold playAudioResponse.
    destruct (outputAudioContextRef st); simpl; auto. }
  assert (Hs' : isInterruptedRef s' = false /\ clock s' = clock s
                /\ timers s' = timers s ++ [(clock s + 500, AiSpeakingOff)]).
  { subst s'. unfold handleLiveMessage. rewrite Hint, Htc. cbv zeta.
    destruct (audioData m) as [data |]; simpl; [| auto].
    destruct (outputAudioContextRef s) as [ctx |]; simpl; [| auto].
    destruct (negb (length data =? 0)%nat); simpl; [| auto].
    destruct (base64ToAudioBuffer data ctx 24000) as [b | e]; simpl.
    - destruct (Hplay b (if aiSpeaking_seen
                         then setTimeout AiSpeakingOff 500 (set_isInterruptedRef false s)
                         else set_aiSpeaking true
                                (setTimeout AiSpeakingOff 500 (set_isInterruptedRef false s))))
        as (-> & -> & ->).
      destruct aiSpeaking_seen; simpl; auto.
    - destruct aiSpeaking_seen; simpl; auto. }
  destruct Hs' as (H1 & H2 & H3). repeat split; try assumption.
  - simpl. destruct (mountedRef later); reflexivity.
  - simpl. destruct (mountedRef later); reflexivity.
Qed.

Lemma turn_complete_handling_witness :
  isInterruptedRef
    (fst (handleLiveMessage false (mkLiveMessage false true None) interrupted_state))
  = false.
Proof.
  apply (turn_complete_handling false (mkLiveMessage false true None)
           interrupted_state); reflexivity.
Defined.



End LiveSpec.

(* ===================================================================== *)
(** * Part XII: the narration loader                                     *)
(* ===================================================================== *)

Module LoaderFacts.
Import Js Player.

Lemma same_core_refl (s : State) : same_core s s.
Proof. repeat split. Qed.

Lemma same_core_trans (s1 s2 s3 : State) :
  same_core s1 s2 -> same_core s2 s3 -> same_core s1 s3.
Proof.
  unfold same_core. intros H1 H2.
  destruct H1 as (?&?&?&?&?&?&?&?&?&?&?), H2 as (?&?&?&?&?&?&?&?&?&?&?).
  repeat split; congruence.
Qed.

Lemma invariant_same_core (s s' : State) :
  same_core s s' -> invariant s -> invariant s'.
Proof.
  intros (Hc & Hm & Hch & Hctx & Href & Heff & Hcl & Htm & Hnt & Hf & Hp)
         [I1 I2 I3 I4 I5 I6 I7 I8].
  constructor; rewrite ?Hc, ?Hm, ?Hch, ?Hctx, ?Href, ?Heff, ?Hcl, ?Htm, ?Hnt, ?Hf, ?Hp;
    assumption.
Qed.

(** ** The pieces of a step *)

Lemma playBuffer_core (b : AudioBuffer) (s : State) : same_core s (playBuffer b s).
Proof. unfold playBuffer. destruct (audioContextRef s); repeat split. Qed.

Lemma present_core (e : nat) (b : AudioBuffer) (s : State) : same_core s (present e b s).
Proof.
  unfold present. destruct (effects s !! e) as [eff |]; [| apply same_core_refl].
  destruct (active eff); [| apply same_core_refl].
  destruct (playing eff); [| repeat split].
  eapply same_core_trans; [| apply playBuffer_core]. repeat split.
Qed.

Lemma catch_core (e : nat) (s : State) : same_core s (catch e s).
Proof. unfold catch. destruct (is_active e s); repeat split. Qed.

(** [loadAudio] either leaves the core alone or records one more call. *)
Lemma loadAudio_cases (e : nat) (s : State) :
  same_core s (loadAudio e s)
  \/ (exists eff, effects s !! e = Some eff
        /\ is_Some (audioContextRef s)
        /\ audioCache s !! chunk_id (chunk eff) = None
        /\ loadAudio e s
           = set_pending ({[ length (fetches s) ]} ∪ pending s)
               (set_fetches (fetches s ++ [e])
                  (set_isLoading true
                     (set_error None (set_progress 0 (stopPlayback s)))))).
Proof.
  unfold loadAudio.
  destruct (effects s !! e) as [eff |] eqn:He; [| left; apply same_core_refl].
  destruct (audioContextRef s) as [ctx |] eqn:Hctx; [| left; apply same_core_refl].
  cbv zeta. simpl audioCache.
  destruct (audioCache s !! chunk_id (chunk eff)) as [b |] eqn:Hhit.
  - left. eapply same_core_trans; [| apply present_core]. repeat split.
  - right. exists eff. repeat split; eauto.
Qed.

Lemma loadAudio_hit (e : nat) (s : State) (eff : Effect) :
  effects s !! e = Some eff ->
  is_Some (audioCache s !! chunk_id (chunk eff)) ->
  same_core s (loadAudio e s).
Proof.
  intros He [b Hb]. destruct (loadAudio_cases e s) as [H | (eff' & He' & _ & Hmiss & _)];
    [exact H |].
  rewrite He in He'. injection He' as <-. rewrite Hb in Hmiss. discriminate.
Qed.

Lemma run_cleanup_frame (s : State) :
  audioCache (run_cleanup s) = audioCache s
  /\ mounted (run_cleanup s) = mounted s
  /\ currentChunk (run_cleanup s) = currentChunk s
  /\ isPlaying (run_cleanup s) = isPlaying s
  /\ audioContextRef (run_cleanup s) = audioContextRef s
  /\ loadingTimeoutRef (run_cleanup s) = loadingTimeoutRef s
  /\ nextTimer (run_cleanup s) = nextTimer s
  /\ fetches (run_cleanup s) = fetches s
  /\ pending (run_cleanup s) = pending s
  /\ clock (run_cleanup s) = clock s
  /\ error (run_cleanup s) = error s
  /\ isLoading (run_cleanup s) = isLoading s
  /\ length (effects (run_cleanup s)) = length (effects s)
  /\ (forall e eff, effects (run_cleanup s) !! e = Some eff ->
        exists eff0, effects s !! e = Some eff0 /\ chunk eff = chunk eff0
                     /\ playing eff = playing eff0).
Proof.
  unfold run_cleanup. destruct (cleanup s) as [e |].
  2:{ repeat (split; [reflexivity |]). intros e eff H. exists eff. auto. }
  cbv zeta. simpl loadingTimeoutRef.
  assert (Heffs : forall e' eff, alter deactivate e (effects s) !! e' = Some eff ->
            exists eff0, effects s !! e' = Some eff0 /\ chunk eff = chunk eff0
                         /\ playing eff = playing eff0).
  { intros e' eff H. destruct (decide (e = e')) as [<- | Hne].
    - rewrite list_lookup_alter_eq in H.
      destruct (effects s !! e) as [eff0 |]; [| simpl in H; discriminate].
      simpl in H. injection H as <-. exists eff0. auto.
    - rewrite list_lookup_alter_ne in H by exact Hne. exists eff. auto. }
  destruct (loadingTimeoutRef s) eqn:Href; simpl; rewrite ?Href;
    repeat (split; [first [reflexivity | apply length_alter] |]); exact Heffs.
Qed.

Lemma run_cleanup_quiescent (s : State) : invariant s -> quiescent (run_cleanup s).
Proof.
  intros [I1 I2 I3 I4 I5 I6 I7 I8]. unfold run_cleanup.
  destruct (cleanup s) as [e |] eqn:Hcl.
  - cbv zeta. simpl loadingTimeoutRef.
    assert (Hq : forall tm, (forall h d e', tm !! h = Some (d, e') -> False) ->
              quiescent (set_cleanup None
                           (set_timers tm (set_effects (alter deactivate e (effects s)) s)))).
    { intros tm Htm. constructor; simpl.
      - intros e' eff H. destruct (decide (e = e')) as [<- | Hne].
        + rewrite list_lookup_alter_eq in H.
          destruct (effects s !! e); [| simpl in H; discriminate]. simpl in H.
          now injection H as <-.
        + rewrite list_lookup_alter_ne in H by exact Hne.
          destruct (active eff) eqn:Hact; [| reflexivity].
          specialize (I1 e' eff H Hact). congruence.
      - apply map_empty. intros h. destruct (tm !! h) as [[d e'] |] eqn:Hh; [| reflexivity].
        exfalso. eauto.
      - reflexivity.
      - exact I3.
      - intros e' He'. rewrite length_alter. auto.
      - exact I6. }
    destruct (loadingTimeoutRef s) as [h0 |] eqn:Href.
    + unfold clearTimeout. simpl.
      replace (mkState _ _ _ _ _ _ _ _ _ _ _ _ _ _ _ _ _ _)
        with (set_cleanup None
                (set_timers (delete h0 (timers s))
                   (set_effects (alter deactivate e (effects s)) s)))
        by reflexivity.
      apply Hq. intros h d e' H.
      apply lookup_delete_Some in H. destruct H as [Hne H].
      destruct (I2 h d e' H) as (Href' & _). congruence.
    + replace (set_cleanup None (set_effects (alter deactivate e (effects s)) s))
        with (set_cleanup None
                (set_timers (timers s) (set_effects (alter deactivate e (effects s)) s)))
        by reflexivity.
      apply Hq. intros h d e' H. destruct (I2 h d e' H) as (Href' & _). congruence.
  - constructor.
    + intros e eff H. destruct (active eff) eqn:Hact; [| reflexivity].
      specialize (I1 e eff H Hact). congruence.
    + apply map_empty. intros h. destruct (timers s !! h) as [[d e] |] eqn:Hh; [| reflexivity].
      destruct (I2 h d e Hh) as (_ & Hc & _). congruence.
    + exact Hcl.
    + exact I3.
    + exact I5.
    + exact I6.
Qed.

Lemma quiescent_same (s s' : State) :
  effects s' = effects s -> timers s' = timers s -> cleanup s' = cleanup s ->
  fetches s' = fetches s -> pending s' = pending s ->
  quiescent s -> quiescent s'.
Proof.
  intros He Ht Hc Hf Hp [Q1 Q2 Q3 Q4 Q5 Q6].
  constructor; rewrite ?He, ?Ht, ?Hc, ?Hf, ?Hp; assumption.
Qed.

Lemma quiescent_unmounted (s : State) :
  quiescent s -> mounted s = false -> invariant s.
Proof.
  intros [Q1 Q2 Q3 Q4 Q5 Q6] Hm. constructor.
  - intros e eff He Hact. rewrite (Q1 e eff He) in Hact. discriminate.
  - intros h due e H. rewrite Q2, lookup_empty in H. discriminate.
  - exact Q4.
  - intros call e eff _ _ He Hact. rewrite (Q1 e eff He) in Hact. discriminate.
  - exact Q5.
  - exact Q6.
  - intros e He. rewrite Q3 in He. discriminate.
  - intros H. rewrite Hm in H. discriminate.
Qed.

Lemma unmounted_quiescent (s : State) :
  invariant s -> mounted s = false -> quiescent s.
Proof.
  intros [I1 I2 I3 I4 I5 I6 I7 I8] Hm.
  assert (Hcl : cleanup s = None).
  { destruct (cleanup s) as [e |] eqn:Hcl; [| reflexivity].
    destruct (I7 e eq_refl) as [Hm' _]. congruence. }
  constructor; try assumption.
  - intros e eff He. destruct (active eff) eqn:Hact; [| reflexivity].
    specialize (I1 e eff He Hact). congruence.
  - apply map_empty. intros h.
    destruct (timers s !! h) as [[d e] |] eqn:Hh; [| reflexivity].
    destruct (I2 h d e Hh) as (_ & Hc & _). congruence.
Qed.

(** A run of the effect from a quiescent state: the new run is the current
    one, and either it loaded from the cache or its timer is the only one. *)
Lemma run_effect_invariant (s : State) :
  quiescent s -> mounted s = true -> is_Some (audioContextRef s) ->
  invariant (run_effect s).
Proof.
  intros [Q1 Q2 Q3 Q4 Q5 Q6] Hm Hctx.
  set (e := length (effects s)).
  set (new := mkEffect (currentChunk s) (isPlaying s) true).
  set (s1 := set_cleanup (Some e) (set_effects (effects s ++ [new]) s)).
  assert (Hlook : forall e' eff, effects s1 !! e' = Some eff ->
            (effects s !! e' = Some eff /\ active eff = false /\ (e' < e)%nat)
            \/ (e' = e /\ eff = new)).
  { intros e' eff H. simpl in H. apply lookup_app_Some in H.
    destruct H as [H | [Hlen H]].
    - left. split; [exact H |]. split; [exact (Q1 e' eff H) |].
      apply lookup_lt_Some in H. exact H.
    - right. fold e in Hlen, H. destruct (e' - e)%nat eqn:E; [| discriminate].
      simpl in H. injection H as <-. split; [lia | reflexivity]. }
  assert (Hbase : forall ref tm nt,
            (forall h d e', tm !! h = Some (d, e') ->
               ref = Some h /\ e' = e /\ (h < nt)%nat) ->
            invariant (set_loadingTimeoutRef ref
                         (set_nextTimer nt (set_timers tm s1)))).
  { intros ref tm nt Htm. constructor; simpl.
    - intros e' eff H Hact.
      destruct (Hlook e' eff H) as [(_ & Hin & _) | [-> _]];
        [congruence | reflexivity].
    - intros h d e' H. destruct (Htm h d e' H) as (-> & -> & Hlt).
      repeat split; try assumption.
      intros Hin. apply Q5 in Hin. fold e in Hin. lia.
    - exact Q4.
    - intros call e' eff Hcall Hf H Hact.
      destruct (Hlook e' eff H) as [(_ & Hin & _) | [-> _]]; [congruence |].
      apply list_elem_of_lookup_2, Q5 in Hf. fold e in Hf. lia.
    - intros e' Hin. apply Q5 in Hin. rewrite length_app. simpl. lia.
    - exact Q6.
    - intros e' He'. injection He' as <-. split; [exact Hm |].
      exists new. split; [| reflexivity].
      unfold e. apply list_lookup_middle. reflexivity.
    - intros _. split; [exact Hctx | eauto]. }
  unfold run_effect. fold e new s1. cbv zeta.
  destruct (bool_decide (is_Some (audioCache s1 !! chunk_id (currentChunk s1)))) eqn:Hhit.
  - apply bool_decide_eq_true in Hhit.
    assert (He : effects s1 !! e = Some new)
      by (unfold e; apply list_lookup_middle; reflexivity).
    apply (invariant_same_core s1); [exact (loadAudio_hit e s1 new He Hhit) |].
    apply (invariant_same_core
             (set_loadingTimeoutRef (loadingTimeoutRef s)
                (set_nextTimer (nextTimer s) (set_timers ∅ s1)))).
    { repeat split. simpl. now rewrite Q2. }
    apply Hbase. intros h d e' H. rewrite lookup_empty in H. discriminate.
  - assert (Htm : timers (match loadingTimeoutRef s1 with
                          | Some h => clearTimeout h s1
                          | None => s1
                          end) = ∅).
    { simpl. destruct (loadingTimeoutRef s); simpl; rewrite Q2;
        [apply delete_empty | reflexivity]. }
    assert (Hrest : forall h0, clearTimeout h0 s1 = s1).
    { intros h0. unfold clearTimeout.
      replace (delete h0 (timers s1)) with (timers s1)
        by (simpl; rewrite Q2; symmetry; apply delete_empty).
      reflexivity. }
    assert (Hs2 : match loadingTimeoutRef s1 with
                  | Some h => clearTimeout h s1
                  | None => s1
                  end = s1)
      by (destruct (loadingTimeoutRef s1); [apply Hrest | reflexivity]).
    rewrite Hs2.
    apply (invariant_same_core
             (set_loadingTimeoutRef (Some (nextTimer s))
                (set_nextTimer (S (nextTimer s))
                   (set_timers (<[nextTimer s := (clock s + 1000, e)]> ∅) s1)))).
    { repeat split. simpl. now rewrite Q2. }
    apply Hbase. intros h d e' H. apply lookup_insert_Some in H.
    destruct H as [[<- H] | [_ H]]; [| rewrite lookup_empty in H; discriminate].
    injection H as <- <-. repeat split. lia.
Qed.

Lemma boot_invariant : invariant boot.
Proof.
  apply quiescent_unmounted; [| reflexivity].
  constructor; simpl; try reflexivity.
  - intros e eff H. rewrite lookup_nil in H. discriminate.
  - constructor.
  - intros e H. apply elem_of_nil in H. contradiction.
  - intros call H. apply not_elem_of_empty in H. contradiction.
Qed.

Lemma rerun_invariant (s0 s : State) :
  invariant s0 -> mounted s0 = true ->
  effects s = effects s0 -> timers s = timers s0 -> cleanup s = cleanup s0 ->
  fetches s = fetches s0 -> pending s = pending s0 ->
  loadingTimeoutRef s = loadingTimeoutRef s0 ->
  mounted s = mounted s0 -> audioContextRef s = audioContextRef s0 ->
  invariant (run_effect (run_cleanup s)).
Proof.
  intros Hinv Hm He Ht Hc Hf Hp Hr Hm' Hctx.
  pose proof (run_cleanup_quiescent s0 Hinv) as Hq.
  destruct (run_cleanup_frame s) as (_ & Hm1 & _ & _ & Hctx1 & _).
  apply run_effect_invariant.
  - assert (Hsame : effects (run_cleanup s) = effects (run_cleanup s0)
                    /\ timers (run_cleanup s) = timers (run_cleanup s0)
                    /\ cleanup (run_cleanup s) = cleanup (run_cleanup s0)
                    /\ fetches (run_cleanup s) = fetches (run_cleanup s0)
                    /\ pending (run_cleanup s) = pending (run_cleanup s0)).
    { unfold run_cleanup. rewrite Hc.
      destruct (cleanup s0) eqn:Hc0;
        [| repeat split; first [assumption | congruence]].
      cbv zeta. simpl loadingTimeoutRef. rewrite Hr.
      destruct (loadingTimeoutRef s0); simpl; rewrite ?He, ?Ht, ?Hf, ?Hp;
        repeat split; reflexivity. }
    destruct Hsame as (H1 & H2 & H3 & H4 & H5).
    exact (quiescent_same _ _ H1 H2 H3 H4 H5 Hq).
  - congruence.
  - rewrite Hctx1, Hctx. apply (inv_mounted s0 Hinv Hm).
Qed.

Lemma shrink_pending_invariant (s : State) (call : nat) :
  invariant s -> invariant (set_pending (pending s ∖ {[ call ]}) s).
Proof.
  intros [I1 I2 I3 I4 I5 I6 I7 I8]. constructor; simpl; try assumption.
  - intros c e eff Hc. apply elem_of_difference in Hc. destruct Hc as [Hc _].
    now apply I4.
  - intros c Hc. apply elem_of_difference in Hc. destruct Hc as [Hc _].
    now apply I6.
Qed.

(** Every step keeps the invariant. *)
Lemma step_invariant (ev : event) (s : State) :
  invariant s -> enabled ev s = true -> invariant (step ev s).
Proof.
  intros Hinv Hen.
  destruct ev as [c play ctx | c | | | ms | h | call base64 | call |]; simpl in *.
  - (* Mount *)
    apply negb_true_iff in Hen.
    apply run_effect_invariant; [| reflexivity | simpl; eauto].
    pose proof (unmounted_quiescent s Hinv Hen) as Hq.
    apply (quiescent_same s); try reflexivity; [| exact Hq].
    simpl. symmetry. apply (q_cleanup s Hq).
  - (* ChunkChange *)
    apply (rerun_invariant s); auto.
  - (* PlayPause *)
    apply (invariant_same_core s); [| exact Hinv].
    unfold toggle. cbv zeta. simpl audioContextRef.
    destruct (audioContextRef s); [| repeat split].
    destruct (isPlaying _); [| repeat split].
    destruct (audioCache _ !! _); [| repeat split].
    destruct (_ && _); [| repeat split].
    eapply same_core_trans; [| apply playBuffer_core]. repeat split.
  - (* Retry *)
    apply andb_true_iff in Hen. destruct Hen as [Hm _].
    apply (rerun_invariant s); auto.
  - (* Elapse *)
    apply (invariant_same_core s); [repeat split | exact Hinv].
  - (* TimerFires *)
    destruct (timers s !! h) as [[due e] |] eqn:Hh; [| discriminate].
    destruct (inv_timer s Hinv h due e Hh) as (Href & Hcl & Hnew & Hlt).
    set (s0 := set_timers (delete h (timers s)) s).
    assert (Hinv0 : invariant s0).
    { destruct Hinv as [I1 I2 I3 I4 I5 I6 I7 I8]. constructor; simpl; try assumption.
      intros h' d e' H. apply lookup_delete_Some in H. destruct H as [Hne H].
      destruct (I2 h' d e' H) as (Href' & _). congruence. }
    destruct (loadAudio_cases e s0) as [Hsame | (eff & He & _ & Hmiss & ->)].
    + exact (invariant_same_core s0 _ Hsame Hinv0).
    + destruct Hinv0 as [I1 I2 I3 I4 I5 I6 I7 I8]. simpl in *.
      constructor; simpl; try assumption.
      * intros h' d e' H. destruct (I2 h' d e' H) as (H1 & H2 & H3 & H4).
        repeat split; try assumption.
        intros Hin. apply elem_of_app in Hin. destruct Hin as [Hin | Hin];
          [contradiction |].
        apply list_elem_of_singleton in Hin. subst e'.
        apply lookup_delete_Some in H. destruct H as [Hne H].
        destruct (inv_timer s Hinv h' d e H) as (Href' & _). congruence.
      * apply NoDup_app. split; [exact I3 |]. split; [| apply NoDup_singleton].
        intros x Hx Hx'. apply list_elem_of_singleton in Hx'. subst x. contradiction.
      * intros c e' eff' Hc Hf He' Hact. apply elem_of_union in Hc.
        destruct Hc as [Hc | Hc].
        -- apply elem_of_singleton in Hc. subst c.
           rewrite list_lookup_middle in Hf by reflexivity. injection Hf as <-.
           rewrite He in He'. injection He' as <-. exact Hmiss.
        -- rewrite lookup_app_l in Hf by (apply I6; exact Hc).
           exact (I4 c e' eff' Hc Hf He' Hact).
      * intros e' Hin. apply elem_of_app in Hin. destruct Hin as [Hin | Hin];
          [now apply I5 |].
        apply list_elem_of_singleton in Hin. subst e'.
        eapply lookup_lt_Some. exact He.
      * intros c Hc. rewrite length_app. simpl. apply elem_of_union in Hc.
        destruct Hc as [Hc | Hc]; [apply elem_of_singleton in Hc; lia |].
        specialize (I6 c Hc). lia.
  - (* SpeechResolves *)
    pose proof (shrink_pending_invariant s call Hinv) as Hinv0.
    unfold resolve. cbv zeta.
    set (s0 := set_pending (pending s ∖ {[call]}) s) in *.
    destruct (fetches s0 !! call) as [e |] eqn:Hf; [| exact Hinv0].
    destruct (effects s0 !! e) as [eff |] eqn:He; [| exact Hinv0].
    destruct (active eff) eqn:Hact; cbn [negb]; [| exact Hinv0].
    destruct (match audioContextRef s0 with
              | Some ctx => decodeAudio base64 ctx
              | None => Throw (Error "TypeError")
              end) as [buffer | err].
    + apply (invariant_same_core
               (set_audioCache (<[chunk_id (chunk eff) := buffer]> (audioCache s0)) s0));
        [apply present_core |].
      destruct Hinv0 as [I1 I2 I3 I4 I5 I6 I7 I8]. constructor; simpl; try assumption.
      intros c e' eff' Hc Hf' He' Hact'. exfalso.
      assert (e' = e).
      { pose proof (I1 e' eff' He' Hact'). pose proof (I1 e eff He Hact). congruence. }
      subst e'. simpl in Hf, Hf'.
      pose proof (NoDup_lookup _ _ _ _ I3 Hf Hf'). subst c.
      apply elem_of_difference in Hc. destruct Hc as [_ Hc].
      apply Hc. now apply elem_of_singleton.
    + exact (invariant_same_core s0 _ (catch_core e s0) Hinv0).
  - (* SpeechRejects *)
    pose proof (shrink_pending_invariant s call Hinv) as Hinv0.
    unfold reject. cbv zeta.
    set (s0 := set_pending (pending s ∖ {[call]}) s) in *.
    destruct (fetches s0 !! call) as [e |]; [| exact Hinv0].
    exact (invariant_same_core s0 _ (catch_core e s0) Hinv0).
  - (* Unmount *)
    apply quiescent_unmounted; [| reflexivity].
    apply (quiescent_same (run_cleanup s)); try reflexivity.
    now apply run_cleanup_quiescent.
Qed.

Lemma run_cons (ev : event) (rest : list event) (s : State) :
  enabled ev s = true -> run (ev :: rest) s = run rest (step ev s).
Proof. intros H. cbn [run]. now rewrite H. Qed.

Lemma run_invariant (events : list event) (s s' : State) :
  invariant s -> run events s = Some s' -> invariant s'.
Proof.
  revert s. induction events as [| ev events IH]; intros s Hinv Hrun; simpl in Hrun.
  - now injection Hrun as <-.
  - destruct (enabled ev s) eqn:Hen; [| discriminate].
    exact (IH _ (step_invariant ev s Hinv Hen) Hrun).
Qed.

Lemma reachable_invariant (s : State) : reachable s -> invariant s.
Proof. intros [events Hrun]. exact (run_invariant events boot s boot_invariant Hrun). Qed.

(** ** What a step does to the cache *)

Lemma loadAudio_cache (e : nat) (s : State) :
  audioCache (loadAudio e s) = audioCache s.
Proof.
  destruct (loadAudio_cases e s) as [H | (_ & _ & _ & _ & ->)];
    [exact (proj1 H) | reflexivity].
Qed.

Lemma run_effect_cache (s : State) : audioCache (run_effect s) = audioCache s.
Proof.
  unfold run_effect. cbv zeta. destruct (bool_decide _).
  - now rewrite loadAudio_cache.
  - simpl. destruct (loadingTimeoutRef s); reflexivity.
Qed.

Lemma run_cleanup_cache (s : State) : audioCache (run_cleanup s) = audioCache s.
Proof. apply run_cleanup_frame. Qed.


(** ** Arming the debounce timer *)

Lemma loadAudio_miss (e : nat) (s : State) (eff : Effect) :
  effects s !! e = Some eff -> is_Some (audioContextRef s) ->
  audioCache s !! chunk_id (chunk eff) = None ->
  loadAudio e s
  = set_pending ({[ length (fetches s) ]} ∪ pending s)
      (set_fetches (fetches s ++ [e])
         (set_isLoading true (set_error None (set_progress 0 (stopPlayback s))))).
Proof.
  intros He [ctx Hctx] Hmiss. unfold loadAudio. rewrite He, Hctx. cbv zeta.
  simpl audioCache. rewrite Hmiss. reflexivity.
Qed.

Lemma run_effect_miss (s : State) :
  timers s = ∅ ->
  audioCache s !! chunk_id (currentChunk s) = None ->
  run_effect s
  = set_loadingTimeoutRef (Some (nextTimer s))
      (set_nextTimer (S (nextTimer s))
         (set_timers {[ nextTimer s := (clock s + 1000, length (effects s)) ]}
            (set_cleanup (Some (length (effects s)))
               (set_effects
                  (effects s ++ [mkEffect (currentChunk s) (isPlaying s) true]) s)))).
Proof.
  intros Htm Hmiss. unfold run_effect. cbv zeta. simpl audioCache. simpl currentChunk.
  rewrite Hmiss.
  rewrite bool_decide_eq_false_2 by (intros [? ?]; discriminate).
  simpl loadingTimeoutRef.
  destruct (loadingTimeoutRef s); simpl; rewrite Htm, ?delete_empty, insert_empty;
    reflexivity.
Qed.

(** A run of the effect for a chunk that is not in the cache cancels what
    was pending and arms one timer, a second ahead, for the new run. *)
Lemma rerun_arms (s0 s : State) :
  invariant s0 -> mounted s0 = true ->
  effects s = effects s0 -> timers s = timers s0 -> cleanup s = cleanup s0 ->
  fetches s = fetches s0 -> pending s = pending s0 ->
  loadingTimeoutRef s = loadingTimeoutRef s0 ->
  mounted s = mounted s0 -> audioContextRef s = audioContextRef s0 ->
  audioCache s !! chunk_id (currentChunk s) = None ->
  let s' := run_effect (run_cleanup s) in
  invariant s' /\ mounted s' = true
  /\ audioCache s' = audioCache s /\ fetches s' = fetches s
  /\ pending s' = pending s /\ clock s' = clock s
  /\ isPlaying s' = isPlaying s /\ error s' = error s
  /\ nextTimer s' = S (nextTimer s)
  /\ timers s' = {[ nextTimer s := (clock s + 1000, length (effects s)) ]}
  /\ effects s' !! length (effects s)
     = Some (mkEffect (currentChunk s) (isPlaying s) true).
Proof.
  intros Hinv Hm He Ht Hc Hf Hp Hr Hm' Hctx Hmiss s'.
  assert (Hinv' : invariant s') by (apply (rerun_invariant s0); assumption).
  split; [exact Hinv' |].
  assert (Htm : timers (run_cleanup s) = ∅).
  { pose proof (run_cleanup_quiescent s0 Hinv) as Hq.
    transitivity (timers (run_cleanup s0)); [| apply Hq].
    unfold run_cleanup. rewrite Hc. destruct (cleanup s0); [| exact Ht].
    cbv zeta. simpl loadingTimeoutRef. rewrite Hr.
    destruct (loadingTimeoutRef s0); simpl; now rewrite Ht. }
  destruct (run_cleanup_frame s)
    as (Hcache & Hmt & Hchunk & Hplay & Hactx & Href & Hnt & Hfs & Hpd & Hck
        & Herr & Hld & Hlen & _).
  subst s'. rewrite run_effect_miss by (rewrite ?Hcache, ?Hchunk; assumption).
  simpl. rewrite Hcache, Hmt, Hchunk, Hplay, Hnt, Hfs, Hpd, Hck, Herr, Hlen.
  repeat split; try congruence.
  rewrite <- Hlen. apply list_lookup_middle. reflexivity.
Qed.

Lemma chunk_change_arms (s : State) (c : TextChunk) :
  invariant s -> mounted s = true ->
  audioCache s !! chunk_id c = None ->
  invariant (step (ChunkChange c) s)
  /\ mounted (step (ChunkChange c) s) = true
  /\ audioCache (step (ChunkChange c) s) = audioCache s
  /\ fetches (step (ChunkChange c) s) = fetches s
  /\ clock (step (ChunkChange c) s) = clock s
  /\ isPlaying (step (ChunkChange c) s) = isPlaying s
  /\ timers (step (ChunkChange c) s)
     = {[ nextTimer s := (clock s + 1000, length (effects s)) ]}
  /\ effects (step (ChunkChange c) s) !! length (effects s)
     = Some (mkEffect c (isPlaying s) true).
Proof.
  intros Hinv Hm Hmiss.
  destruct (rerun_arms s (set_currentChunk c s) Hinv Hm) as
    (H1 & H2 & H3 & H4 & _ & H6 & H7 & _ & _ & H10 & H11);
    try reflexivity; [exact Hmiss |].
  cbn [step]. repeat (split; [assumption |]). assumption.
Qed.

Lemma retry_arms (s : State) :
  invariant s -> mounted s = true ->
  audioCache s !! chunk_id (currentChunk s) = None ->
  invariant (step Retry s)
  /\ mounted (step Retry s) = true
  /\ audioCache (step Retry s) = audioCache s
  /\ fetches (step Retry s) = fetches s
  /\ clock (step Retry s) = clock s
  /\ timers (step Retry s)
     = {[ nextTimer s := (clock s + 1000, length (effects s)) ]}
  /\ effects (step Retry s) !! length (effects s)
     = Some (mkEffect (currentChunk s) (isPlaying s) true).
Proof.
  intros Hinv Hm Hmiss.
  destruct (rerun_arms s (set_retryTrigger (retryTrigger s + 1) s) Hinv Hm) as
    (H1 & H2 & H3 & H4 & _ & H6 & _ & _ & _ & H10 & H11);
    try reflexivity; [exact Hmiss |].
  cbn [step]. repeat (split; [assumption |]). assumption.
Qed.

(** An armed timer fires once its second has passed, and the fetch is made. *)
Lemma fire_armed (s : State) (h e : nat) (eff : Effect) (wait : Z) :
  invariant s -> mounted s = true ->
  timers s = {[ h := (clock s + 1000, e) ]} ->
  effects s !! e = Some eff ->
  audioCache s !! chunk_id (chunk eff) = None ->
  1000 <= wait ->
  exists s2,
    run [Elapse wait; TimerFires h] s = Some s2
    /\ fetches s2 = fetches s ++ [e] /\ timers s2 = ∅
    /\ pending s2 = {[ length (fetches s) ]} ∪ pending s
    /\ error s2 = None /\ isLoading s2 = true
    /\ audioCache s2 = audioCache s
    /\ effects s2 = effects s.
Proof.
  intros Hinv Hm Htm He Hmiss Hwait.
  destruct (inv_mounted s Hinv Hm) as [Hctx _].
  cbn [run enabled step].
  replace (0 <=? wait) with true by (symmetry; apply Z.leb_le; lia).
  simpl timers. simpl clock. rewrite Htm, lookup_singleton_eq.
  replace (clock s + 1000 <=? clock s + wait) with true
    by (symmetry; apply Z.leb_le; lia).
  rewrite loadAudio_miss with (eff := eff); try assumption.
  eexists. split; [reflexivity |]. simpl.
  repeat split. apply delete_singleton_eq.
Qed.

End LoaderFacts.

Module LoaderSpec.
Import Js Player LoaderFacts Examples.

Lemma burst_quiet (changes : list (TextChunk * Z)) (last : TextChunk) (s : State) :
  invariant s -> mounted s = true ->
  Forall (fun cg => audioCache s !! chunk_id cg.1 = None /\ 0 <= cg.2 < 1000) changes ->
  audioCache s !! chunk_id last = None ->
  exists s1 h e,
    run (burst changes last) s = Some s1
    /\ Forall (fun s' => fetches s' = fetches s
                         /\ forall h', enabled (TimerFires h') s' = false)
              (trace (burst changes last) s)
    /\ invariant s1 /\ mounted s1 = true
    /\ audioCache s1 = audioCache s /\ fetches s1 = fetches s
    /\ timers s1 = {[ h := (clock s1 + 1000, e) ]}
    /\ effects s1 !! e = Some (mkEffect last (isPlaying s) true).
Proof.
  intros Hinv Hm Hall Hlast. revert s Hinv Hm Hall Hlast.
  assert (Harm : forall s c, invariant s -> mounted s = true ->
            audioCache s !! chunk_id c = None ->
            let s' := step (ChunkChange c) s in
            invariant s' /\ mounted s' = true /\ audioCache s' = audioCache s
            /\ fetches s' = fetches s /\ clock s' = clock s
            /\ isPlaying s' = isPlaying s
            /\ timers s' = {[ nextTimer s := (clock s + 1000, length (effects s)) ]}
            /\ effects s' !! length (effects s) = Some (mkEffect c (isPlaying s) true)
            /\ forall h', enabled (TimerFires h') s' = false).
  { intros s c Hinv Hm Hmiss s'.
    destruct (chunk_change_arms s c Hinv Hm Hmiss)
      as (H1 & H2 & H3 & H4 & H6 & H7 & H10 & H11).
    fold s' in H1, H2, H3, H4, H6, H7, H10, H11. clearbody s'.
    repeat (split; [assumption |]).
    intros h'. cbn [enabled]. rewrite H10.
    destruct (decide (h' = nextTimer s)) as [-> | Hne].
    - rewrite lookup_singleton_eq, H6. apply Z.leb_gt. lia.
    - now rewrite lookup_singleton_ne by congruence. }
  induction changes as [| [c gap] rest IH]; intros s Hinv Hm Hall Hlast.
  - destruct (Harm s last Hinv Hm Hlast) as (H1 & H2 & H3 & H4 & H5 & H6 & H7 & H8 & H9).
    exists (step (ChunkChange last) s), (nextTimer s), (length (effects s)).
    cbn [burst run trace enabled]. rewrite Hm.
    split; [reflexivity |]. split; [repeat constructor; assumption |].
    rewrite H5. repeat (split; [assumption |]). assumption.
  - inversion_clear Hall as [| ? ? [Hc Hgap] Hrest]. simpl in Hc, Hgap.
    destruct (Harm s c Hinv Hm Hc) as (H1 & H2 & H3 & H4 & H5 & H6 & H7 & H8 & H9).
    set (sa := step (ChunkChange c) s) in *.
    set (sb := step (Elapse gap) sa).
    assert (Hen : enabled (Elapse gap) sa = true) by (apply Z.leb_le; lia).
    assert (Hinvb : invariant sb) by (apply step_invariant; assumption).
    assert (Hquiet : forall h', enabled (TimerFires h') sb = false).
    { intros h'. simpl. rewrite H7.
      destruct (decide (h' = nextTimer s)) as [-> | Hne].
      - rewrite lookup_singleton_eq, H5. apply Z.leb_gt. lia.
      - now rewrite lookup_singleton_ne by congruence. }
    destruct (IH sb Hinvb) as (s1 & h & e & Hrun & Htrace & Hi1 & Hm1 & Hc1 & Hf1 & Ht1 & He1).
    + exact H2.
    + eapply Forall_impl; [exact Hrest |]. intros [c' g'] H. simpl in *.
      now rewrite H3.
    + simpl. now rewrite H3.
    + exists s1, h, e. cbn [burst run trace]. fold sa. rewrite Hen.
      cbn [enabled]. rewrite Hm. fold sb.
      split; [exact Hrun |]. split.
      { constructor; [split; assumption |]. constructor; [split; [exact H4 | exact Hquiet] |].
        eapply Forall_impl; [exact Htrace |]. intros s' [Hfs Hq].
        split; [rewrite Hfs; exact H4 | exact Hq]. }
      simpl in Hc1, Hf1, He1.
      split; [exact Hi1 |]. split; [exact Hm1 |].
      split; [congruence |]. split; [congruence |]. split; [exact Ht1 |].
      rewrite <- H6. exact He1.
Qed.

(** C6: a burst of chunk changes, each less than a second after the one
    before and none of them for a chunk in the cache, makes no fetch and
    lets no timer fire while it lasts; it leaves one timer pending, for the
    last chunk, and when that timer fires, a second or more later, the one
    fetch is made, by the run of the effect for the last chunk.  A chunk
    change cancels whatever timer was pending and arms a new one, a second
    ahead. *)
Theorem debounce_single_fetch
    (s : State) (changes : list (TextChunk * Z)) (last : TextChunk) (wait : Z) :
  reachable s ->
  mounted s = true ->
  Forall (fun cg => audioCache s !! chunk_id cg.1 = None /\ 0 <= cg.2 < 1000) changes ->
  audioCache s !! chunk_id last = None ->
  1000 <= wait ->
  (exists s1 h e,
     run (burst changes last) s = Some s1
     /\ Forall (fun s' => fetches s' = fetches s
                          /\ forall h', enabled (TimerFires h') s' = false)
               (trace (burst changes last) s)
     /\ timers s1 = {[ h := (clock s1 + 1000, e) ]}
     /\ effects s1 !! e = Some (mkEffect last (isPlaying s) true)
     /\ exists s2,
          run [Elapse wait; TimerFires h] s1 = Some s2
          /\ fetches s2 = fetches s ++ [e]
          /\ timers s2 = ∅)
  /\ (forall h, is_Some (timers s !! h) ->
        timers (step (ChunkChange last) s) !! h = None)
  /\ timers (step (ChunkChange last) s)
     = {[ nextTimer s := (clock s + 1000, length (effects s)) ]}.
Proof.
  intros Hreach Hm Hall Hlast Hwait.
  pose proof (reachable_invariant s Hreach) as Hinv.
  split.
  - destruct (burst_quiet changes last s Hinv Hm Hall Hlast)
      as (s1 & h & e & Hrun & Htrace & Hi1 & Hm1 & Hc1 & Hf1 & Ht1 & He1).
    exists s1, h, e. repeat (split; [assumption |]).
    destruct (fire_armed s1 h e _ wait Hi1 Hm1 Ht1 He1) as (s2 & Hrun2 & Hf2 & Ht2 & _).
    + simpl. now rewrite Hc1.
    + exact Hwait.
    + exists s2. rewrite <- Hf1. auto.
  - destruct (chunk_change_arms s last Hinv Hm Hlast)
      as (_ & _ & _ & _ & _ & _ & H10 & _).
    split; [| exact H10].
    intros h [[due e] Hh]. rewrite H10. apply lookup_singleton_ne.
    destruct (inv_timer s Hinv h due e Hh) as (_ & _ & _ & Hlt). lia.
Qed.

Lemma debounce_single_fetch_witness :
  exists s1 h e,
    run (burst [(chunk2, 300); (chunk1, 500)] chunk2) waiting = Some s1
    /\ timers s1 = {[ h := (clock s1 + 1000, e) ]}
    /\ effects s1 !! e = Some (mkEffect chunk2 true true)
    /\ exists s2, run [Elapse 1000; TimerFires h] s1 = Some s2
                  /\ fetches s2 = fetches waiting ++ [e].
Proof.
  assert (Hreach : reachable waiting).
  { exists [Mount chunk1 true ctx24k; Elapse 1000]. vm_compute. reflexivity. }
  assert (Hall : Forall (fun cg => audioCache waiting !! chunk_id cg.1 = None
                                   /\ 0 <= cg.2 < 1000)
                        [(chunk2, 300); (chunk1, 500)]).
  { repeat constructor; simpl; lia. }
  destruct (proj1 (debounce_single_fetch waiting [(chunk2, 300); (chunk1, 500)]
                     chunk2 1000 Hreach eq_refl Hall eq_refl ltac:(lia)))
    as (s1 & h & e & Hrun & _ & Htm & Heff & s2 & Hrun2 & Hf2 & _).
  exists s1, h, e. repeat (split; [assumption |]). exists s2. auto.
Defined.

(** C7 as stated fails: the fetch for chunk 1 is still awaited when the
    chunk changes, or when the player is unmounted; when it is rejected
    afterwards, its run of the effect is no longer active and no error is
    shown. *)
Lemma superseded_failure_is_silent :
  (let s := step (ChunkChange chunk2) fetching in
   run [Mount chunk1 true ctx24k; Elapse 1000; TimerFires 1; ChunkChange chunk2] boot
   = Some s
   /\ 0%nat ∈ pending s
   /\ fetches s !! 0%nat = Some 0%nat
   /\ chunk <$> effects s !! 0%nat = Some chunk1
   /\ enabled (SpeechRejects 0) s = true
   /\ error (step (SpeechRejects 0) s) = None
   /\ audioCache (step (SpeechRejects 0) s) = ∅)
  /\ (let s := step Unmount fetching in
      run [Mount chunk1 true ctx24k; Elapse 1000; TimerFires 1; Unmount] boot
      = Some s
      /\ 0%nat ∈ pending s
      /\ enabled (SpeechRejects 0) s = true
      /\ error (step (SpeechRejects 0) s) = None).
Proof. vm_compute. repeat split; reflexivity. Qed.

(** C7 (as amended): a load whose fetch is rejected, or whose fetched text
    does not decode, leaves the cache as it was; when its run of the effect
    is still the active one it shows the error and ends the loading state,
    the retry button is then enabled, and a retry re-arms the timer and,
    when it fires, looks the chunk up in the cache again and fetches the
    same chunk again. *)
Theorem failed_load_is_atomic
    (s : State) (call e : nat) (eff : Effect) (ev : event) :
  reachable s ->
  call ∈ pending s ->
  fetches s !! call = Some e ->
  effects s !! e = Some eff ->
  fails s call ev ->
  let s1 := step ev s in
  enabled ev s = true
  /\ audioCache s1 = audioCache s
  /\ (active eff = true ->
      error s1 = Some network_error
      /\ isLoading s1 = false
      /\ enabled Retry s1 = true
      /\ exists s2 e' eff',
           run [Retry; Elapse 1000; TimerFires (nextTimer s1)] s1 = Some s2
           /\ fetches s2 = fetches s ++ [e']
           /\ effects s2 !! e' = Some eff' /\ chunk eff' = chunk eff
           /\ error s2 = None /\ isLoading s2 = true
           /\ audioCache s2 = audioCache s).
Proof.
  intros Hreach Hcall Hf He Hfails s1.
  pose proof (reachable_invariant s Hreach) as Hinv.
  assert (Hen : enabled ev s = true).
  { destruct Hfails as [-> | (b64 & ctx & err & -> & _)]; simpl;
      now apply bool_decide_eq_true. }
  split; [exact Hen |].
  set (s0 := set_pending (pending s ∖ {[call]}) s).
  assert (Hs1 : s1 = catch e s0).
  { subst s1.
    destruct Hfails as [-> | (b64 & ctx & err & -> & Hctx & Hdec)]; simpl.
    - unfold reject. cbv zeta. fold s0.
      replace (fetches s0 !! call) with (Some e) by (symmetry; exact Hf).
      reflexivity.
    - unfold resolve. cbv zeta. fold s0.
      replace (fetches s0 !! call) with (Some e) by (symmetry; exact Hf).
      replace (effects s0 !! e) with (Some eff) by (symmetry; exact He).
      replace (audioContextRef s0) with (Some ctx) by (symmetry; exact Hctx).
      rewrite Hdec. unfold catch, is_active.
      replace (effects s0 !! e) with (Some eff) by (symmetry; exact He).
      destruct (active eff); reflexivity. }
  split; [rewrite Hs1; exact (proj1 (catch_core e s0)) |].
  intros Hact.
  destruct (inv_current s Hinv e (inv_active s Hinv e eff He Hact))
    as (Hm & eff0 & He0 & Hchunk).
  rewrite He in He0. injection He0 as <-.
  pose proof (inv_miss s Hinv call e eff Hcall Hf He Hact) as Hmiss.
  assert (Hinv1 : invariant s1) by (apply step_invariant; assumption).
  assert (Hcatch : catch e s0
                   = set_isLoading false (set_error (Some network_error) s0)).
  { unfold catch, is_active.
    replace (effects s0 !! e) with (Some eff) by (symmetry; exact He).
    now rewrite Hact. }
  rewrite Hcatch in Hs1. clearbody s1. subst s1.
  split; [reflexivity |]. split; [reflexivity |].
  split; [simpl; now rewrite Hm |].
  set (s1 := set_isLoading false (set_error (Some network_error) s0)) in *.
  assert (Hmiss1 : audioCache s1 !! chunk_id (currentChunk s1) = None)
    by (simpl; now rewrite <- Hchunk).
  destruct (retry_arms s1 Hinv1 Hm Hmiss1)
    as (Hi2 & Hm2 & Hc2 & Hf2 & Hck2 & Ht2 & He2).
  assert (Hen1 : enabled Retry s1 = true) by (simpl; now rewrite Hm).
  destruct (fire_armed (step Retry s1) (nextTimer s1) (length (effects s1))
              (mkEffect (currentChunk s1) (isPlaying s1) true) 1000 Hi2 Hm2)
    as (s2 & Hrun2 & Hfs2 & _ & _ & Herr2 & Hld2 & Hcache2 & Heffs2).
  - now rewrite Ht2, Hck2.
  - exact He2.
  - now rewrite Hc2.
  - lia.
  - exists s2, (length (effects s1)),
      (mkEffect (currentChunk s1) (isPlaying s1) true).
    split.
    { rewrite (run_cons Retry _ s1 Hen1). exact Hrun2. }
    split; [rewrite Hfs2, Hf2; reflexivity |].
    split; [rewrite Heffs2; exact He2 |].
    split; [simpl; now rewrite Hchunk |].
    split; [exact Herr2 |]. split; [exact Hld2 |].
    rewrite Hcache2, Hc2. reflexivity.
Qed.

Lemma failed_load_is_atomic_witness :
  let s1 := step (SpeechResolves 0 (code_units "AA==")) fetching in
  audioCache s1 = audioCache fetching
  /\ error s1 = Some network_error
  /\ enabled Retry s1 = true.
Proof.
  assert (Hreach : reachable fetching).
  { exists [Mount chunk1 true ctx24k; Elapse 1000; TimerFires 1].
    vm_compute. reflexivity. }
  assert (Hcall : 0%nat ∈ pending fetching)
    by (refine (proj1 (bool_decide_eq_true _) _); vm_compute; reflexivity).
  assert (Hfails : fails fetching 0 (SpeechResolves 0 (code_units "AA=="))).
  { right. exists (code_units "AA=="), ctx24k, RangeError.
    repeat split; vm_compute; reflexivity. }
  destruct (failed_load_is_atomic fetching 0 0 (mkEffect chunk1 true true)
              (SpeechResolves 0 (code_units "AA==")) Hreach Hcall eq_refl eq_refl Hfails)
    as (_ & Hcache & Hactive).
  destruct (Hactive eq_refl) as (Herr & _ & Hretry & _).
  cbv zeta. auto.
Defined.



End LoaderSpec.

(* ===================================================================== *)
(** * Part XIII: further properties of the PCM codec                     *)
(* ===================================================================== *)

Module CodecMoreFacts.
Import Js AudioUtils CodecFacts CodecTerms.

(** ** The shape of the text *)

Lemma sextets_padded_length (l : list Z) :
  (length (sextets l) + length (padding (length l)) = 4 * ((length l + 2) / 3))%nat.
Proof.
  induction l as [| a | a b | a b c l IH] using list_ind3.
  - reflexivity.
  - reflexivity.
  - reflexivity.
  - assert (Hp : padding (length (a :: b :: c :: l)) = padding (length l)).
    { unfold padding. simpl length.
      replace (S (S (S (length l)))) with (length l + 1 * 3)%nat by lia.
      now rewrite Nat.Div0.mod_add. }
    rewrite Hp. cbn [sextets length].
    replace (S (S (S (length l))) + 2)%nat with ((length l + 2) + 1 * 3)%nat by lia.
    rewrite Nat.div_add by lia. lia.
Qed.

Lemma b64_char_text (i : Z) : is_sextet i -> b64_text_char (b64_char i) = true.
Proof.
  intros Hi. unfold b64_text_char. now rewrite (b64_value_char i Hi).
Qed.

Lemma padding_text (n : nat) : forallb b64_text_char (padding n) = true.
Proof.
  unfold padding. destruct (n mod 3)%nat as [| [| [| ?]]]; reflexivity.
Qed.

Lemma btoa_shape (bytes : list Z) :
  Forall is_byte bytes ->
  exists b64, btoa bytes = Ok b64
    /\ length b64 = (4 * ((length bytes + 2) / 3))%nat
    /\ forallb b64_text_char b64 = true.
Proof.
  intros Hb. unfold btoa.
  assert (Hall : forallb (fun c => (0 <=? c) && (c <=? 255)) bytes = true).
  { apply forallb_forall. intros c Hc. rewrite List.Forall_forall in Hb.
    specialize (Hb c Hc). unfold is_byte in Hb.
    apply andb_true_iff. split; apply Z.leb_le; lia. }
  rewrite Hall. eexists. split; [reflexivity |]. split.
  - rewrite length_app, length_map. apply sextets_padded_length.
  - rewrite forallb_app, padding_text, andb_true_r.
    apply forallb_forall. intros c Hc. apply in_map_iff in Hc.
    destruct Hc as (i & <- & Hi). apply b64_char_text.
    pose proof (sextets_range bytes Hb) as Hs.
    rewrite List.Forall_forall in Hs. now apply Hs.
Qed.

(** ** What a successful decode returns *)

Lemma int16_of_bytes_range (lo hi : Z) : is_int16 (int16_of_bytes lo hi).
Proof. apply wrap16_range. Qed.

Lemma int16_view_range (bytes : list Z) : Forall is_int16 (int16_view bytes).
Proof.
  revert bytes. fix IH 1. intros [| lo [| hi rest]]; cbn [int16_view].
  - constructor.
  - constructor.
  - constructor; [apply int16_of_bytes_range | apply IH].
Qed.

Lemma base64ToAudioBuffer_Ok (base64 : jsstring) (ctx : AudioContext) (rate : Q)
    (buffer : AudioBuffer) :
  base64ToAudioBuffer base64 ctx rate = Ok buffer ->
  exists bytes,
    atob base64 = Ok bytes
    /\ (2 * length (int16_view bytes))%nat = length bytes
    /\ (0 < length (int16_view bytes))%nat
    /\ rate_supported ctx rate = true
    /\ buffer = mkAudioBuffer rate
                  (map (fun v => Fin (decode_sample v)) (int16_view bytes)).
Proof.
  unfold base64ToAudioBuffer.
  destruct (atob base64) as [bytes | e] eqn:Hatob; simpl; [| discriminate].
  rewrite (ToUint8_bytes _ (atob_bytes _ _ Hatob)).
  unfold new_Int16Array.
  destruct (Z.eqb_spec (Z.of_nat (length bytes) mod 2) 0) as [Heven | _];
    simpl; [| discriminate].
  unfold createBuffer.
  destruct (Z.ltb_spec 0 (Z.of_nat (length (int16_view bytes)))) as [Hpos | _];
    simpl; [| discriminate].
  destruct (rate_supported ctx rate) eqn:Hrate; simpl; [| discriminate].
  intros H. injection H as <-.
  exists bytes. split; [reflexivity |].
  split; [now apply int16_view_length |].
  split; [lia |]. split; [reflexivity |].
  apply fill_channel_created.
Qed.

Lemma decode_sample_range (v : Z) :
  is_int16 v -> (-1 <= decode_sample v)%Q /\ (decode_sample v < 1)%Q.
Proof.
  unfold is_int16, decode_sample. intros [Hlo Hhi].
  assert (Ha : (inject_Z (-32768) <= inject_Z v)%Q) by (rewrite <- Zle_Qle; lia).
  assert (Hb : (inject_Z v <= inject_Z 32767)%Q) by (rewrite <- Zle_Qle; lia).
  change (inject_Z (-32768)) with (-32768)%Q in Ha.
  change (inject_Z 32767) with 32767%Q in Hb.
  set (t := inject_Z v) in *. clearbody t.
  assert (Hdiv : (t / 32768 == t * (1 # 32768))%Q) by (unfold Qdiv; reflexivity).
  rewrite Hdiv. split; lra.
Qed.

Lemma grid_samples (pcm : list Z) :
  Forall is_int16 pcm ->
  Forall grid_sample (map (fun v => Fin (decode_sample v)) pcm).
Proof.
  induction 1 as [| v pcm Hv _ IH]; simpl; constructor; [| exact IH].
  exists v. destruct (decode_sample_range v Hv). auto.
Qed.

(** ** Encoding a sample of the grid *)

Lemma inject_Z_pred (v : Z) : (inject_Z (v - 1) == inject_Z v - 1)%Q.
Proof.
  unfold Z.sub. rewrite inject_Z_plus, inject_Z_opp.
  change (inject_Z 1) with 1%Q. lra.
Qed.

Lemma truncate_between (y : Q) (v : Z) :
  (inject_Z v <= y)%Q -> (y < inject_Z v + 1)%Q -> (0 <= y)%Q -> truncate y = v.
Proof.
  intros Hlo Hhi Hpos.
  destruct (truncate_nonneg y Hpos) as [H1 H2].
  assert (Ha : (inject_Z (truncate y) < inject_Z (v + 1))%Q)
    by (rewrite inject_Z_plus; change (inject_Z 1) with 1%Q; lra).
  assert (Hb : (inject_Z v < inject_Z (truncate y + 1))%Q)
    by (rewrite inject_Z_plus; change (inject_Z 1) with 1%Q; lra).
  rewrite <- Zlt_Qlt in Ha, Hb. lia.
Qed.

Lemma truncate_integer_nonpos (y : Q) (v : Z) :
  (y == inject_Z v)%Q -> (y <= 0)%Q -> truncate y = v.
Proof.
  intros Hy Hneg.
  destruct (truncate_nonpos y Hneg) as [H1 H2].
  assert (Ha : (inject_Z v <= inject_Z (truncate y))%Q) by lra.
  assert (Hb : (inject_Z (truncate y) < inject_Z (v + 1))%Q)
    by (rewrite inject_Z_plus; change (inject_Z 1) with 1%Q; lra).
  rewrite <- Zle_Qle in Ha. rewrite <- Zlt_Qlt in Hb. lia.
Qed.

Lemma sample_to_int16_grid (v : Z) :
  is_int16 v -> sample_to_int16 (Fin (decode_sample v)) = reencoded v.
Proof.
  intros Hv. destruct (decode_sample_range v Hv) as [Hlo Hhi].
  destruct (clamp_finite (decode_sample v)) as (s & Hs & Hslo & Hshi & Hsq).
  assert (Hsv : (s == decode_sample v)%Q) by (apply Hsq; lra).
  destruct (scale_finite s Hslo Hshi) as (y & Hy & Hylo & Hyhi & Hneg & Hpos).
  assert (E : sample_to_int16 (Fin (decode_sample v)) = truncate y).
  { unfold sample_to_int16. rewrite Hs, Hy. simpl.
    apply wrap16_id. now apply truncate_range. }
  rewrite E. clear E Hs Hy.
  unfold decode_sample in *. unfold is_int16 in Hv. unfold reencoded.
  assert (Hdiv : (inject_Z v / 32768 == inject_Z v * (1 # 32768))%Q)
    by (unfold Qdiv; reflexivity).
  rewrite Hdiv in Hsv, Hlo, Hhi.
  destruct (Z.ltb_spec 0 v) as [Hv0 | Hv0].
  - (* a positive integer comes back one lower *)
    assert (Hvq : (0 < inject_Z v)%Q)
      by (change 0%Q with (inject_Z 0); rewrite <- Zlt_Qlt; lia).
    assert (Hvq' : (inject_Z v <= 32767)%Q)
      by (change 32767%Q with (inject_Z 32767); rewrite <- Zle_Qle; lia).
    assert (Hy : (y == s * 32767)%Q) by (apply Hpos; lra).
    apply truncate_between.
    + rewrite inject_Z_pred. lra.
    + rewrite inject_Z_pred. lra.
    + lra.
  - assert (Hvq : (inject_Z v <= 0)%Q)
      by (change 0%Q with (inject_Z 0); rewrite <- Zle_Qle; lia).
    destruct (Qlt_le_dec s 0) as [Hs0 | Hs0].
    + apply truncate_integer_nonpos; [rewrite (Hneg Hs0); lra |].
      rewrite (Hneg Hs0). lra.
    + apply truncate_integer_nonpos; [rewrite (Hpos Hs0); lra |].
      rewrite (Hpos Hs0). lra.
Qed.

Lemma int16_of_samples_grid (pcm : list Z) :
  Forall is_int16 pcm ->
  int16_of_samples (map (fun v => Fin (decode_sample v)) pcm) = map reencoded pcm.
Proof.
  unfold int16_of_samples.
  induction 1 as [| v pcm Hv _ IH]; simpl; [reflexivity |].
  now rewrite IH, (sample_to_int16_grid v Hv).
Qed.

Lemma float32ToBase64_int16 (data : list number) :
  exists b64,
    float32ToBase64 data = Ok b64
    /\ (binary <- atob b64 ;; new_Int16Array binary) = Ok (int16_of_samples data).
Proof.
  unfold float32ToBase64. cbv zeta. rewrite binary_string_of_bytes. simpl app.
  destruct (atob_btoa _ (Int16Array_buffer_range (int16_of_samples data)))
    as (b64 & Henc & Hdec).
  exists b64. split; [exact Henc |]. rewrite Hdec. simpl bind.
  apply new_Int16Array_buffer, int16_of_samples_range.
Qed.

(** ** The order of samples *)

Lemma clamp_cases (q : Q) :
  ((q <= -1)%Q /\ clamp (Fin q) = Fin (-1))
  \/ ((-1 < q)%Q /\ (q < 1)%Q /\ clamp (Fin q) = Fin q)
  \/ ((1 <= q)%Q /\ clamp (Fin q) = Fin 1).
Proof.
  unfold clamp, Math_min, Math_max, lt.
  destruct (Qlt_le_dec q 1) as [H1 | H1]; simpl.
  - destruct (Qlt_le_dec (-1) q) as [H2 | H2].
    + right. left. auto.
    + left. auto.
  - destruct (Qlt_le_dec (-1) 1) as [H2 | H2]; [| lra].
    right. right. auto.
Qed.

Lemma scale_value (s : Q) :
  scale (Fin s) = Fin (if Qlt_le_dec s 0 then s * 32768 else s * 32767).
Proof. unfold scale, lt, mul. destruct (Qlt_le_dec s 0); reflexivity. Qed.

Lemma truncate_monotone (x y : Q) : (x <= y)%Q -> truncate x <= truncate y.
Proof.
  intros Hxy.
  destruct (Qlt_le_dec x 0) as [Hx | Hx], (Qlt_le_dec y 0) as [Hy | Hy].
  - destruct (truncate_nonpos x) as [_ H1]; [lra |].
    destruct (truncate_nonpos y) as [H2 _]; [lra |].
    assert (H : (inject_Z (truncate x) < inject_Z (truncate y + 1))%Q)
      by (rewrite inject_Z_plus; change (inject_Z 1) with 1%Q; lra).
    rewrite <- Zlt_Qlt in H. lia.
  - destruct (truncate_nonpos x) as [_ H1]; [lra |].
    destruct (truncate_nonneg y Hy) as [_ H2].
    assert (H : (inject_Z (truncate x) < inject_Z (truncate y + 1 + 1))%Q)
      by (rewrite !inject_Z_plus; change (inject_Z 1) with 1%Q; lra).
    rewrite <- Zlt_Qlt in H.
    assert (H' : (inject_Z (truncate x) < inject_Z 1)%Q)
      by (change (inject_Z 1) with 1%Q; lra).
    assert (H'' : (inject_Z (-1) < inject_Z (truncate y))%Q)
      by (change (inject_Z (-1)) with (-1)%Q; lra).
    rewrite <- Zlt_Qlt in H', H''. lia.
  - lra.
  - destruct (truncate_nonneg x Hx) as [H1 _].
    destruct (truncate_nonneg y Hy) as [_ H2].
    assert (H : (inject_Z (truncate x) < inject_Z (truncate y + 1))%Q)
      by (rewrite inject_Z_plus; change (inject_Z 1) with 1%Q; lra).
    rewrite <- Zlt_Qlt in H. lia.
Qed.

(** The integer stored for a finite sample, as a truncation. *)
Lemma sample_to_int16_value (q : Q) :
  exists s, clamp (Fin q) = Fin s /\ (-1 <= s)%Q /\ (s <= 1)%Q
    /\ sample_to_int16 (Fin q)
       = truncate (if Qlt_le_dec s 0 then s * 32768 else s * 32767).
Proof.
  destruct (clamp_finite q) as (s & Hs & Hlo & Hhi & _).
  exists s. repeat split; try assumption.
  unfold sample_to_int16. rewrite Hs, scale_value. simpl.
  apply wrap16_id, truncate_range; destruct (Qlt_le_dec s 0); lra.
Qed.

End CodecMoreFacts.

Module CodecMore.
Import Js AudioUtils CodecFacts CodecTerms CodecMoreFacts Examples.

(** X1: the encoder returns, for [n] samples whatever they are, a text of
    [4 * ceil (2n / 3)] characters, each of the base64 alphabet or the
    padding character. *)
Theorem encoded_text_shape (data : list number) :
  exists b64,
    float32ToBase64 data = Ok b64
    /\ length b64 = encoded_length (length data)
    /\ forallb b64_text_char b64 = true.
Proof.
  unfold float32ToBase64. cbv zeta. rewrite binary_string_of_bytes. simpl app.
  destruct (btoa_shape _ (Int16Array_buffer_range (int16_of_samples data)))
    as (b64 & Henc & Hlen & Hchars).
  exists b64. split; [exact Henc |]. split; [| exact Hchars].
  rewrite Hlen, Int16Array_buffer_length. unfold int16_of_samples, encoded_length.
  now rewrite length_map.
Qed.

(** X2: a buffer the decoder returns has the requested sample rate, at
    least one frame, one frame for every two bytes of the text, and every
    sample is an integer of the signed 16-bit range over 32768, so a finite
    number of [-1, 1); at a positive rate its duration is positive. *)
Theorem decoded_buffer_wellformed
    (base64 : jsstring) (ctx : AudioContext) (rate : Q) (buffer : AudioBuffer) :
  base64ToAudioBuffer base64 ctx rate = Ok buffer ->
  sampleRate buffer = rate
  /\ 0 < frames buffer
  /\ (exists bytes, atob base64 = Ok bytes
                    /\ 2 * frames buffer = Z.of_nat (length bytes))
  /\ Forall grid_sample (channelData buffer)
  /\ ((0 < rate)%Q -> (0 < duration buffer)%Q).
Proof.
  intros H. destruct (base64ToAudioBuffer_Ok _ _ _ _ H)
    as (bytes & Hatob & Hlen & Hpos & _ & ->).
  unfold duration, frames. cbn [sampleRate channelData]. rewrite length_map.
  split; [reflexivity |]. split; [lia |].
  split; [exists bytes; split; [exact Hatob | lia] |].
  split; [apply grid_samples, int16_view_range |].
  intros Hrate.
  assert (Hf : (0 < inject_Z (Z.of_nat (length (int16_view bytes))))%Q).
  { change 0%Q with (inject_Z 0). rewrite <- Zlt_Qlt. lia. }
  apply Qlt_shift_div_l; [exact Hrate |]. rewrite Qmult_0_l. exact Hf.
Qed.

Lemma decoded_buffer_wellformed_witness :
  exists buffer,
    base64ToAudioBuffer two_frames ctx24k 24000 = Ok buffer
    /\ sampleRate buffer = 24000%Q /\ 0 < frames buffer
    /\ Forall grid_sample (channelData buffer)
    /\ (0 < duration buffer)%Q.
Proof.
  destruct (base64ToAudioBuffer two_frames ctx24k 24000) as [buffer | e] eqn:E;
    [| vm_compute in E; discriminate].
  exists buffer. split; [reflexivity |].
  destruct (decoded_buffer_wellformed two_frames ctx24k 24000 buffer E)
    as (H1 & H2 & _ & H4 & H5).
  repeat (split; [assumption |]). apply H5. reflexivity.
Defined.

(** X3: encoding a decoded buffer again does not give the text back:
    the integers it stores are those the buffer was decoded from, each
    positive one lowered by 1, each zero or negative one unchanged. *)
Theorem reencoding_lowers_positive
    (base64 : jsstring) (ctx : AudioContext) (rate : Q) (buffer : AudioBuffer) :
  base64ToAudioBuffer base64 ctx rate = Ok buffer ->
  exists bytes b64,
    atob base64 = Ok bytes
    /\ float32ToBase64 (channelData buffer) = Ok b64
    /\ (binary <- atob b64 ;; new_Int16Array binary)
       = Ok (map reencoded (int16_view bytes)).
Proof.
  intros H. destruct (base64ToAudioBuffer_Ok _ _ _ _ H)
    as (bytes & Hatob & _ & _ & _ & ->).
  cbn [channelData].
  destruct (float32ToBase64_int16
              (map (fun v => Fin (decode_sample v)) (int16_view bytes)))
    as (b64 & Henc & Hdec).
  exists bytes, b64. split; [exact Hatob |]. split; [exact Henc |].
  rewrite Hdec. f_equal. apply int16_of_samples_grid, int16_view_range.
Qed.

Lemma reencoding_lowers_positive_witness :
  exists bytes b64,
    atob two_frames = Ok bytes
    /\ int16_view bytes = [32767; -32768]
    /\ float32ToBase64 [Fin (decode_sample 32767); Fin (decode_sample (-32768))]
       = Ok b64
    /\ (binary <- atob b64 ;; new_Int16Array binary) = Ok [32766; -32768].
Proof.
  destruct (base64ToAudioBuffer two_frames ctx24k 24000) as [buffer | e] eqn:E;
    [| vm_compute in E; discriminate].
  destruct (reencoding_lowers_positive two_frames ctx24k 24000 buffer E)
    as (bytes & b64 & Hatob & Henc & Hdec).
  assert (Hbytes : bytes = [255; 127; 0; 128]).
  { assert (Ha : atob two_frames = Ok [255; 127; 0; 128])
      by (vm_compute; reflexivity).
    rewrite Ha in Hatob. now injection Hatob. }
  assert (Hbuf : channelData buffer
                 = [Fin (decode_sample 32767); Fin (decode_sample (-32768))]).
  { assert (Hb : base64ToAudioBuffer two_frames ctx24k 24000
                 = Ok (mkAudioBuffer 24000
                         [Fin (decode_sample 32767); Fin (decode_sample (-32768))]))
      by (vm_compute; reflexivity).
    rewrite Hb in E. injection E as <-. reflexivity. }
  subst bytes. rewrite Hbuf in Henc.
  exists [255; 127; 0; 128], b64.
  split; [exact Hatob |]. split; [reflexivity |]. split; [exact Henc |].
  exact Hdec.
Defined.

(** X4: the encoder preserves the order of samples: of two finite samples
    the greater one is never stored as the smaller integer. *)
Theorem encoding_is_monotone (p q : Q) :
  (p <= q)%Q -> sample_to_int16 (Fin p) <= sample_to_int16 (Fin q).
Proof.
  intros Hpq.
  destruct (sample_to_int16_value p) as (sp & Hsp & Hplo & Hphi & ->).
  destruct (sample_to_int16_value q) as (sq & Hsq & Hqlo & Hqhi & ->).
  assert (Hs : (sp <= sq)%Q).
  { destruct (clamp_cases p) as [[Hp E] | [(Hp1 & Hp2 & E) | [Hp E]]];
      rewrite E in Hsp; injection Hsp as <-;
      destruct (clamp_cases q) as [[Hq E'] | [(Hq1 & Hq2 & E') | [Hq E']]];
      rewrite E' in Hsq; injection Hsq as <-; lra. }
  apply truncate_monotone.
  destruct (Qlt_le_dec sp 0), (Qlt_le_dec sq 0); lra.
Qed.

Lemma encoding_is_monotone_witness :
  sample_to_int16 (Fin (-1 # 3)) <= sample_to_int16 (Fin (1 # 3)).
Proof. apply encoding_is_monotone. unfold Qle. simpl. lia. Defined.

(** X5: the encoder saturates exactly outside the open interval (-1, 1):
    a finite sample is stored as 32767 if and only if it is at least 1, and
    as -32768 if and only if it is at most -1; the infinities are stored as
    the two extremes. *)
Theorem encoding_saturates (q : Q) :
  (sample_to_int16 (Fin q) = 32767 <-> (1 <= q)%Q)
  /\ (sample_to_int16 (Fin q) = -32768 <-> (q <= -1)%Q)
  /\ sample_to_int16 PInf = 32767
  /\ sample_to_int16 NInf = -32768.
Proof.
  assert (Hmax : truncate (1 * 32767) = 32767) by reflexivity.
  assert (Hmin : truncate (-1 * 32768) = -32768) by reflexivity.
  destruct (sample_to_int16_value q) as (s & Hs & Hlo & Hhi & ->).
  split; [| split; [| split; reflexivity]].
  - destruct (clamp_cases q) as [[Hq E] | [(Hq1 & Hq2 & E) | [Hq E]]];
      rewrite E in Hs; injection Hs as <-.
    + split; [| intros; lra]. intros H. exfalso. vm_compute in H. discriminate.
    + split; [| intros; lra]. intros H. exfalso.
      destruct (Qlt_le_dec q 0) as [Hq0 | Hq0].
      * destruct (truncate_nonpos (q * 32768)) as [_ H2]; [lra |].
        rewrite H in H2. change (inject_Z 32767) with 32767%Q in H2. lra.
      * destruct (truncate_nonneg (q * 32767)) as [H1 _]; [lra |].
        rewrite H in H1. change (inject_Z 32767) with 32767%Q in H1. lra.
    + split; [intros; lra | intros _; reflexivity].
  - destruct (clamp_cases q) as [[Hq E] | [(Hq1 & Hq2 & E) | [Hq E]]];
      rewrite E in Hs; injection Hs as <-.
    + split; [intros; lra | intros _; reflexivity].
    + split; [| intros; lra]. intros H. exfalso.
      destruct (Qlt_le_dec q 0) as [Hq0 | Hq0].
      * destruct (truncate_nonpos (q * 32768)) as [H1 _]; [lra |].
        rewrite H in H1. change (inject_Z (-32768)) with (-32768)%Q in H1. lra.
      * destruct (truncate_nonneg (q * 32767)) as [_ H2]; [lra |].
        rewrite H in H2. change (inject_Z (-32768)) with (-32768)%Q in H2. lra.
    + split; [| intros; lra]. intros H. exfalso. vm_compute in H. discriminate.
Qed.

End CodecMore.

(* ===================================================================== *)
(** * Part XIV: further properties of the scheduler and the handlers     *)
(* ===================================================================== *)

Module QueueFacts.
Import Js AudioUtils Chat SchedulerFacts SchedulerTerms.

(** The three ways [playAudioResponse] chooses the start of a source. *)
Lemma playAudioResponse_start (b : AudioBuffer) (s : State) (ctx : AudioContext) :
  outputAudioContextRef s = Some ctx ->
  exists start,
    sources (playAudioResponse b s) = sources s ++ [mkSource b start None]
    /\ nextStartTimeRef (playAudioResponse b s) = (start + duration b)%Q
    /\ (currentTime ctx <= start)%Q
    /\ ((start = currentTime ctx /\ (nextStartTimeRef s < currentTime ctx)%Q)
        \/ (start = currentTime ctx /\ activeSourcesRef s = ∅)
        \/ (start = nextStartTimeRef s
            /\ (currentTime ctx <= nextStartTimeRef s)%Q
            /\ (activeSourcesRef s <> ∅
                \/ (nextStartTimeRef s <= currentTime ctx + (1 # 2))%Q))).
Proof.
  intros H. unfold playAudioResponse. rewrite H. cbv zeta.
  eexists. split; [reflexivity |]. split; [reflexivity |].
  destruct (Qlt_le_dec (nextStartTimeRef s) (currentTime ctx)) as [Hlt | Hle].
  - split; [lra |]. left. auto.
  - destruct (Qlt_le_dec (currentTime ctx + (1 # 2)) (nextStartTimeRef s))
      as [Hfar | Hnear]; simpl.
    + destruct (bool_decide (size (activeSourcesRef s) = 0%nat)) eqn:Hsz.
      * split; [lra |]. right. left. split; [reflexivity |].
        apply bool_decide_eq_true in Hsz.
        now apply size_empty_iff, leibniz_equiv in Hsz.
      * split; [exact Hle |]. right. right. split; [reflexivity |].
        split; [exact Hle |]. left. intros Hempty.
        apply bool_decide_eq_false in Hsz. apply Hsz.
        rewrite Hempty. apply size_empty.
    + split; [exact Hle |]. right. right. auto.
Qed.








Lemma imap_same {A : Type} (f : nat -> A -> A) (l : list A) :
  (forall i x, f i x = x) -> imap f l = l.
Proof.
  intros Hf. revert f Hf. induction l as [| x l IH]; intros f Hf; simpl.
  - reflexivity.
  - rewrite Hf. f_equal. apply IH. intros i y. apply Hf.
Qed.

End QueueFacts.

Module QueueSpec.
Import Js AudioUtils Chat SchedulerFacts SchedulerTerms QueueFacts Examples.





End QueueSpec.

Module HandlerFacts.
Import Js AudioUtils Chat SchedulerFacts SchedulerTerms QueueFacts.

Lemma stopAudioOutput_value (s : State) :
  stopAudioOutput s
  = mkState (messages s) (input s) (isTextLoading s) (isVoiceMode s)
      (if mountedRef s then false else aiSpeaking s)
      (outputAudioContextRef s)
      (match outputAudioContextRef s with
       | Some ctx => currentTime ctx
       | None => nextStartTimeRef s
       end)
      ∅ (mountedRef s) (isInterruptedRef s)
      (match outputAudioContextRef s with
       | Some ctx =>
           imap (fun i n => if bool_decide (i ∈ activeSourcesRef s)
                            then stop (currentTime ctx) n else n) (sources s)
       | None => sources s
       end)
      (timers s) (clock s).
Proof.
  destruct s as [msgs inp loading voice speaking [ctx |] next act mounted flag
                 srcs tms clk];
    destruct mounted; reflexivity.
Qed.

Lemma stopAudioOutput_twice (s : State) :
  stopAudioOutput (stopAudioOutput s) = stopAudioOutput s.
Proof.
  rewrite (stopAudioOutput_value (stopAudioOutput s)).
  rewrite (stopAudioOutput_value s).
  cbn [messages input isTextLoading isVoiceMode aiSpeaking
       outputAudioContextRef nextStartTimeRef activeSourcesRef mountedRef
       isInterruptedRef sources timers clock].
  destruct (outputAudioContextRef s) as [ctx |], (mountedRef s);
    f_equal; try reflexivity;
    apply imap_same; intros i n;
    rewrite bool_decide_eq_false_2 by apply not_elem_of_empty; reflexivity.
Qed.

Lemma stopAudioOutput_flag (v : bool) (s : State) :
  stopAudioOutput (set_isInterruptedRef v s)
  = set_isInterruptedRef v (stopAudioOutput s).
Proof.
  rewrite (stopAudioOutput_value (set_isInterruptedRef v s)).
  rewrite (stopAudioOutput_value s). reflexivity.
Qed.

Lemma stopAudioOutput_length (s : State) :
  length (sources (stopAudioOutput s)) = length (sources s).
Proof.
  rewrite (stopAudioOutput_value s). cbn [sources].
  destruct (outputAudioContextRef s); [apply length_imap | reflexivity].
Qed.

(** A message that arrives while the interruption flag is set, and does
    not complete the turn. *)
Lemma deliver_interrupted (seen : bool) (m : LiveServerMessage) (s : State) :
  isInterruptedRef s = true -> turnComplete m = false ->
  isInterruptedRef (fst (handleLiveMessage seen m s)) = true
  /\ length (sources (fst (handleLiveMessage seen m s))) = length (sources s)
  /\ snd (handleLiveMessage seen m s) = Ok tt.
Proof.
  intros Hflag Hturn. unfold handleLiveMessage. rewrite Hturn.
  destruct (interrupted m); cbn [fst snd].
  - split; [reflexivity |]. split; [| reflexivity].
    apply stopAudioOutput_length.
  - destruct (audioData m) as [data |]; [| auto].
    destruct (outputAudioContextRef s) as [ctx |]; [| auto].
    rewrite Hflag, andb_false_r. auto.
Qed.

End HandlerFacts.

Module HandlerSpec.
Import Js AudioUtils Chat SchedulerFacts SchedulerTerms QueueFacts HandlerFacts Examples.

(** X9: an interruption is idempotent: a second "interrupted" message,
    right after a first, leaves the component exactly as the first left
    it. *)
Theorem interruption_is_idempotent
    (seen seen' : bool) (m m' : LiveServerMessage) (s : State) :
  interrupted m = true -> interrupted m' = true ->
  deliver (deliver s (seen, m)) (seen', m') = deliver s (seen, m).
Proof.
  intros Hm Hm'. unfold deliver, handleLiveMessage. cbn [fst snd].
  rewrite Hm, Hm'. cbn [fst].
  rewrite stopAudioOutput_flag, stopAudioOutput_twice.
  destruct (stopAudioOutput s). reflexivity.
Qed.

Lemma interruption_is_idempotent_witness :
  deliver (deliver two_queued (true, mkLiveMessage true false None))
          (false, mkLiveMessage true true (Some two_frames))
  = deliver two_queued (true, mkLiveMessage true false None).
Proof. apply interruption_is_idempotent; reflexivity. Defined.

(** X10: while the interruption flag is set, the live messages that do
    not complete the turn create no source, whatever audio they carry, keep
    the flag set, and their handler returns without raising: the audio is
    not even decoded. *)
Theorem audio_is_dropped_while_interrupted
    (ms : list (bool * LiveServerMessage)) (s : State) :
  isInterruptedRef s = true ->
  Forall (fun m => turnComplete (snd m) = false) ms ->
  isInterruptedRef (fold_left deliver ms s) = true
  /\ length (sources (fold_left deliver ms s)) = length (sources s)
  /\ Forall (fun m => forall s0, isInterruptedRef s0 = true ->
               snd (handleLiveMessage (fst m) (snd m) s0) = Ok tt) ms.
Proof.
  intros Hflag Hall. revert s Hflag.
  induction Hall as [| [seen m] ms Hm _ IH]; intros s Hflag; cbn [fold_left].
  - auto.
  - cbn [snd] in Hm.
    destruct (deliver_interrupted seen m s Hflag Hm) as (H1 & H2 & _).
    destruct (IH (deliver s (seen, m)) H1) as (H3 & H4 & H5).
    split; [exact H3 |]. split; [unfold deliver in *; cbn [fst snd] in *; congruence |].
    constructor; [| exact H5].
    intros s0 Hs0. cbn [fst snd]. now apply deliver_interrupted.
Qed.

Lemma audio_is_dropped_while_interrupted_witness :
  let ms := [(false, mkLiveMessage false false (Some two_frames));
             (false, mkLiveMessage false false (Some (code_units "AA==")))] in
  isInterruptedRef (fold_left deliver ms interrupted_state) = true
  /\ length (sources (fold_left deliver ms interrupted_state))
     = length (sources interrupted_state).
Proof.
  intros ms.
  destruct (audio_is_dropped_while_interrupted ms interrupted_state)
    as (H1 & H2 & _).
  - reflexivity.
  - repeat constructor.
  - split; [exact H1 | exact H2].
Defined.

(** X11: while a text exchange is in flight a further submission does
    nothing: from the state a submission that went through leaves, and
    whatever the user has typed since, [handleSendText] returns at once,
    without a request and without a change of state. *)
Theorem submission_is_ignored_while_loading (s : State) (typed : jsstring) :
  blank (input s) = false ->
  isTextLoading s = false ->
  let s' := set_input typed (fst (handleSendText s)) in
  isTextLoading s' = true
  /\ handleSendText s' = (s', Return).
Proof.
  intros Hblank Hload. unfold handleSendText at 1 2. rewrite Hblank, Hload.
  cbn [orb fst]. cbv zeta. split; [reflexivity |].
  unfold handleSendText. cbn [isTextLoading set_input set_isTextLoading].
  now rewrite orb_true_r.
Qed.

Lemma submission_is_ignored_while_loading_witness :
  let s' := set_input (code_units "ola") (fst (handleSendText typing)) in
  isTextLoading s' = true /\ handleSendText s' = (s', Return).
Proof. apply submission_is_ignored_while_loading; reflexivity. Defined.

End HandlerSpec.

(* ===================================================================== *)
(** * Part XV: further properties of the narration loader                *)
(* ===================================================================== *)

Module LoaderMoreFacts.
Import Js AudioUtils Player LoaderFacts CodecTerms CodecMoreFacts LoaderTerms.

(** ** Values of the pieces *)




(** The effects after a run of the effect: the runs there were, and the
    new one. *)
Lemma loadAudio_effects (e : nat) (s : State) :
  effects (loadAudio e s) = effects s.
Proof.
  destruct (loadAudio_cases e s) as [H | (_ & _ & _ & _ & ->)];
    [apply H | reflexivity].
Qed.


Lemma run_effect_effects (s : State) :
  effects (run_effect s)
  = effects s ++ [mkEffect (currentChunk s) (isPlaying s) true].
Proof.
  unfold run_effect. cbv zeta. destruct (bool_decide _).
  - now rewrite loadAudio_effects.
  - cbn [loadingTimeoutRef set_cleanup set_effects].
    destruct (loadingTimeoutRef s); reflexivity.
Qed.

Lemma run_effect_fetches (s : State) :
  fetches (run_effect s) = fetches s /\ pending (run_effect s) = pending s.
Proof.
  unfold run_effect. cbv zeta.
  set (e := length (effects s)).
  set (s1 := set_cleanup _ _).
  destruct (bool_decide _) eqn:Hhit.
  - apply bool_decide_eq_true in Hhit.
    assert (He : effects s1 !! e
                 = Some (mkEffect (currentChunk s) (isPlaying s) true))
      by (unfold e; apply list_lookup_middle; reflexivity).
    destruct (loadAudio_hit e s1 _ He Hhit)
      as (_ & _ & _ & _ & _ & _ & _ & _ & _ & Hf & Hp).
    split; [exact Hf | exact Hp].
  - cbn [loadingTimeoutRef]. subst s1.
    cbn [loadingTimeoutRef set_cleanup set_effects].
    destruct (loadingTimeoutRef s); split; reflexivity.
Qed.


(** The cleanup of the current run, then a change of a prop: no run is
    active, no timer is pending. *)
Lemma rerun_quiescent (s0 s : State) :
  invariant s0 ->
  effects s = effects s0 -> timers s = timers s0 -> cleanup s = cleanup s0 ->
  fetches s = fetches s0 -> pending s = pending s0 ->
  loadingTimeoutRef s = loadingTimeoutRef s0 ->
  quiescent (run_cleanup s).
Proof.
  intros Hinv He Ht Hc Hf Hp Hr.
  pose proof (run_cleanup_quiescent s0 Hinv) as Hq.
  assert (Hsame : effects (run_cleanup s) = effects (run_cleanup s0)
                  /\ timers (run_cleanup s) = timers (run_cleanup s0)
                  /\ cleanup (run_cleanup s) = cleanup (run_cleanup s0)
                  /\ fetches (run_cleanup s) = fetches (run_cleanup s0)
                  /\ pending (run_cleanup s) = pending (run_cleanup s0)).
  { unfold run_cleanup. rewrite Hc.
    destruct (cleanup s0) eqn:Hc0;
      [| repeat split; first [assumption | congruence]].
    cbv zeta. simpl loadingTimeoutRef. rewrite Hr.
    destruct (loadingTimeoutRef s0); simpl; rewrite ?He, ?Ht, ?Hf, ?Hp;
      repeat split; reflexivity. }
  destruct Hsame as (H1 & H2 & H3 & H4 & H5).
  exact (quiescent_same _ _ H1 H2 H3 H4 H5 Hq).
Qed.

(** ** Induction on the events *)

Lemma loader_run_preserves (P : State -> Prop) :
  (forall ev s, P s -> enabled ev s = true -> P (step ev s)) ->
  forall events s s', P s -> run events s = Some s' -> P s'.
Proof.
  intros Hstep events. induction events as [| ev events IH];
    intros s s' HP Hrun; simpl in Hrun.
  - now injection Hrun as <-.
  - destruct (enabled ev s) eqn:Hen; [| discriminate].
    exact (IH _ _ (Hstep ev s HP Hen) Hrun).
Qed.

(** ** The loading indicator and the error state *)

Lemma ui_ok_same (s s' : State) :
  error s' = error s -> isLoading s' = isLoading s -> ui_ok s -> ui_ok s'.
Proof. unfold ui_ok. intros -> ->. auto. Qed.

Lemma ui_ok_no_error (s : State) : error s = None -> ui_ok s.
Proof. unfold ui_ok. intros ->. congruence. Qed.

Lemma playBuffer_ui (b : AudioBuffer) (s : State) :
  error (playBuffer b s) = error s /\ isLoading (playBuffer b s) = isLoading s.
Proof. unfold playBuffer. destruct (audioContextRef s); split; reflexivity. Qed.

Lemma present_error (e : nat) (b : AudioBuffer) (s : State) :
  error (present e b s) = error s.
Proof.
  unfold present. destruct (effects s !! e) as [eff |]; [| reflexivity].
  destruct (active eff); [| reflexivity].
  destruct (playing eff); [| reflexivity].
  now rewrite (proj1 (playBuffer_ui b _)).
Qed.

Lemma present_ui (e : nat) (b : AudioBuffer) (s : State) :
  ui_ok s -> ui_ok (present e b s).
Proof.
  intros Hok. unfold present. destruct (effects s !! e) as [eff |]; [| exact Hok].
  destruct (active eff); [| exact Hok].
  assert (H1 : ui_ok (set_isLoading false s)) by (intros _; reflexivity).
  destruct (playing eff); [| exact H1].
  destruct (playBuffer_ui b (set_isLoading false s)) as [He Hl].
  exact (ui_ok_same _ _ He Hl H1).
Qed.

Lemma catch_ui (e : nat) (s : State) : ui_ok s -> ui_ok (catch e s).
Proof.
  intros Hok. unfold catch. destruct (is_active e s); [| exact Hok].
  intros _. reflexivity.
Qed.

Lemma loadAudio_ui (e : nat) (s : State) : ui_ok s -> ui_ok (loadAudio e s).
Proof.
  intros Hok. unfold loadAudio.
  destruct (effects s !! e) as [eff |]; [| exact Hok].
  destruct (audioContextRef s) as [ctx |]; [| exact Hok].
  cbv zeta. destruct (audioCache _ !! _) as [b |].
  - apply present_ui, ui_ok_no_error. reflexivity.
  - apply ui_ok_no_error. reflexivity.
Qed.

Lemma run_effect_ui (s : State) : ui_ok s -> ui_ok (run_effect s).
Proof.
  intros Hok. unfold run_effect. cbv zeta. destruct (bool_decide _).
  - apply loadAudio_ui. exact Hok.
  - cbn [loadingTimeoutRef set_cleanup set_effects].
    destruct (loadingTimeoutRef s); exact Hok.
Qed.

Lemma run_cleanup_ui (s : State) : ui_ok s -> ui_ok (run_cleanup s).
Proof.
  destruct (run_cleanup_frame s)
    as (_ & _ & _ & _ & _ & _ & _ & _ & _ & _ & He & Hl & _).
  exact (ui_ok_same _ _ He Hl).
Qed.

Lemma toggle_cases (s : State) :
  toggle s = set_isPlaying (negb (isPlaying s)) s
  \/ exists b, toggle s = playBuffer b (set_isPlaying (negb (isPlaying s)) s).
Proof.
  unfold toggle. cbv zeta.
  destruct (audioContextRef _); [| now left].
  destruct (isPlaying _); [| now left].
  destruct (audioCache _ !! _) as [b |]; [| now left].
  destruct (_ && _); [| now left].
  right. now exists b.
Qed.

Lemma toggle_ui (s : State) :
  error (toggle s) = error s /\ isLoading (toggle s) = isLoading s.
Proof.
  destruct (toggle_cases s) as [-> | [b ->]]; [split; reflexivity |].
  apply (playBuffer_ui b (set_isPlaying (negb (isPlaying s)) s)).
Qed.

Lemma toggle_same_core (s : State) : same_core s (toggle s).
Proof.
  destruct (toggle_cases s) as [-> | [b ->]]; [repeat split |].
  eapply same_core_trans; [| apply playBuffer_core]. repeat split.
Qed.

Lemma step_ui (ev : event) (s : State) : ui_ok s -> ui_ok (step ev s).
Proof.
  intros Hok.
  destruct ev as [c play ctx | c | | | ms | h | call base64 | call |];
    cbn [step].
  - apply run_effect_ui, ui_ok_no_error. reflexivity.
  - apply run_effect_ui, run_cleanup_ui. exact Hok.
  - destruct (toggle_ui s) as [He Hl]. exact (ui_ok_same _ _ He Hl Hok).
  - apply run_effect_ui, run_cleanup_ui. exact Hok.
  - exact Hok.
  - destruct (timers s !! h) as [[due e] |]; [| exact Hok].
    apply loadAudio_ui. exact Hok.
  - unfold resolve. cbv zeta.
    set (s0 := set_pending _ s).
    assert (Hok0 : ui_ok s0) by exact Hok.
    destruct (fetches s0 !! call) as [e |]; [| exact Hok0].
    destruct (effects s0 !! e) as [eff |]; [| exact Hok0].
    destruct (negb (active eff)); [exact Hok0 |].
    destruct (match audioContextRef s0 with
              | Some ctx => decodeAudio base64 ctx
              | None => Throw (Error "TypeError")
              end) as [buffer | err].
    + apply present_ui. exact Hok0.
    + apply catch_ui. exact Hok0.
  - unfold reject. cbv zeta.
    set (s0 := set_pending _ s).
    assert (Hok0 : ui_ok s0) by exact Hok.
    destruct (fetches s0 !! call) as [e |]; [| exact Hok0].
    apply catch_ui. exact Hok0.
  - apply (ui_ok_same (run_cleanup s)); try reflexivity.
    apply run_cleanup_ui. exact Hok.
Qed.

(** ** Runs that are over *)

Lemma step_effects (ev : event) (s : State) (e : nat) (eff : Effect) :
  effects s !! e = Some eff ->
  exists eff', effects (step ev s) !! e = Some eff'
    /\ chunk eff' = chunk eff /\ playing eff' = playing eff
    /\ (active eff = false -> active eff' = false).
Proof.
  intros He.
  assert (Hsame : exists eff', effects s !! e = Some eff'
            /\ chunk eff' = chunk eff /\ playing eff' = playing eff
            /\ (active eff = false -> active eff' = false))
    by (exists eff; auto).
  assert (Happ : forall (x : Effect) (l : list Effect),
            l !! e = Some x -> forall new, (l ++ [new]) !! e = Some x).
  { intros x l Hx new. rewrite lookup_app_l; [exact Hx |].
    eapply lookup_lt_Some; eauto. }
  assert (Hclean : forall s0, effects s0 = effects s ->
            exists eff', effects (run_cleanup s0) !! e = Some eff'
              /\ chunk eff' = chunk eff /\ playing eff' = playing eff
              /\ (active eff = false -> active eff' = false)).
  { intros s0 H0. unfold run_cleanup. destruct (cleanup s0) as [e0 |];
      [| rewrite H0; exact Hsame].
    cbv zeta. cbn [loadingTimeoutRef set_effects].
    assert (Hlook : exists eff', alter deactivate e0 (effects s0) !! e = Some eff'
              /\ chunk eff' = chunk eff /\ playing eff' = playing eff
              /\ (active eff = false -> active eff' = false)).
    { rewrite H0. destruct (decide (e0 = e)) as [-> | Hne].
      - rewrite list_lookup_alter_eq, He. simpl. eexists. split; [reflexivity |].
        auto.
      - rewrite list_lookup_alter_ne by exact Hne. exact Hsame. }
    destruct (loadingTimeoutRef s0); exact Hlook. }
  assert (Heffect : forall s0,
            (exists eff', effects s0 !! e = Some eff'
              /\ chunk eff' = chunk eff /\ playing eff' = playing eff
              /\ (active eff = false -> active eff' = false)) ->
            exists eff', effects (run_effect s0) !! e = Some eff'
              /\ chunk eff' = chunk eff /\ playing eff' = playing eff
              /\ (active eff = false -> active eff' = false)).
  { intros s0 (eff' & H0 & H1). exists eff'. split; [| exact H1].
    rewrite run_effect_effects. now apply Happ. }
  destruct ev as [c play ctx | c | | | ms | h | call base64 | call |];
    cbn [step].
  - apply Heffect. exact Hsame.
  - apply Heffect, Hclean. reflexivity.
  - replace (effects (toggle s)) with (effects s); [exact Hsame |].
    symmetry. apply (toggle_same_core s).
  - apply Heffect, Hclean. reflexivity.
  - exact Hsame.
  - destruct (timers s !! h) as [[due e0] |]; [| exact Hsame].
    rewrite loadAudio_effects. exact Hsame.
  - replace (effects (resolve call base64 s)) with (effects s); [exact Hsame |].
    unfold resolve. cbv zeta. set (s0 := set_pending _ s).
    destruct (fetches s0 !! call) as [e0 |]; [| reflexivity].
    destruct (effects s0 !! e0) as [eff0 |]; [| reflexivity].
    destruct (negb (active eff0)); [reflexivity |].
    destruct (match audioContextRef s0 with
              | Some ctx => decodeAudio base64 ctx
              | None => Throw (Error "TypeError")
              end) as [buffer | err].
    + symmetry. apply (present_core e0 buffer (set_audioCache _ s0)).
    + symmetry. apply (catch_core e0 s0).
  - replace (effects (reject call s)) with (effects s); [exact Hsame |].
    unfold reject. cbv zeta. set (s0 := set_pending _ s).
    destruct (fetches s0 !! call) as [e0 |]; [| reflexivity].
    symmetry. apply (catch_core e0 s0).
  - apply (Hclean s). reflexivity.
Qed.

Lemma step_fetches_prefix (ev : event) (s : State) (call e : nat) :
  fetches s !! call = Some e -> fetches (step ev s) !! call = Some e.
Proof.
  intros Hf.
  destruct ev as [c play ctx | c | | | ms | h | call' base64 | call' |];
    cbn [step].
  - now rewrite (proj1 (run_effect_fetches _)).
  - rewrite (proj1 (run_effect_fetches _)).
    destruct (run_cleanup_frame (set_currentChunk c s))
      as (_ & _ & _ & _ & _ & _ & _ & -> & _). exact Hf.
  - replace (fetches (toggle s)) with (fetches s); [exact Hf |].
    symmetry. apply (toggle_same_core s).
  - rewrite (proj1 (run_effect_fetches _)).
    destruct (run_cleanup_frame (set_retryTrigger (retryTrigger s + 1) s))
      as (_ & _ & _ & _ & _ & _ & _ & -> & _). exact Hf.
  - exact Hf.
  - destruct (timers s !! h) as [[due e0] |]; [| exact Hf].
    destruct (loadAudio_cases e0 (set_timers (delete h (timers s)) s))
      as [H | (_ & _ & _ & _ & ->)].
    + destruct H as (_ & _ & _ & _ & _ & _ & _ & _ & _ & -> & _). exact Hf.
    + cbn [fetches set_pending set_fetches set_isLoading set_error set_progress
           stopPlayback set_sourceRef set_timers].
      rewrite lookup_app_l; [exact Hf |]. eapply lookup_lt_Some; eauto.
  - replace (fetches (resolve call' base64 s)) with (fetches s); [exact Hf |].
    unfold resolve. cbv zeta. set (s0 := set_pending _ s).
    destruct (fetches s0 !! call') as [e0 |]; [| reflexivity].
    destruct (effects s0 !! e0) as [eff0 |]; [| reflexivity].
    destruct (negb (active eff0)); [reflexivity |].
    destruct (match audioContextRef s0 with
              | Some ctx => decodeAudio base64 ctx
              | None => Throw (Error "TypeError")
              end) as [buffer | err].
    + symmetry. apply (present_core e0 buffer (set_audioCache _ s0)).
    + symmetry. apply (catch_core e0 s0).
  - replace (fetches (reject call' s)) with (fetches s); [exact Hf |].
    unfold reject. cbv zeta. set (s0 := set_pending _ s).
    destruct (fetches s0 !! call') as [e0 |]; [| reflexivity].
    symmetry. apply (catch_core e0 s0).
  - destruct (run_cleanup_frame s) as (_ & _ & _ & _ & _ & _ & _ & H & _).
    cbn [fetches set_mounted stopPlayback set_sourceRef]. rewrite H. exact Hf.
Qed.

(** A run that is over stays over, and the call it made stays its call. *)
Lemma run_keeps_inactive (events : list event) (s s' : State) (call e : nat) :
  run events s = Some s' ->
  fetches s !! call = Some e -> is_active e s = false ->
  (e < length (effects s))%nat ->
  fetches s' !! call = Some e /\ is_active e s' = false.
Proof.
  revert s. induction events as [| ev events IH]; intros s Hrun Hf Hin Hlt;
    simpl in Hrun.
  - injection Hrun as <-. auto.
  - destruct (enabled ev s); [| discriminate].
    destruct (lookup_lt_is_Some_2 _ _ Hlt) as [eff He].
    destruct (step_effects ev s e eff He) as (eff' & He' & _ & _ & Hact).
    apply (IH (step ev s) Hrun).
    + now apply step_fetches_prefix.
    + unfold is_active in *. rewrite He in Hin. rewrite He'. now apply Hact.
    + eapply lookup_lt_Some; eauto.
Qed.

(** The outcome of the call of a run that is over changes nothing but the
    set of pending calls. *)
Lemma settle_inactive (ev : event) (s : State) (call e : nat) :
  settles call ev = true ->
  fetches s !! call = Some e -> is_active e s = false ->
  step ev s = set_pending (pending s ∖ {[ call ]}) s.
Proof.
  intros Hev Hf Hin.
  destruct ev as [c play ctx | c | | | ms | h | call' base64 | call' |];
    try discriminate; cbn [settles] in Hev;
    apply bool_decide_eq_true in Hev; subst call'; cbn [step].
  - unfold resolve. cbv zeta. cbn [fetches effects set_pending]. rewrite Hf.
    unfold is_active in Hin.
    destruct (effects s !! e) as [eff |]; [| reflexivity].
    now rewrite Hin.
  - unfold reject. cbv zeta. cbn [fetches set_pending]. rewrite Hf.
    unfold catch.
    replace (is_active e (set_pending (pending s ∖ {[call]}) s))
      with (is_active e s) by reflexivity.
    now rewrite Hin.
Qed.

(** After the cleanup of the current run no run is active. *)
Lemma superseded_inactive (ev : event) (s : State) (e : nat) :
  invariant s -> supersedes ev = true ->
  (e < length (effects s))%nat ->
  is_active e (step ev s) = false.
Proof.
  intros Hinv Hev Hlt.
  assert (Hq : forall s0,
            effects s0 = effects s -> timers s0 = timers s ->
            cleanup s0 = cleanup s -> fetches s0 = fetches s ->
            pending s0 = pending s -> loadingTimeoutRef s0 = loadingTimeoutRef s ->
            is_active e (run_cleanup s0) = false
            /\ (e < length (effects (run_cleanup s0)))%nat).
  { intros s0 H1 H2 H3 H4 H5 H6.
    pose proof (rerun_quiescent s s0 Hinv H1 H2 H3 H4 H5 H6) as Hq.
    destruct (run_cleanup_frame s0)
      as (_ & _ & _ & _ & _ & _ & _ & _ & _ & _ & _ & _ & Hlen & _).
    assert (Hlt' : (e < length (effects (run_cleanup s0)))%nat)
      by (rewrite Hlen, H1; exact Hlt).
    split; [| exact Hlt'].
    destruct (lookup_lt_is_Some_2 _ _ Hlt') as [eff He].
    unfold is_active. rewrite He. exact (q_inactive _ Hq e eff He). }
  assert (Hrun : forall s0, is_active e s0 = false ->
            (e < length (effects s0))%nat ->
            is_active e (run_effect s0) = false).
  { intros s0 Hin Hl. unfold is_active in *. rewrite run_effect_effects.
    rewrite lookup_app_l by exact Hl. exact Hin. }
  destruct ev as [c play ctx | c | | | ms | h | call' base64 | call' |];
    try discriminate; cbn [step].
  - destruct (Hq (set_currentChunk c s)) as [H1 H2]; try reflexivity.
    now apply Hrun.
  - destruct (Hq (set_retryTrigger (retryTrigger s + 1) s)) as [H1 H2];
      try reflexivity.
    now apply Hrun.
  - destruct (Hq s) as [H1 _]; try reflexivity. exact H1.
Qed.

(** ** What a step does to the list of calls *)

Lemma toggle_fetches (s : State) : fetches (toggle s) = fetches s.
Proof. apply (toggle_same_core s). Qed.

Lemma resolve_fetches (call : nat) (base64 : jsstring) (s : State) :
  fetches (resolve call base64 s) = fetches s.
Proof.
  unfold resolve. cbv zeta. set (s0 := set_pending _ s).
  destruct (fetches s0 !! call) as [e0 |]; [| reflexivity].
  destruct (effects s0 !! e0) as [eff0 |]; [| reflexivity].
  destruct (negb (active eff0)); [reflexivity |].
  destruct (match audioContextRef s0 with
            | Some ctx => decodeAudio base64 ctx
            | None => Throw (Error "TypeError")
            end) as [buffer | err].
  - apply (present_core e0 buffer (set_audioCache _ s0)).
  - apply (catch_core e0 s0).
Qed.

Lemma reject_fetches (call : nat) (s : State) :
  fetches (reject call s) = fetches s.
Proof.
  unfold reject. cbv zeta. set (s0 := set_pending _ s).
  destruct (fetches s0 !! call) as [e0 |]; [| reflexivity].
  apply (catch_core e0 s0).
Qed.

(** ** What a step writes into the cache *)

Lemma decodeAudio_base64ToAudioBuffer (base64 : jsstring) (ctx : AudioContext) :
  decodeAudio base64 ctx = base64ToAudioBuffer base64 ctx 24000.
Proof.
  unfold decodeAudio, base64ToAudioBuffer, fill_channel.
  destruct (atob base64) as [binaryString | e]; simpl; [| reflexivity].
  destruct (new_Int16Array _) as [pcm16 | e]; simpl; [| reflexivity].
  destruct (createBuffer ctx _ 24000) as [audioBuffer | e]; reflexivity.
Qed.

Lemma decodeAudio_narration (base64 : jsstring) (ctx : AudioContext)
    (b : AudioBuffer) :
  decodeAudio base64 ctx = Ok b -> narration_buffer b.
Proof.
  rewrite decodeAudio_base64ToAudioBuffer. intros H.
  destruct (base64ToAudioBuffer_Ok _ _ _ _ H) as (bytes & _ & _ & Hpos & _ & ->).
  unfold narration_buffer, frames. cbn [sampleRate channelData].
  rewrite length_map. split; [reflexivity |]. split; [lia |].
  apply grid_samples, int16_view_range.
Qed.

Lemma step_cache_decoded (ev : event) (s : State) :
  audioCache (step ev s) = audioCache s
  \/ exists call base64 ctx k buffer,
       ev = SpeechResolves call base64
       /\ decodeAudio base64 ctx = Ok buffer
       /\ audioCache (step ev s) = <[ k := buffer ]> (audioCache s).
Proof.
  destruct ev as [c play ctx | c | | | ms | h | call base64 | call |];
    cbn [step].
  - left. now rewrite run_effect_cache.
  - left. now rewrite run_effect_cache, run_cleanup_cache.
  - left. apply (toggle_same_core s).
  - left. now rewrite run_effect_cache, run_cleanup_cache.
  - left. reflexivity.
  - left. destruct (timers s !! h) as [[due e] |]; [| reflexivity].
    now rewrite loadAudio_cache.
  - unfold resolve. cbv zeta. set (s0 := set_pending _ s).
    destruct (fetches s0 !! call) as [e |]; [| now left].
    destruct (effects s0 !! e) as [eff |]; [| now left].
    destruct (negb (active eff)); [now left |].
    destruct (audioContextRef s0) as [ctx |].
    + destruct (decodeAudio base64 ctx) as [buffer | err] eqn:Hdec.
      * right. exists call, base64, ctx, (chunk_id (chunk eff)), buffer.
        split; [reflexivity |]. split; [exact Hdec |].
        destruct (present_core e buffer
                    (set_audioCache (<[chunk_id (chunk eff) := buffer]> (audioCache s0)) s0))
          as (-> & _). reflexivity.
      * left. exact (proj1 (catch_core e s0)).
    + left. exact (proj1 (catch_core e s0)).
  - left. unfold reject. cbv zeta.
    destruct (fetches _ !! call) as [e |]; [| reflexivity].
    exact (proj1 (catch_core e (set_pending (pending s ∖ {[call]}) s))).
  - left. apply run_cleanup_cache.
Qed.

End LoaderMoreFacts.

Module LoaderMore.
Import Js AudioUtils Player LoaderFacts CodecTerms LoaderTerms LoaderMoreFacts.
Import Examples Cases.

(** X6: the decoder the narration player keeps for itself and the one of
    [audioUtils.ts] are the same function at 24 kHz: the same buffer or the
    same exception, on every text and every context. *)
Theorem decodeAudio_agrees (base64 : jsstring) (ctx : AudioContext) :
  decodeAudio base64 ctx = base64ToAudioBuffer base64 ctx 24000.
Proof. apply decodeAudio_base64ToAudioBuffer. Qed.

(** X12: the player never shows the loading indicator and the error
    state together: in every state it reaches, an error means that nothing
    is loading. *)
Theorem error_excludes_loading (s : State) :
  reachable s -> error s <> None -> isLoading s = false.
Proof.
  intros [events Hrun].
  apply (loader_run_preserves ui_ok (fun ev s0 H _ => step_ui ev s0 H) events boot s);
    [| exact Hrun].
  apply ui_ok_no_error. reflexivity.
Qed.

Lemma error_excludes_loading_witness :
  error failed = Some network_error /\ isLoading failed = false.
Proof.
  split; [vm_compute; reflexivity |].
  apply error_excludes_loading.
  - exists [Mount chunk1 true ctx24k; Elapse 1000; TimerFires 1; SpeechRejects 0].
    vm_compute. reflexivity.
  - vm_compute. discriminate.
Defined.





(** X15: once a chunk change, a retry or the unmounting has ended the run
    that made a call of [generateSpeech], the outcome of that call, whenever
    it arrives and whether it is speech or a failure, changes nothing but the
    set of pending calls: no cache entry, no error, no playback. *)
Theorem superseded_outcome_is_discarded
    (s s' : State) (ev outcome : event) (events : list event) (call e : nat) :
  reachable s ->
  fetches s !! call = Some e ->
  supersedes ev = true ->
  run (ev :: events) s = Some s' ->
  settles call outcome = true ->
  step outcome s' = set_pending (pending s' ∖ {[ call ]}) s'.
Proof.
  intros Hreach Hf Hev Hrun Hout.
  pose proof (reachable_invariant s Hreach) as Hinv.
  assert (Hlt : (e < length (effects s))%nat).
  { apply (inv_bound s Hinv). eapply list_elem_of_lookup_2. exact Hf. }
  cbn [run] in Hrun. destruct (enabled ev s); [| discriminate].
  destruct (lookup_lt_is_Some_2 _ _ Hlt) as [eff He].
  destruct (step_effects ev s e eff He) as (eff' & He' & _).
  destruct (run_keeps_inactive events (step ev s) s' call e Hrun) as [Hf' Hin'].
  - now apply step_fetches_prefix.
  - now apply superseded_inactive.
  - eapply lookup_lt_Some. exact He'.
  - exact (settle_inactive outcome s' call e Hout Hf' Hin').
Qed.

Lemma superseded_outcome_is_discarded_witness :
  step (SpeechResolves 0 two_frames) skipped
  = set_pending (pending skipped ∖ {[ 0%nat ]}) skipped.
Proof.
  apply (superseded_outcome_is_discarded fetching skipped (ChunkChange chunk2)
           (SpeechResolves 0 two_frames) [] 0 0).
  - exists [Mount chunk1 true ctx24k; Elapse 1000; TimerFires 1].
    vm_compute. reflexivity.
  - vm_compute. reflexivity.
  - reflexivity.
  - vm_compute. reflexivity.
  - vm_compute. reflexivity.
Defined.

(** X16: at most one debounce timer is pending at any time, and none
    while the player is unmounted; a pending timer is the one
    [loadingTimeoutRef] holds and belongs to the current run of the effect,
    which is for the chunk on screen and has made no request yet. *)
Theorem one_debounce_timer (s : State) :
  reachable s ->
  (size (timers s) <= 1)%nat
  /\ (mounted s = false -> timers s = ∅)
  /\ (forall h due e, timers s !! h = Some (due, e) ->
        loadingTimeoutRef s = Some h /\ cleanup s = Some e
        /\ (exists eff, effects s !! e = Some eff /\ chunk eff = currentChunk s)
        /\ (e ∉ fetches s)).
Proof.
  intros Hreach. pose proof (reachable_invariant s Hreach) as Hinv.
  assert (Hone : forall h1 v1 h2 v2,
            timers s !! h1 = Some v1 -> timers s !! h2 = Some v2 -> h1 = h2).
  { intros h1 [d1 e1] h2 [d2 e2] H1 H2.
    destruct (inv_timer s Hinv h1 d1 e1 H1) as (R1 & _).
    destruct (inv_timer s Hinv h2 d2 e2 H2) as (R2 & _). congruence. }
  split; [| split].
  - destruct (loadingTimeoutRef s) as [h0 |] eqn:Href.
    + destruct (timers s !! h0) as [v |] eqn:Hv.
      * replace (timers s) with ({[ h0 := v ]} : gmap nat (Z * nat));
          [rewrite map_size_singleton; lia |].
        apply map_eq. intros h. destruct (decide (h = h0)) as [-> | Hne].
        -- now rewrite lookup_singleton_eq.
        -- rewrite lookup_singleton_ne by congruence.
           destruct (timers s !! h) as [v' |] eqn:Hv'; [| reflexivity].
           exfalso. apply Hne. exact (Hone h v' h0 v Hv' Hv).
      * replace (timers s) with (∅ : gmap nat (Z * nat));
          [rewrite map_size_empty; lia |].
        apply map_eq. intros h. rewrite lookup_empty.
        destruct (timers s !! h) as [[d e] |] eqn:Hv'; [| reflexivity].
        destruct (inv_timer s Hinv h d e Hv') as (R & _).
        rewrite Href in R. injection R as ->. congruence.
    + replace (timers s) with (∅ : gmap nat (Z * nat));
        [rewrite map_size_empty; lia |].
      apply map_eq. intros h. rewrite lookup_empty.
      destruct (timers s !! h) as [[d e] |] eqn:Hv'; [| reflexivity].
      destruct (inv_timer s Hinv h d e Hv') as (R & _). congruence.
  - intros Hm. apply (q_timers s). now apply unmounted_quiescent.
  - intros h due e Hh.
    destruct (inv_timer s Hinv h due e Hh) as (R & Hcl & Hnew & _).
    split; [exact R |]. split; [exact Hcl |].
    split; [exact (proj2 (inv_current s Hinv e Hcl)) | exact Hnew].
Qed.

Lemma one_debounce_timer_witness :
  (size (timers waiting) <= 1)%nat
  /\ loadingTimeoutRef waiting = Some 1%nat.
Proof.
  destruct (one_debounce_timer waiting) as (H1 & _ & H3).
  - exists [Mount chunk1 true ctx24k; Elapse 1000]. vm_compute. reflexivity.
  - split; [exact H1 |].
    apply (H3 1%nat 1000 0%nat). vm_compute. reflexivity.
Defined.

(** X17: speech is requested by a debounce timer that fires, and by
    nothing else: an event that adds a call of [generateSpeech] is the firing
    of a timer that was due, the call is made for the run the timer belongs
    to, which is for the chunk on screen, and that chunk has no cache
    entry. *)
Theorem speech_is_requested_only_by_a_timer (s : State) (ev : event) :
  reachable s -> enabled ev s = true ->
  fetches (step ev s) <> fetches s ->
  exists h due e eff,
    ev = TimerFires h
    /\ timers s !! h = Some (due, e) /\ due <= clock s
    /\ effects s !! e = Some eff /\ chunk eff = currentChunk s
    /\ audioCache s !! chunk_id (currentChunk s) = None
    /\ fetches (step ev s) = fetches s ++ [e].
Proof.
  intros Hreach Hen Hnew. pose proof (reachable_invariant s Hreach) as Hinv.
  destruct ev as [c play ctx | c | | | ms | h | call base64 | call |];
    cbn [step] in *.
  - exfalso. apply Hnew. now rewrite (proj1 (run_effect_fetches _)).
  - exfalso. apply Hnew. rewrite (proj1 (run_effect_fetches _)).
    apply (run_cleanup_frame (set_currentChunk c s)).
  - exfalso. apply Hnew. apply toggle_fetches.
  - exfalso. apply Hnew. rewrite (proj1 (run_effect_fetches _)).
    apply (run_cleanup_frame (set_retryTrigger (retryTrigger s + 1) s)).
  - exfalso. now apply Hnew.
  - cbn [enabled] in Hen.
    destruct (timers s !! h) as [[due e] |] eqn:Hh; [| discriminate].
    apply Z.leb_le in Hen.
    destruct (inv_timer s Hinv h due e Hh) as (_ & Hcl & _).
    destruct (inv_current s Hinv e Hcl) as (_ & eff & He & Hch).
    destruct (loadAudio_cases e (set_timers (delete h (timers s)) s))
      as [H | (eff' & He' & _ & Hmiss & Heq)].
    + exfalso. apply Hnew.
      destruct H as (_ & _ & _ & _ & _ & _ & _ & _ & _ & Hf & _). exact Hf.
    + cbn [effects audioCache set_timers] in He', Hmiss.
      rewrite He in He'. injection He' as <-.
      exists h, due, e, eff. rewrite Heq, <- Hch. repeat split; assumption.
  - exfalso. apply Hnew. apply resolve_fetches.
  - exfalso. apply Hnew. apply reject_fetches.
  - exfalso. apply Hnew.
    cbn [fetches set_mounted stopPlayback set_sourceRef].
    apply (run_cleanup_frame s).
Qed.

Lemma speech_is_requested_only_by_a_timer_witness :
  exists h due e eff,
    TimerFires 1 = TimerFires h
    /\ timers waiting !! h = Some (due, e) /\ due <= clock waiting
    /\ effects waiting !! e = Some eff /\ chunk eff = currentChunk waiting
    /\ audioCache waiting !! chunk_id (currentChunk waiting) = None
    /\ fetches (step (TimerFires 1) waiting) = fetches waiting ++ [e].
Proof.
  apply (speech_is_requested_only_by_a_timer waiting (TimerFires 1)).
  - exists [Mount chunk1 true ctx24k; Elapse 1000]. vm_compute. reflexivity.
  - vm_compute. reflexivity.
  - vm_compute. discriminate.
Defined.

(** X18: whatever the service has answered, every buffer of the cache is a
    well-formed narration buffer: 24 kHz, at least one frame, every sample a
    16-bit integer over 32768. *)
Theorem cached_buffers_are_wellformed (s : State) (k : Z) (b : AudioBuffer) :
  reachable s -> audioCache s !! k = Some b -> narration_buffer b.
Proof.
  intros [events Hrun]. revert k b.
  apply (loader_run_preserves
           (fun s0 => forall k b, audioCache s0 !! k = Some b -> narration_buffer b))
    with (events := events) (s := boot); [| | exact Hrun].
  - intros ev s0 H _ k b Hb.
    destruct (step_cache_decoded ev s0)
      as [Hsame | (call & base64 & ctx & k' & buffer & _ & Hdec & Hins)].
    + rewrite Hsame in Hb. exact (H k b Hb).
    + rewrite Hins in Hb. apply lookup_insert_Some in Hb.
      destruct Hb as [[_ <-] | [_ Hb]].
      * exact (decodeAudio_narration base64 ctx buffer Hdec).
      * exact (H k b Hb).
  - intros k b Hb. cbn in Hb. rewrite lookup_empty in Hb. discriminate.
Qed.

Lemma cached_buffers_are_wellformed_witness :
  exists b, audioCache cached !! 1 = Some b /\ narration_buffer b.
Proof.
  destruct (audioCache cached !! 1) as [b |] eqn:Hb;
    [| vm_compute in Hb; discriminate].
  exists b. split; [reflexivity |].
  apply (cached_buffers_are_wellformed cached 1 b); [| exact Hb].
  exists [Mount chunk1 true ctx24k; Elapse 1000; TimerFires 1;
          SpeechResolves 0 two_frames].
  vm_compute. reflexivity.
Defined.

End LoaderMore.

(* ===================================================================== *)
(** * Part XVI: the service, and the text exchange against it            *)
(* ===================================================================== *)

Module ServiceFacts.
Import Js Service ServiceTerms.

Lemma sleeps_app (a b : list Action) : sleeps (a ++ b) = sleeps a ++ sleeps b.
Proof. unfold sleeps. apply flat_map_app. Qed.

Lemma text_requests_app (a b : list Action) :
  text_requests (a ++ b) = text_requests a ++ text_requests b.
Proof. unfold text_requests. apply flat_map_app. Qed.

(** A pass through the [try] block makes the text request once, and does
    not pause. *)
Lemma try_block_actions (history : list Chat.ChatMessage) (newMessage : jsstring)
    (round : Round) :
  sleeps (snd (try_block history newMessage round)) = []
  /\ text_requests (snd (try_block history newMessage round))
     = [contents history newMessage].
Proof.
  unfold try_block. cbv zeta.
  destruct (text_answer round) as [response | error]; [| split; reflexivity].
  destruct (functionCalls response) as [[| call calls] |]; try (split; reflexivity).
  destruct (bool_decide _); [| split; reflexivity].
  destruct (args call) as [prompt |]; [| split; reflexivity].
  unfold generateImageFromPrompt. split; reflexivity.
Qed.

(** One pass through the loop. *)
Lemma retry_loop_cons (history : list Chat.ChatMessage) (newMessage : jsstring)
    (attempt : Z) (round : Round) (rest : list Round) :
  retry_loop history newMessage attempt (round :: rest)
  = match fst (try_block history newMessage round) with
    | Fulfilled response =>
        Some (response, snd (try_block history newMessage round))
    | Rejected error =>
        if isQuotaError error && (attempt <? maxRetries) then
          match retry_loop history newMessage (attempt + 1) rest with
          | Some (response, later) =>
              Some (response,
                    snd (try_block history newMessage round)
                    ++ Slept (2 ^ (attempt + 1) * 2000) :: later)
          | None => None
          end
        else if (maxRetries <=? attempt) && isQuotaError error then
          Some (Chat.mkTextResponse quota_notice None,
                snd (try_block history newMessage round))
        else
          Some (Chat.mkTextResponse apology None,
                snd (try_block history newMessage round))
    end.
Proof.
  cbn [retry_loop]. destruct (try_block history newMessage round) as [outcome made].
  cbn [fst snd]. reflexivity.
Qed.

(** The loop from the attempt [3 - k]: it ends within [k + 1] passes. *)
Lemma retry_loop_bounded (history : list Chat.ChatMessage) (newMessage : jsstring)
    (k : nat) :
  (k <= 3)%nat ->
  forall rounds, (k < length rounds)%nat ->
  exists response actions n,
    retry_loop history newMessage (3 - Z.of_nat k) rounds = Some (response, actions)
    /\ (n <= k)%nat
    /\ sleeps actions = firstn n (skipn (3 - k) backoff)
    /\ text_requests actions = repeat (contents history newMessage) (S n).
Proof.
  induction k as [| k IH]; intros Hk rounds Hlen;
    (destruct rounds as [| round rest]; [simpl in Hlen; lia |]);
    rewrite retry_loop_cons;
    destruct (try_block_actions history newMessage round) as [Hs Ht];
    destruct (fst (try_block history newMessage round)) as [response | error].
  - exists response, (snd (try_block history newMessage round)), 0%nat. auto.
  - replace (3 - Z.of_nat 0 <? maxRetries) with false by reflexivity.
    replace (maxRetries <=? 3 - Z.of_nat 0) with true by reflexivity.
    rewrite andb_false_r. cbn [andb].
    destruct (isQuotaError error);
      eexists _, (snd (try_block history newMessage round)), 0%nat; auto.
  - exists response, (snd (try_block history newMessage round)), 0%nat.
    repeat split; [lia | exact Hs | exact Ht].
  - assert (Hlt : (3 - Z.of_nat (S k) <? maxRetries) = true)
      by (apply Z.ltb_lt; unfold maxRetries; lia).
    assert (Hge : (maxRetries <=? 3 - Z.of_nat (S k)) = false)
      by (apply Z.leb_gt; unfold maxRetries; lia).
    rewrite Hlt, Hge, andb_true_r. cbn [andb].
    destruct (isQuotaError error).
    + replace (3 - Z.of_nat (S k) + 1) with (3 - Z.of_nat k) by lia.
      destruct (IH ltac:(lia) rest ltac:(simpl in Hlen; lia))
        as (response & later & n & -> & Hn & Hsl & Htx).
      exists response, (snd (try_block history newMessage round)
                        ++ Slept (2 ^ (3 - Z.of_nat k) * 2000) :: later), (S n).
      split; [reflexivity |]. split; [lia |]. split.
      * rewrite sleeps_app, Hs. cbn [app sleeps flat_map]. fold (sleeps later).
        rewrite Hsl.
        destruct k as [| [| [| k]]]; [| | | lia]; reflexivity.
      * rewrite text_requests_app, Ht. cbn [app text_requests flat_map].
        fold (text_requests later). rewrite Htx. reflexivity.
    + eexists _, (snd (try_block history newMessage round)), 0%nat.
      repeat split; [lia | exact Hs | exact Ht].
Qed.

(** What the loop returns, from the attempt [3 - k]. *)
Lemma retry_loop_reply (history : list Chat.ChatMessage) (newMessage : jsstring)
    (k : nat) :
  (k <= 3)%nat ->
  forall rounds response actions,
  retry_loop history newMessage (3 - Z.of_nat k) rounds = Some (response, actions) ->
  (exists round, In round rounds
                 /\ fst (try_block history newMessage round) = Fulfilled response)
  \/ response = Chat.mkTextResponse apology None
  \/ (response = Chat.mkTextResponse quota_notice None
      /\ sleeps actions = skipn (3 - k) backoff
      /\ Forall (quota_failure history newMessage) (firstn (S k) rounds)).
Proof.
  induction k as [| k IH]; intros Hk rounds response actions;
    (destruct rounds as [| round rest]; [discriminate |]);
    rewrite retry_loop_cons;
    destruct (try_block_actions history newMessage round) as [Hs Ht];
    destruct (fst (try_block history newMessage round)) as [r | error] eqn:Htry.
  - intros H. injection H as <- <-. left. exists round. split; [now left | exact Htry].
  - replace (3 - Z.of_nat 0 <? maxRetries) with false by reflexivity.
    replace (maxRetries <=? 3 - Z.of_nat 0) with true by reflexivity.
    rewrite andb_false_r. cbn [andb].
    destruct (isQuotaError error) eqn:Hq; intros H; injection H as <- <-.
    + right. right. split; [reflexivity |]. split; [exact Hs |].
      constructor; [| constructor]. exists error. auto.
    + right. left. reflexivity.
  - intros H. injection H as <- <-. left. exists round. split; [now left | exact Htry].
  - assert (Hlt : (3 - Z.of_nat (S k) <? maxRetries) = true)
      by (apply Z.ltb_lt; unfold maxRetries; lia).
    assert (Hge : (maxRetries <=? 3 - Z.of_nat (S k)) = false)
      by (apply Z.leb_gt; unfold maxRetries; lia).
    rewrite Hlt, Hge, andb_true_r. cbn [andb].
    destruct (isQuotaError error) eqn:Hq.
    + replace (3 - Z.of_nat (S k) + 1) with (3 - Z.of_nat k) by lia.
      destruct (retry_loop history newMessage (3 - Z.of_nat k) rest)
        as [[r later] |] eqn:Hrest; [| discriminate].
      intros H. injection H as <- <-.
      destruct (IH ltac:(lia) rest r later Hrest)
        as [(round' & Hin & Hok) | [Hap | (Hqn & Hsl & Hall)]].
      * left. exists round'. split; [now right | exact Hok].
      * right. left. exact Hap.
      * right. right. split; [exact Hqn |]. split.
        -- rewrite sleeps_app, Hs. cbn [app sleeps flat_map]. fold (sleeps later).
           rewrite Hsl.
           destruct k as [| [| [| k]]]; [| | | lia]; reflexivity.
        -- change (firstn (S (S k)) (round :: rest))
             with (round :: firstn (S k) rest).
           constructor; [| exact Hall]. exists error. auto.
    + intros H. injection H as <- <-. right. left. reflexivity.
Qed.

(** ** The text exchange of the chat component *)

Lemma playAudioResponse_messages (b : AudioBuffer) (s : Chat.State) :
  Chat.messages (Chat.playAudioResponse b s) = Chat.messages s
  /\ Chat.input (Chat.playAudioResponse b s) = Chat.input s
  /\ Chat.clock (Chat.playAudioResponse b s) = Chat.clock s.
Proof.
  unfold Chat.playAudioResponse.
  destruct (Chat.outputAudioContextRef s); repeat split.
Qed.

(** The state a text exchange ends in, given the reply of the service. *)
Lemma exchange_value (s : Chat.State) (rounds : list Round)
    (speech_answer : settled GenerateContentResponse)
    (response : Chat.TextResponse) (actions : list Action) :
  Chat.blank (Chat.input s) = false ->
  Chat.isTextLoading s = false ->
  sendMessageToNexus (Chat.messages s) (Chat.input s) rounds
  = Some (response, actions) ->
  exists final,
    exchange s rounds speech_answer = Some final
    /\ Chat.messages final
       = Chat.messages s
         ++ [Chat.mkChatMessage (Chat.clock s) Chat.USER (Chat.input s) None
                                (Chat.clock s);
             Chat.mkChatMessage (Chat.clock s + 1) Chat.MODEL
                                (Chat.response_text response)
                                (Chat.response_image response) (Chat.clock s)]
    /\ Chat.input final = []
    /\ Chat.isTextLoading final = false
    /\ Chat.isInterruptedRef final = false
    /\ (forall ctx,
          Chat.isVoiceMode s = true -> Chat.mountedRef s = true ->
          Chat.outputAudioContextRef s = Some ctx ->
          Chat.sources final
          = Chat.sources (Chat.stopAudioOutput s)
            ++ match spoken (Chat.response_text response) speech_answer with
               | Ok base64Audio =>
                   match AudioUtils.base64ToAudioBuffer base64Audio ctx
                           AudioUtils.defaultSampleRate with
                   | Ok buffer => [Chat.mkSource buffer (currentTime ctx) None]
                   | Throw _ => []
                   end
               | Throw _ => []
               end).
Proof.
  intros Hblank Hload Hsend.
  unfold exchange, Chat.handleSendText. rewrite Hblank, Hload. cbn [orb].
  cbv zeta. rewrite Hsend.
  eexists. split; [reflexivity |].
  cbn [Chat.finish].
  set (speech := spoken (Chat.response_text response) speech_answer).
  set (user := Chat.mkChatMessage (Chat.clock s) Chat.USER (Chat.input s) None
                 (Chat.clock s)).
  set (s1 := if Chat.isVoiceMode s
             then Chat.set_isInterruptedRef true (Chat.stopAudioOutput s)
             else s).
  assert (H1 : Chat.messages s1 = Chat.messages s /\ Chat.clock s1 = Chat.clock s).
  { subst s1. destruct (Chat.isVoiceMode s); [| split; reflexivity].
    rewrite (HandlerFacts.stopAudioOutput_value s). split; reflexivity. }
  destruct H1 as [Hm1 Hc1].
  set (s3 := Chat.set_isTextLoading true
               (Chat.set_input [] (Chat.set_messages (Chat.messages s1 ++ [user]) s1))).
  set (bot := Chat.mkChatMessage (Chat.clock s3 + 1) Chat.MODEL
                (Chat.response_text response) (Chat.response_image response)
                (Chat.clock s3)).
  assert (Hbot : bot = Chat.mkChatMessage (Chat.clock s + 1) Chat.MODEL
                         (Chat.response_text response)
                         (Chat.response_image response) (Chat.clock s)).
  { subst bot s3. cbn [Chat.clock Chat.set_isTextLoading Chat.set_input
                       Chat.set_messages]. now rewrite Hc1. }
  set (s5 := Chat.set_messages (Chat.messages s3 ++ [bot]) s3).
  assert (Hm5 : Chat.messages s5 = Chat.messages s ++ [user; bot]).
  { subst s5 s3. cbn [Chat.messages Chat.set_isTextLoading Chat.set_input
                      Chat.set_messages].
    now rewrite Hm1, <- app_assoc. }
  assert (Hi5 : Chat.input s5 = []) by reflexivity.
  assert (Hs5 : Chat.sources s5 = Chat.sources s1
                /\ Chat.outputAudioContextRef s5 = Chat.outputAudioContextRef s1
                /\ Chat.mountedRef s5 = Chat.mountedRef s1
                /\ Chat.nextStartTimeRef s5 = Chat.nextStartTimeRef s1)
    by (repeat split).
  destruct Hs5 as (Hsrc5 & Hctx5 & Hmt5 & Hnx5).
  (* the speech *)
  set (s7 := match speech with
             | Ok base64Audio =>
                 match Chat.outputAudioContextRef s5 with
                 | Some ctx =>
                     match AudioUtils.base64ToAudioBuffer base64Audio ctx
                             AudioUtils.defaultSampleRate with
                     | Ok buffer => Chat.playAudioResponse buffer s5
                     | Throw _ => s5
                     end
                 | None => s5
                 end
             | Throw _ => s5
             end).
  assert (H7 : Chat.messages s7 = Chat.messages s5 /\ Chat.input s7 = Chat.input s5).
  { subst s7. destruct speech as [base64Audio | err]; [| split; reflexivity].
    destruct (Chat.outputAudioContextRef s5) as [ctx |]; [| split; reflexivity].
    destruct (AudioUtils.base64ToAudioBuffer _ _ _) as [b | err];
      [| split; reflexivity].
    destruct (playAudioResponse_messages b s5) as (Hm & Hi & _). auto. }
  destruct H7 as [Hm7 Hi7].
  assert (Hfinal :
    (let (s', t') :=
       if Chat.isVoiceMode s && Chat.mountedRef s5
       then (s5, Chat.AwaitGenerateSpeech (Chat.response_text response)
                   (fun speech0 s6 =>
                      (Chat.finally
                         match speech0 with
                         | Ok base64Audio =>
                             match Chat.outputAudioContextRef s6 with
                             | Some ctx =>
                                 match AudioUtils.base64ToAudioBuffer base64Audio ctx
                                         AudioUtils.defaultSampleRate with
                                 | Ok buffer => Chat.playAudioResponse buffer s6
                                 | Throw _ => s6
                                 end
                             | None => s6
                             end
                         | Throw _ => s6
                         end, Chat.Return)))
       else (Chat.finally s5, Chat.Return) in
     Chat.finish (Ok response) speech s' t')
    = Chat.finally (if Chat.isVoiceMode s && Chat.mountedRef s5 then s7 else s5)).
  { destruct (Chat.isVoiceMode s && Chat.mountedRef s5); reflexivity. }
  match goal with
  | |- Chat.messages ?f = _ /\ _ =>
      change f with
        (let (s', t') :=
           if Chat.isVoiceMode s && Chat.mountedRef s5
           then (s5, Chat.AwaitGenerateSpeech (Chat.response_text response)
                       (fun speech0 s6 =>
                          (Chat.finally
                             match speech0 with
                             | Ok base64Audio =>
                                 match Chat.outputAudioContextRef s6 with
                                 | Some ctx =>
                                     match AudioUtils.base64ToAudioBuffer
                                             base64Audio ctx
                                             AudioUtils.defaultSampleRate with
                                     | Ok buffer => Chat.playAudioResponse buffer s6
                                     | Throw _ => s6
                                     end
                                 | None => s6
                                 end
                             | Throw _ => s6
                             end, Chat.Return)))
           else (Chat.finally s5, Chat.Return) in
         Chat.finish (Ok response) speech s' t')
  end.
  rewrite Hfinal. rewrite <- Hbot.
  set (last := if Chat.isVoiceMode s && Chat.mountedRef s5 then s7 else s5).
  assert (Hlast : Chat.messages last = Chat.messages s ++ [user; bot]
                  /\ Chat.input last = []).
  { subst last. destruct (Chat.isVoiceMode s && Chat.mountedRef s5).
    - rewrite Hm7, Hi7. auto.
    - auto. }
  destruct Hlast as [Hml Hil].
  unfold Chat.finally.
  cbn [Chat.messages Chat.input Chat.isTextLoading Chat.isInterruptedRef
       Chat.sources Chat.set_isInterruptedRef Chat.set_isTextLoading].
  split; [exact Hml |]. split; [exact Hil |]. split; [reflexivity |].
  split; [reflexivity |].
  intros ctx Hvoice Hmounted Hctx.
  assert (Hs1 : s1 = Chat.set_isInterruptedRef true (Chat.stopAudioOutput s))
    by (subst s1; now rewrite Hvoice).
  assert (Hstop : Chat.outputAudioContextRef s1 = Some ctx
                  /\ Chat.mountedRef s1 = true
                  /\ Chat.nextStartTimeRef s1 = currentTime ctx
                  /\ Chat.sources s1 = Chat.sources (Chat.stopAudioOutput s)).
  { rewrite Hs1, (HandlerFacts.stopAudioOutput_value s).
    cbn [Chat.outputAudioContextRef Chat.mountedRef Chat.nextStartTimeRef
         Chat.sources Chat.set_isInterruptedRef].
    rewrite Hctx, Hmounted. auto. }
  destruct Hstop as (Hcx1 & Hmt1 & Hn1 & Hsr1).
  subst last. rewrite Hvoice, Hmt5, Hmt1. cbn [andb].
  subst s7. destruct speech as [base64Audio | err].
  - rewrite Hctx5, Hcx1.
    destruct (AudioUtils.base64ToAudioBuffer base64Audio ctx _) as [b | err].
    + destruct (QueueFacts.playAudioResponse_start b s5 ctx
                  ltac:(rewrite Hctx5; exact Hcx1))
        as (start & Hsrc & _ & _ & Hcases).
      rewrite Hsrc, Hsrc5, Hsr1. f_equal. f_equal. f_equal.
      rewrite Hnx5, Hn1 in Hcases.
      destruct Hcases as [[-> _] | [[-> _] | [-> _]]]; reflexivity.
    + now rewrite Hsrc5, Hsr1, app_nil_r.
  - now rewrite Hsrc5, Hsr1, app_nil_r.
Qed.

End ServiceFacts.

Module ServiceSpec.
Import Js Service ServiceTerms ServiceFacts Answers Examples.

(** X19: [sendMessageToNexus] is done within four attempts.  Whatever the
    API answers, as long as it answers four times, the function returns a
    reply; it has then made the text request once more than it has paused,
    each time with the same contents, and its pauses are the first of
    4000, 8000 and 16000 ms, in that order: 28 seconds at most. *)
Theorem retries_are_bounded
    (history : list Chat.ChatMessage) (newMessage : jsstring)
    (rounds : list Round) :
  (4 <= length rounds)%nat ->
  exists response actions n,
    sendMessageToNexus history newMessage rounds = Some (response, actions)
    /\ (n <= 3)%nat
    /\ sleeps actions = firstn n backoff
    /\ text_requests actions = repeat (contents history newMessage) (S n).
Proof.
  intros Hlen.
  destruct (retry_loop_bounded history newMessage 3 ltac:(lia) rounds ltac:(lia))
    as (response & actions & n & H & Hn & Hs & Ht).
  exists response, actions, n. auto.
Qed.

Lemma retries_are_bounded_witness :
  exists response actions,
    sendMessageToNexus [] (code_units "oi") [busy; busy; greeting; busy]
    = Some (response, actions)
    /\ sleeps actions = [4000; 8000]
    /\ Chat.response_text response = code_units "oi".
Proof.
  destruct (retries_are_bounded [] (code_units "oi") [busy; busy; greeting; busy])
    as (response & actions & n & H & _).
  - simpl. lia.
  - exists response, actions. split; [exact H |].
    assert (E : sendMessageToNexus [] (code_units "oi") [busy; busy; greeting; busy]
                = Some (Chat.mkTextResponse (code_units "oi") None,
                        [Requested (TextRequest (contents [] (code_units "oi")));
                         Slept 4000;
                         Requested (TextRequest (contents [] (code_units "oi")));
                         Slept 8000;
                         Requested (TextRequest (contents [] (code_units "oi")))]))
      by (vm_compute; reflexivity).
    rewrite E in H. injection H as <- <-. split; reflexivity.
Defined.

(** X20: the reply of [sendMessageToNexus] is what one of its attempts
    produced, or one of two fixed notices: the apology, or the notice of
    high traffic, and this one only when the first four attempts have all
    failed on a quota error and the three pauses have all been taken. *)
Theorem reply_is_an_answer_or_a_notice
    (history : list Chat.ChatMessage) (newMessage : jsstring)
    (rounds : list Round) (response : Chat.TextResponse) (actions : list Action) :
  sendMessageToNexus history newMessage rounds = Some (response, actions) ->
  (exists round, In round rounds
                 /\ fst (try_block history newMessage round) = Fulfilled response)
  \/ response = Chat.mkTextResponse apology None
  \/ (response = Chat.mkTextResponse quota_notice None
      /\ sleeps actions = backoff
      /\ Forall (quota_failure history newMessage) (firstn 4 rounds)).
Proof.
  intros H.
  exact (retry_loop_reply history newMessage 3 ltac:(lia) rounds response actions H).
Qed.

Lemma reply_is_an_answer_or_a_notice_witness :
  sleeps (snd (default (Chat.mkTextResponse [] None, [])
                       (sendMessageToNexus [] (code_units "oi")
                          [busy; busy; busy; busy])))
  = backoff.
Proof.
  destruct (sendMessageToNexus [] (code_units "oi") [busy; busy; busy; busy])
    as [[response actions] |] eqn:E; [| vm_compute in E; discriminate].
  destruct (reply_is_an_answer_or_a_notice _ _ _ _ _ E)
    as [(round & Hin & Hok) | [Hap | (_ & Hs & _)]].
  - exfalso. simpl in Hin.
    destruct Hin as [<- | [<- | [<- | [<- | []]]]]; vm_compute in Hok; discriminate.
  - exfalso. vm_compute in E. rewrite Hap in E. discriminate.
  - exact Hs.
Defined.

(** X21: every submission is answered: a text that is submitted, with
    the API answering four requests or fewer, adds exactly two messages to
    the conversation, the user's with the text typed and the model's with the
    reply of the service (an apology or a notice if the API failed), clears
    the input field and ends with the loading indicator off, whatever
    becomes of the speech; the history sent with it is the conversation
    before the submission. *)
Theorem every_submission_is_answered
    (s : Chat.State) (rounds : list Round)
    (speech_answer : settled GenerateContentResponse) :
  Chat.blank (Chat.input s) = false ->
  Chat.isTextLoading s = false ->
  (4 <= length rounds)%nat ->
  exists final response actions,
    sendMessageToNexus (Chat.messages s) (Chat.input s) rounds
    = Some (response, actions)
    /\ exchange s rounds speech_answer = Some final
    /\ Chat.messages final
       = Chat.messages s
         ++ [Chat.mkChatMessage (Chat.clock s) Chat.USER (Chat.input s) None
                                (Chat.clock s);
             Chat.mkChatMessage (Chat.clock s + 1) Chat.MODEL
                                (Chat.response_text response)
                                (Chat.response_image response) (Chat.clock s)]
    /\ Chat.input final = []
    /\ Chat.isTextLoading final = false.
Proof.
  intros Hblank Hload Hlen.
  destruct (retry_loop_bounded (Chat.messages s) (Chat.input s) 3 ltac:(lia)
              rounds ltac:(lia))
    as (response & actions & n & Hsend & _).
  change (retry_loop (Chat.messages s) (Chat.input s) (3 - Z.of_nat 3) rounds)
    with (sendMessageToNexus (Chat.messages s) (Chat.input s) rounds) in Hsend.
  destruct (exchange_value s rounds speech_answer response actions
              Hblank Hload Hsend) as (final & Hex & Hm & Hi & Hl & _).
  exists final, response, actions.
  split; [exact Hsend |]. split; [exact Hex |].
  split; [exact Hm |]. split; [exact Hi | exact Hl].
Qed.

Lemma every_submission_is_answered_witness :
  exists final,
    exchange typing [busy; busy; busy; busy] speech = Some final
    /\ length (Chat.messages final) = 2%nat
    /\ Chat.input final = [].
Proof.
  destruct (every_submission_is_answered typing [busy; busy; busy; busy] speech)
    as (final & response & actions & _ & H & Hm & Hi & _).
  - reflexivity.
  - reflexivity.
  - simpl. lia.
  - exists final. split; [exact H |]. split; [| exact Hi].
    rewrite Hm. reflexivity.
Defined.



End ServiceSpec.

(* ===================================================================== *)
(** * Part XVII: the progress loop                                       *)
(* ===================================================================== *)

Module ProgressFacts.
Import Js Progress ProgressTerms.

Lemma loop_run_preserves (P : State -> Prop) :
  (forall ev s, P s -> enabled ev s = true -> P (step ev s)) ->
  forall events s s', P s -> run events s = Some s' -> P s'.
Proof.
  intros Hstep events. induction events as [| ev events IH];
    intros s s' HP Hrun; simpl in Hrun.
  - now injection Hrun as <-.
  - destruct (enabled ev s) eqn:Hen; [| discriminate].
    exact (IH _ _ (Hstep ev s HP Hen) Hrun).
Qed.

(** With the invariant, cancelling the frame of the ref leaves no
    callback. *)
Lemma callbacks_of_ref (s : State) :
  loop_invariant s ->
  match animationFrameRef s with
  | Some h => delete h (callbacks s) = ∅
  | None => callbacks s = ∅
  end.
Proof.
  intros Hinv.
  destruct (animationFrameRef s) as [h0 |] eqn:Href; apply map_eq; intros h;
    rewrite lookup_empty.
  - destruct (decide (h = h0)) as [-> | Hne];
      [apply lookup_delete_eq | rewrite lookup_delete_ne by congruence].
    destruct (callbacks s !! h) as [b |] eqn:Hb; [| reflexivity].
    destruct (li_frame s Hinv h b Hb) as [R _]. congruence.
  - destruct (callbacks s !! h) as [b |] eqn:Hb; [| reflexivity].
    destruct (li_frame s Hinv h b Hb) as [R _]. congruence.
Qed.

Lemma stopPlayback_value (s : State) :
  loop_invariant s ->
  stopPlayback s = set_callbacks ∅ (set_sourceRef None s).
Proof.
  intros Hinv. pose proof (callbacks_of_ref s Hinv) as Hcb.
  unfold stopPlayback. cbv zeta.
  destruct s as [ctx src start ref cbs next p fin]. cbn in *.
  destruct src, ref; cbn; unfold cancelAnimationFrame, set_callbacks, set_sourceRef;
    cbn; rewrite Hcb; reflexivity.
Qed.

(** The callback that runs was the only one. *)
Lemma callbacks_of_frame (s : State) (h : nat) (b : AudioBuffer) :
  loop_invariant s -> callbacks s !! h = Some b ->
  delete h (callbacks s) = ∅ /\ animationFrameRef s = Some h
  /\ sourceRef s = Some b.
Proof.
  intros Hinv Hb. destruct (li_frame s Hinv h b Hb) as [Href Hsrc].
  pose proof (callbacks_of_ref s Hinv) as Hcb. rewrite Href in Hcb. auto.
Qed.

(** The state a requested frame leaves, from a state without callbacks. *)
Lemma request_frame_invariant (b : AudioBuffer) (s : State) :
  (exists ctx, audioContextRef s = Some ctx
               /\ (startTimeRef s <= currentTime ctx)%Q) ->
  callbacks s = ∅ -> sourceRef s = Some b ->
  (0 <= progress s)%Q /\ (progress s <= 100)%Q ->
  is_closed s = false ->
  loop_invariant (request_frame b s).
Proof.
  intros Hctx Hcb Hsrc Hp Hopen. unfold request_frame. cbv zeta.
  constructor; cbn.
  - exact Hctx.
  - intros h b' H. rewrite Hcb in H. apply lookup_insert_Some in H.
    destruct H as [[<- <-] | [_ H]]; [auto |].
    rewrite lookup_empty in H. discriminate.
  - intros b' H. rewrite Hsrc in H. injection H as <-.
    exists (nextHandle s). apply lookup_insert_eq.
  - exact Hp.
  - intros Hc. unfold is_closed in *. cbn in Hc. congruence.
Qed.

Lemma stopped_invariant (s : State) (p : Q) (n : nat) :
  loop_invariant s -> (0 <= p)%Q -> (p <= 100)%Q ->
  loop_invariant (set_callbacks ∅ (set_sourceRef None
                    (set_finished n (set_progress p s)))).
Proof.
  intros Hinv Hp0 Hp1. constructor; cbn.
  - exact (li_ctx s Hinv).
  - intros h b H. rewrite lookup_empty in H. discriminate.
  - intros b H. discriminate.
  - auto.
  - reflexivity.
Qed.

Lemma stopPlayback_invariant (s : State) :
  loop_invariant s -> loop_invariant (stopPlayback s).
Proof.
  intros Hinv. rewrite (stopPlayback_value s Hinv).
  destruct (li_progress s Hinv) as [H0 H1].
  pose proof (stopped_invariant s (progress s) (finished s) Hinv H0 H1) as H.
  destruct s. exact H.
Qed.

Lemma closed_set_state (v : ContextState) (s : State) :
  is_closed (set_state v s)
  = match audioContextRef s with
    | Some _ => match v with closed => true | _ => false end
    | None => false
    end.
Proof.
  unfold set_state, is_closed. destruct (audioContextRef s) as [ctx |] eqn:E.
  - reflexivity.
  - now rewrite E.
Qed.

Lemma set_state_invariant (v : ContextState) (s : State) :
  loop_invariant s -> (v = closed -> callbacks s = ∅) ->
  is_closed s = false ->
  loop_invariant (set_state v s).
Proof.
  intros Hinv Hv Hopen.
  destruct (li_ctx s Hinv) as (ctx & Hctx & Hle).
  unfold set_state. rewrite Hctx. constructor; cbn.
  - eexists. split; [reflexivity | exact Hle].
  - exact (li_frame s Hinv).
  - exact (li_alive s Hinv).
  - exact (li_progress s Hinv).
  - unfold is_closed. cbn. destruct v; try discriminate. intros _. now apply Hv.
Qed.

Lemma percentage (elapsed duration : Q) :
  (0 <= elapsed)%Q -> (elapsed < duration)%Q ->
  (0 <= elapsed / duration * 100)%Q /\ (elapsed / duration * 100 < 100)%Q.
Proof.
  intros H0 H1.
  assert (Hd : (0 < duration)%Q) by lra.
  assert (Hq0 : (0 <= elapsed / duration)%Q) by (apply Qle_shift_div_l; lra).
  assert (Hq1 : (elapsed / duration < 1)%Q) by (apply Qlt_shift_div_r; lra).
  split; lra.
Qed.

Lemma Qmin_below (x : Q) : (x < 100)%Q -> Qmin x 100 = x.
Proof.
  intros H. unfold Qmin, GenericMinMax.gmin.
  destruct (Qcompare_spec x 100); try reflexivity. lra.
Qed.

(** What a frame does, with the invariant. *)
Lemma frame_cases (s : State) (h : nat) (b : AudioBuffer) (ctx : Context) :
  loop_invariant s -> callbacks s !! h = Some b ->
  audioContextRef s = Some ctx ->
  let elapsed := (currentTime ctx - startTimeRef s)%Q in
  step (Frame h) s
  = match state ctx with
    | running =>
        if Qle_bool (duration b) elapsed
        then set_callbacks ∅ (set_sourceRef None
               (set_finished (S (finished s)) (set_progress 100 s)))
        else request_frame b
               (set_progress (Qmin (elapsed / duration b * 100) 100)
                  (set_callbacks ∅ s))
    | _ => request_frame b (set_callbacks ∅ s)
    end.
Proof.
  intros Hinv Hb Hctx. cbv zeta. cbn [step]. rewrite Hb.
  destruct (callbacks_of_frame s h b Hinv Hb) as (Hdel & Href & Hsrc).
  rewrite Hdel. unfold updateProgress. cbn [audioContextRef set_callbacks].
  rewrite Hctx. destruct (state ctx); try reflexivity.
  cbv zeta. cbn [startTimeRef set_callbacks].
  destruct (Qle_bool _ _); [| reflexivity].
  unfold stopPlayback. cbv zeta.
  cbn [sourceRef animationFrameRef callbacks set_finished set_progress
       set_sourceRef set_callbacks cancelAnimationFrame].
  rewrite Hsrc.
  cbn [sourceRef animationFrameRef callbacks set_finished set_progress
       set_sourceRef set_callbacks cancelAnimationFrame].
  rewrite Href. unfold cancelAnimationFrame.
  cbn [sourceRef animationFrameRef callbacks set_finished set_progress
       set_sourceRef set_callbacks].
  now rewrite delete_empty.
Qed.

Lemma loop_step_invariant (ev : event) (s : State) :
  loop_invariant s -> enabled ev s = true -> loop_invariant (step ev s).
Proof.
  intros Hinv Hen.
  destruct (li_ctx s Hinv) as (ctx & Hctx & Hle).
  destruct (li_progress s Hinv) as [Hp0 Hp1].
  destruct ev as [b | | h | d | | |]; cbn [enabled] in Hen.
  - (* PlayBuffer *)
    apply negb_true_iff in Hen. cbn [step]. unfold playBuffer. rewrite Hctx.
    cbv zeta. rewrite (stopPlayback_value s Hinv).
    apply request_frame_invariant; cbn; auto.
    exists ctx. split; [exact Hctx | lra].
  - (* LoadAudio *)
    cbn [step]. rewrite (stopPlayback_value s Hinv).
    pose proof (stopped_invariant s 0 (finished s) Hinv ltac:(lra) ltac:(lra)) as H.
    destruct s. exact H.
  - (* Frame *)
    apply bool_decide_eq_true in Hen. destruct Hen as [b Hb].
    assert (Hopen : is_closed s = false).
    { destruct (is_closed s) eqn:E; [| reflexivity].
      rewrite (li_closed s Hinv E), lookup_empty in Hb. discriminate. }
    rewrite (frame_cases s h b ctx Hinv Hb Hctx).
    destruct (callbacks_of_frame s h b Hinv Hb) as (_ & _ & Hsrc).
    assert (Hrest : forall p, (0 <= p)%Q -> (p <= 100)%Q ->
              loop_invariant (request_frame b (set_progress p (set_callbacks ∅ s)))).
    { intros p H0 H1. apply request_frame_invariant; cbn; auto. eauto. }
    assert (Hidle : loop_invariant (request_frame b (set_callbacks ∅ s))).
    { apply request_frame_invariant; cbn; auto. eauto. }
    destruct (state ctx); [exact Hidle | | exact Hidle].
    destruct (Qle_bool (duration b) (currentTime ctx - startTimeRef s)) eqn:Hend.
    + apply stopped_invariant; [exact Hinv | lra | lra].
    + assert (Hlt : (currentTime ctx - startTimeRef s < duration b)%Q).
      { apply Qnot_le_lt. intros Hge. apply Qle_bool_iff in Hge. congruence. }
      destruct (percentage (currentTime ctx - startTimeRef s) (duration b)
                  ltac:(lra) Hlt) as [H0 H1].
      rewrite (Qmin_below _ H1). apply Hrest; lra.
  - (* Advance *)
    apply andb_true_iff in Hen. destruct Hen as [_ Hd].
    apply Qle_bool_iff in Hd. cbn [step]. rewrite Hctx. constructor; cbn.
    + eexists. split; [reflexivity |]. cbn. lra.
    + exact (li_frame s Hinv).
    + exact (li_alive s Hinv).
    + auto.
    + intros Hc. apply (li_closed s Hinv). unfold is_closed in *.
      rewrite Hctx. exact Hc.
  - (* Resume *)
    apply negb_true_iff in Hen.
    apply set_state_invariant; [exact Hinv | discriminate | exact Hen].
  - (* Suspend *)
    apply negb_true_iff in Hen.
    apply set_state_invariant; [exact Hinv | discriminate | exact Hen].
  - (* Unmount *)
    apply negb_true_iff in Hen. cbn [step].
    apply set_state_invariant.
    + now apply stopPlayback_invariant.
    + intros _. now rewrite (stopPlayback_value s Hinv).
    + rewrite (stopPlayback_value s Hinv). exact Hen.
Qed.

Lemma loop_mounted_invariant (ctx : Context) :
  state ctx <> closed -> (0 <= currentTime ctx)%Q -> loop_invariant (mounted ctx).
Proof.
  intros Hopen Ht. constructor; cbn.
  - eexists. split; [reflexivity | exact Ht].
  - intros h b H. rewrite lookup_empty in H. discriminate.
  - discriminate.
  - split; lra.
  - reflexivity.
Qed.

Lemma loop_reachable_invariant (s : State) : reachable s -> loop_invariant s.
Proof.
  intros (ctx & events & Hopen & Ht & Hrun).
  exact (loop_run_preserves loop_invariant loop_step_invariant events _ s
           (loop_mounted_invariant ctx Hopen Ht) Hrun).
Qed.

Lemma loop_run_invariant (events : list event) (s s' : State) :
  loop_invariant s -> run events s = Some s' -> loop_invariant s'.
Proof. apply (loop_run_preserves loop_invariant loop_step_invariant). Qed.

(** The calls of [onFinish] and the source, over one step. *)
Lemma step_finished (ev : event) (s : State) :
  loop_invariant s -> enabled ev s = true ->
  (finished (step ev s) + playing (step ev s)
   <= finished s + playing s + plays [ev])%nat.
Proof.
  intros Hinv Hen.
  destruct (li_ctx s Hinv) as (ctx & Hctx & Hle).
  destruct ev as [b | | h | d | | |]; cbn [enabled] in Hen; unfold plays;
    cbn [List.filter length].
  - cbn [step]. unfold playBuffer. rewrite Hctx. cbv zeta.
    rewrite (stopPlayback_value s Hinv). unfold playing. cbn. lia.
  - cbn [step]. rewrite (stopPlayback_value s Hinv). unfold playing. cbn. lia.
  - apply bool_decide_eq_true in Hen. destruct Hen as [b Hb].
    rewrite (frame_cases s h b ctx Hinv Hb Hctx).
    destruct (callbacks_of_frame s h b Hinv Hb) as (_ & _ & Hsrc).
    unfold playing. rewrite Hsrc.
    destruct (state ctx);
      [cbn; rewrite Hsrc; lia | | cbn; rewrite Hsrc; lia].
    destruct (Qle_bool (duration b) (currentTime ctx - startTimeRef s));
      cbn; [| rewrite Hsrc]; lia.
  - cbn [step]. rewrite Hctx. unfold playing. cbn. lia.
  - cbn [step]. unfold set_state. rewrite Hctx. unfold playing. cbn. lia.
  - cbn [step]. unfold set_state. rewrite Hctx. unfold playing. cbn. lia.
  - cbn [step]. rewrite (stopPlayback_value s Hinv).
    unfold set_state. cbn. rewrite Hctx. unfold playing. cbn. lia.
Qed.

Lemma run_finished (events : list event) (s s' : State) :
  loop_invariant s -> run events s = Some s' ->
  (finished s' + playing s' <= finished s + playing s + plays events)%nat.
Proof.
  revert s. induction events as [| ev events IH]; intros s Hinv Hrun;
    simpl in Hrun.
  - injection Hrun as <-. unfold plays. simpl. lia.
  - destruct (enabled ev s) eqn:Hen; [| discriminate].
    pose proof (step_finished ev s Hinv Hen) as H1.
    pose proof (IH _ (loop_step_invariant ev s Hinv Hen) Hrun) as H2.
    assert (Hp : plays (ev :: events) = (plays [ev] + plays events)%nat).
    { unfold plays. cbn [List.filter]. destruct ev; cbn [length]; lia. }
    lia.
Qed.

End ProgressFacts.

Module ProgressSpec.
Import Js Progress ProgressTerms ProgressFacts Examples.

(** X23: the progress the player shows is a percentage: in every state
    the playback reaches it lies between 0 and 100. *)
Theorem progress_is_a_percentage (s : State) :
  reachable s -> (0 <= progress s)%Q /\ (progress s <= 100)%Q.
Proof. intros H. exact (li_progress s (loop_reachable_invariant s H)). Qed.

Lemma progress_is_a_percentage_witness :
  let s := step (Frame 1) (step (Advance (1 # 2)) (step (PlayBuffer one_second)
                                                       (mounted live))) in
  (progress s == 50)%Q /\ (0 <= progress s)%Q /\ (progress s <= 100)%Q.
Proof.
  intros s. split; [vm_compute; reflexivity |].
  apply progress_is_a_percentage.
  exists live, [PlayBuffer one_second; Advance (1 # 2); Frame 1].
  split; [discriminate |]. split; [vm_compute; discriminate |].
  vm_compute. reflexivity.
Defined.

(** X24: one progress loop at most is alive: in every state the playback
    reaches there is at most one pending animation frame, it is the one
    [animationFrameRef] holds, it belongs to the source that plays, and
    there is one exactly while a source is in [sourceRef]; after
    [stopPlayback], and after the unmounting, there is none. *)
Theorem one_progress_loop (s : State) :
  reachable s ->
  (size (callbacks s) <= 1)%nat
  /\ (forall h b, callbacks s !! h = Some b ->
        animationFrameRef s = Some h /\ sourceRef s = Some b)
  /\ (forall b, sourceRef s = Some b -> exists h, callbacks s !! h = Some b)
  /\ callbacks (stopPlayback s) = ∅
  /\ (is_closed s = true -> callbacks s = ∅).
Proof.
  intros Hreach. pose proof (loop_reachable_invariant s Hreach) as Hinv.
  split; [| split; [exact (li_frame s Hinv) |
            split; [exact (li_alive s Hinv) |
            split; [now rewrite (stopPlayback_value s Hinv) |
                    exact (li_closed s Hinv)]]]].
  pose proof (callbacks_of_ref s Hinv) as Hcb.
  destruct (animationFrameRef s) as [h0 |].
  - destruct (callbacks s !! h0) as [b |] eqn:Hb.
    + rewrite <- (insert_delete_id (callbacks s) h0 b Hb), Hcb.
      rewrite insert_empty, map_size_singleton. lia.
    + rewrite delete_id in Hcb by exact Hb. rewrite Hcb, map_size_empty. lia.
  - rewrite Hcb, map_size_empty. lia.
Qed.

Lemma one_progress_loop_witness :
  let s := step (PlayBuffer half_second)
             (step (PlayBuffer one_second) (mounted live)) in
  (size (callbacks s) <= 1)%nat /\ sourceRef s = Some half_second.
Proof.
  intros s.
  destruct (one_progress_loop s) as (H1 & H2 & _).
  - exists live, [PlayBuffer one_second; PlayBuffer half_second].
    split; [discriminate |]. split; [vm_compute; discriminate |].
    vm_compute. reflexivity.
  - split; [exact H1 |]. apply (H2 2%nat). vm_compute. reflexivity.
Defined.

(** X25: [onFinish] is called at most once for every call of
    [playBuffer]: along any sequence of events, the calls of [onFinish] are
    no more than the calls of [playBuffer], and fewer while a source still
    plays. *)
Theorem finish_is_reported_once (ctx : Context) (events : list event) (s : State) :
  state ctx <> closed -> (0 <= currentTime ctx)%Q ->
  run events (mounted ctx) = Some s ->
  (finished s + playing s <= plays events)%nat.
Proof.
  intros Hopen Ht Hrun.
  pose proof (run_finished events _ s (loop_mounted_invariant ctx Hopen Ht) Hrun) as H.
  cbn in H. exact H.
Qed.

Lemma finish_is_reported_once_witness :
  exists s,
    run [PlayBuffer one_second; Advance 2; Frame 1; Advance 1] (mounted live)
    = Some s
    /\ finished s = 1%nat /\ (finished s + playing s <= 1)%nat.
Proof.
  destruct (run [PlayBuffer one_second; Advance 2; Frame 1; Advance 1] (mounted live))
    as [s |] eqn:Hrun; [| vm_compute in Hrun; discriminate].
  exists s. split; [reflexivity |].
  pose proof (finish_is_reported_once live _ s ltac:(discriminate)
                ltac:(vm_compute; discriminate) Hrun) as H.
  split; [| exact H].
  vm_compute in Hrun. injection Hrun as <-. reflexivity.
Defined.



End ProgressSpec.

(* ===================================================================== *)
(** * Part XVIII: the end of a voice session                             *)
(* ===================================================================== *)

Module VoiceFacts.
Import Js AudioUtils Chat SchedulerFacts SchedulerTerms QueueFacts HandlerFacts.
Import Voice VoiceTerms.






End VoiceFacts.

Module VoiceSpec.
Import Js AudioUtils Chat SchedulerFacts SchedulerTerms QueueFacts HandlerFacts.
Import Voice VoiceTerms VoiceFacts Examples.



End VoiceSpec.
